(** * Resumable chunked uploads: the upload manager of large-file-upload-node

    A shallow embedding of [uploadManager.js] (the [BitSet] class and the
    [UploadManager] class), of the handlers of [server.js] and of the
    lane, byte range and retry logic of [upload-client.js], followed by
    the properties of the specification that concern them and by further
    properties of the code.

    Modelling conventions.
    - JavaScript numbers that hold sizes, offsets and chunk indices are
      integers ([Z]); the quotients [a / b] of the source are only ever
      consumed through [Math.ceil], [Math.floor] or [| 0], and are
      represented by the resulting JavaScript number ([jsnum]: a finite
      integer, an infinity or NaN, the last three arising from a zero
      divisor).  For integers below 2^53 these roundings of the floating
      point quotient coincide with the exact ones.  The sum that the
      range check of the PUT handler compares with the total size is
      rounded to a double ([to_double]), as it decides what is accepted
      at 2^53 and beyond.
    - [Uint8Array] is a list of bytes; reads out of range give [undefined]
      and writes out of range are dropped, as in JavaScript.
    - [Map] objects are finite maps; [Set] objects are insertion-ordered
      duplicate-free lists.
    - The file system is an explicit part of the state; the outcome of each
      fallible system call is an argument of the operation that issues it.
    - An [async] method runs as one atomic transition, except
      [writeChunkAt], which is split at the point where it waits for the
      stream. *)

From Stdlib Require Import ZArith Lia.
From Stdlib.Strings Require Import Byte.
From stdpp Require Import base tactics option list gmap strings fin_maps sorting.

Local Open Scope Z_scope.

(* ===================================================================== *)
(** ** JavaScript numbers                                                 *)
(* ===================================================================== *)

Inductive jsnum :=
  | Fin (z : Z)
  | PosInf
  | NegInf
  | NaN.

#[global] Instance jsnum_eq_dec : EqDecision jsnum.
Proof. solve_decision. Defined.

(** [Math.ceil(a / b)] for integers [a], [b]. *)
Definition ceil_div (a b : Z) : jsnum :=
  if b =? 0 then
    (if 0 <? a then PosInf else if a <? 0 then NegInf else NaN)
  else Fin (- ((- a) / b)).

(** [Math.floor(a / b)] for integers [a], [b]. *)
Definition floor_div (a b : Z) : jsnum :=
  if b =? 0 then
    (if 0 <? a then PosInf else if a <? 0 then NegInf else NaN)
  else Fin (a / b).

(** [Math.max(1, x)]. *)
Definition max1 (x : jsnum) : jsnum :=
  match x with
  | Fin z => Fin (Z.max 1 z)
  | PosInf => PosInf
  | NegInf => Fin 1
  | NaN => NaN
  end.

(** [ToInt32]: reduction modulo 2^32 into the signed range. *)
Definition ToInt32 (z : Z) : Z := (z + 2 ^ 31) mod 2 ^ 32 - 2 ^ 31.

(** [ToUint8], the conversion applied by a store into a [Uint8Array]. *)
Definition u8_of_Z (z : Z) : byte :=
  match Byte.of_N (Z.to_N (z mod 256)) with
  | Some b => b
  | None => x00
  end.

Definition Z_of_u8 (b : byte) : Z := Z.of_N (Byte.to_N b).

(* ===================================================================== *)
(** ** class BitSet                                                       *)
(* ===================================================================== *)

Module BitSet.

(** [length] is whatever was handed to the constructor; the constructor
    throws for an infinite length, so only finite lengths and NaN are
    ever stored. *)
Inductive blen :=
  | LFin (z : Z)
  | LNaN.

Record t := mk { length : blen; bytes : list byte }.

Definition num_of_blen (l : blen) : jsnum :=
  match l with LFin z => Fin z | LNaN => NaN end.

(** [constructor(length)]: [None] is the [RangeError] of
    [new Uint8Array(n)] for a negative or infinite [n]; the allocation of
    any other count is taken to succeed. *)
Definition new (len : jsnum) : option t :=
  match len with
  | Fin z =>
      let n := - ((- z) / 8) in
      if n <? 0 then None
      else Some (mk (LFin z) (replicate (Z.to_nat n) x00))
  | NaN => Some (mk LNaN [])
  | PosInf | NegInf => None
  end.

(** [_byteIndex(i) { return (i / 8) | 0; }] *)
Definition _byteIndex (i : jsnum) : Z :=
  match i with
  | Fin z => ToInt32 (Z.quot z 8)
  | _ => 0
  end.

(** [_bitMask(i) { return 1 << (i % 8); }]: the shift count is taken
    modulo 32 and the result is an int32. *)
Definition _bitMask (i : jsnum) : Z :=
  match i with
  | Fin z => ToInt32 (Z.shiftl 1 ((Z.rem z 8) mod 32))
  | _ => 1
  end.

(** [this.bytes[k]] as a value: [None] is [undefined]. *)
Definition read (bs : list byte) (k : Z) : option byte :=
  if k <? 0 then None else bs !! Z.to_nat k.

(** [set(i) { this.bytes[this._byteIndex(i)] |= this._bitMask(i); }] *)
Definition set (i : jsnum) (b : t) : t :=
  let k := _byteIndex i in
  match read (bytes b) k with
  | Some v =>
      mk (length b)
         (<[Z.to_nat k := u8_of_Z (Z.lor (Z_of_u8 v) (_bitMask i))]> (bytes b))
  | None => b
  end.

(** [has(i) { return (this.bytes[this._byteIndex(i)] & this._bitMask(i)) !== 0; }] *)
Definition has (i : jsnum) (b : t) : bool :=
  match read (bytes b) (_byteIndex i) with
  | Some v => negb (Z.land (Z_of_u8 v) (_bitMask i) =? 0)
  | None => false
  end.

(** The counters visited by [for (let i = 0; i < n; i++)]. *)
Definition upto (n : Z) : list Z := Z.of_nat <$> seq 0 (Z.to_nat n).

(** [toArray()] *)
Definition toArray (b : t) : list Z :=
  match length b with
  | LFin n => filter (λ i, has (Fin i) b = true) (upto n)
  | LNaN => []
  end.

(** [static fromArray(arr, length)] *)
Definition fromArray (arr : list Z) (len : jsnum) : option t :=
  match new len with
  | Some b => Some (foldl (λ acc i, set (Fin i) acc) b arr)
  | None => None
  end.

End BitSet.

(* ===================================================================== *)
(** ** JavaScript [Set] objects                                           *)
(* ===================================================================== *)

Module JSSet.
Section ops.
Context {A : Type} `{EqDecision A}.

Definition has (x : A) (s : list A) : bool := bool_decide (x ∈ s).

Definition add (x : A) (s : list A) : list A :=
  if has x s then s else s ++ [x].

Definition delete (x : A) (s : list A) : list A :=
  filter (λ y, y ≠ x) s.
End ops.
End JSSet.

(* ===================================================================== *)
(** ** Errors and results                                                 *)
(* ===================================================================== *)

(** The [code] property of the errors raised by [fs] and by streams. *)
Inductive ErrCode :=
  | EBADF
  | ERR_STREAM_PREMATURE_CLOSE
  | ENOSPC
  | ENOENT
  | EACCES
  | ERR_OUT_OF_RANGE.

#[global] Instance ErrCode_eq_dec : EqDecision ErrCode.
Proof. solve_decision. Defined.

Inductive Error :=
  | upload_not_found            (* new Error('upload_not_found') *)
  | chunk_write_in_progress     (* status = 409 *)
  | transient_write_failure     (* transient = true *)
  | SysError (code : ErrCode)   (* an error of fs or of a stream, as raised *)
  | RangeError                  (* an invalid typed array length *)
  | TypeError.                  (* a member access on undefined *)

#[global] Instance Error_eq_dec : EqDecision Error.
Proof. solve_decision. Defined.

(** What a call does: return, throw (or reject), or loop for ever. *)
Inductive Outcome (A : Type) :=
  | Returns (a : A)
  | Throws (e : Error)
  | Diverges.
Arguments Returns {A} a.
Arguments Throws {A} e.
Arguments Diverges {A}.

(* ===================================================================== *)
(** ** Descriptors, snapshots and the state of the process                *)
(* ===================================================================== *)

(** The object stored in [this.uploads]. *)
Record Upload := mkUpload {
  id : string;
  filename : string;
  totalSize : Z;
  chunkSize : Z;
  createdAt : Z;
  filePath : string;
  completed : bool;
  receivedBitset : BitSet.t
}.

(** The object serialised into [<id>.json]. *)
Record Meta := mkMeta {
  m_id : string;
  m_filename : string;
  m_totalSize : Z;
  m_chunkSize : Z;
  m_createdAt : Z;
  m_receivedChunks : list Z;
  m_filePath : string;
  m_completed : bool
}.

(** The content of a snapshot file: the JSON text of a [Meta], or a text
    that [JSON.parse] rejects (a write cut short leaves a strict prefix
    of an object literal, which never parses). *)
Inductive MetaFile :=
  | Json (m : Meta)
  | Garbage.

(** The [UploadManager] instance together with the directory [baseDir].
    Snapshot files are keyed by upload id ([_metaPath] is injective on
    ids without a separator), destination files by their path; the two
    families of names are disjoint, [_filePath] ending in a UUID and
    [_metaPath] in [.json]. *)
Record World := mkWorld {
  uploads : gmap string Upload;        (* id -> metadata *)
  locks : gmap string (list jsnum);    (* id -> Set of in-progress chunk indices *)
  dirty : list string;                 (* ids with pending metadata flush *)
  _debounceTimer : bool;               (* a timer is armed *)
  metaFiles : gmap string MetaFile;
  dataFiles : gmap string (list byte)
}.

Definition set_uploads (f : gmap string Upload → gmap string Upload) (w : World) : World :=
  mkWorld (f (uploads w)) (locks w) (dirty w) (_debounceTimer w) (metaFiles w) (dataFiles w).
Definition set_locks (f : gmap string (list jsnum) → gmap string (list jsnum)) (w : World) : World :=
  mkWorld (uploads w) (f (locks w)) (dirty w) (_debounceTimer w) (metaFiles w) (dataFiles w).
Definition set_dirty (f : list string → list string) (w : World) : World :=
  mkWorld (uploads w) (locks w) (f (dirty w)) (_debounceTimer w) (metaFiles w) (dataFiles w).
Definition set_timer (t : bool) (w : World) : World :=
  mkWorld (uploads w) (locks w) (dirty w) t (metaFiles w) (dataFiles w).
Definition set_metaFiles (f : gmap string MetaFile → gmap string MetaFile) (w : World) : World :=
  mkWorld (uploads w) (locks w) (dirty w) (_debounceTimer w) (f (metaFiles w)) (dataFiles w).
Definition set_dataFiles (f : gmap string (list byte) → gmap string (list byte)) (w : World) : World :=
  mkWorld (uploads w) (locks w) (dirty w) (_debounceTimer w) (metaFiles w) (f (dataFiles w)).

(** A freshly started process over an existing directory. *)
Definition boot (metas : gmap string MetaFile) (datas : gmap string (list byte)) : World :=
  mkWorld ∅ ∅ [] false metas datas.

(** Process restart: the memory of the manager is lost, the directory stays. *)
Definition restart (w : World) : World := boot (metaFiles w) (dataFiles w).

(* ===================================================================== *)
(** ** Outcomes of system calls                                           *)
(* ===================================================================== *)

(** [fs.writeFile]: success, or failure leaving the file as it was, or
    failure leaving a truncated text. *)
Inductive WriteFileResult :=
  | WfOk
  | WfFailClean (code : ErrCode)
  | WfFailTorn (code : ErrCode).

Definition writeFile (r : WriteFileResult) (id : string) (m : Meta) (w : World)
  : option ErrCode * World :=
  match r with
  | WfOk => (None, set_metaFiles (<[id := Json m]>) w)
  | WfFailClean c => (Some c, w)
  | WfFailTorn c => (Some c, set_metaFiles (<[id := Garbage]>) w)
  end.

(** [fs.unlink]: [fault] is an error raised by the system for an existing
    file; a missing file raises [ENOENT]. *)
Definition unlink_meta (fault : option ErrCode) (id : string) (w : World)
  : option ErrCode * World :=
  match fault with
  | Some c => (Some c, w)
  | None =>
      match metaFiles w !! id with
      | Some _ => (None, set_metaFiles (delete id) w)
      | None => (Some ENOENT, w)
      end
  end.

Definition unlink_data (fault : option ErrCode) (p : string) (w : World)
  : option ErrCode * World :=
  match fault with
  | Some c => (Some c, w)
  | None =>
      match dataFiles w !! p with
      | Some _ => (None, set_dataFiles (delete p) w)
      | None => (Some ENOENT, w)
      end
  end.

(** The system calls of one [createUpload]. *)
Record CreateIO := mkCreateIO {
  io_writeMeta : WriteFileResult;
  io_open : option ErrCode;
  io_close : option ErrCode;
  io_truncate : option ErrCode
}.

(** The system calls of one [abortUpload]. *)
Record AbortIO := mkAbortIO {
  io_unlinkFile : option ErrCode;
  io_unlinkMeta : option ErrCode
}.

(** What the streams of one chunk write do once piping has started:
    ['finish'] on the write stream after [data] went through, or ['error']
    on either stream after [data] reached the file. *)
Inductive StreamEvent :=
  | EvFinish (data : list byte)
  | EvError (code : ErrCode) (data : list byte).

(** A positional write of [data] at [offset >= 0] into [content]. *)
Definition pwrite (content : list byte) (offset : Z) (data : list byte) : list byte :=
  let off := Z.to_nat offset in
  let padded := content ++ replicate (off - Datatypes.length content) x00 in
  take off padded ++ data ++ drop (off + Datatypes.length data) content.

(* ===================================================================== *)
(** ** class UploadManager                                                *)
(* ===================================================================== *)

(** The value a successful [writeChunkAt] resolves to. *)
Record WriteResult := mkWriteResult { alreadyReceived : bool; written : Z }.

(** A chunk write that has taken its lock and waits for its streams:
    the variables captured by the closures of [writeChunkAt]. *)
Record Pending := mkPending {
  p_id : string;
  p_up : Upload;
  p_offset : Z;
  p_chunkIndex : jsnum
}.

Section UploadManager.

(** [path.basename] of the Node library. *)
Variable basename : string → string.

(** [_filePath(id, filename)], relative to [baseDir]. *)
Definition _filePath (id filename : string) : string :=
  filename +:+ "." +:+ id.

(** [_scheduleFlush(id)]: the timer is armed unless it already is. *)
Definition _scheduleFlush (id : string) (w : World) : World :=
  let w1 := set_dirty (JSSet.add id) w in
  if _debounceTimer w1 then w1 else set_timer true w1.

(** The [meta] object built by [_flushDirty]. *)
Definition snapshot (up : Upload) : Meta :=
  mkMeta (id up) (filename up) (totalSize up) (chunkSize up) (createdAt up)
         (BitSet.toArray (receivedBitset up)) (filePath up) (completed up).

(** [_flushDirty()]; [io i] is the outcome of the write for id [i].
    A failed write is logged and the loop goes on. *)
Definition _flushDirty (io : string → WriteFileResult) (w : World) : World :=
  let ids := dirty w in
  let w0 := set_timer false (set_dirty (λ _, []) w) in
  foldl (λ acc i,
           match uploads acc !! i with
           | None => acc
           | Some up => (writeFile (io i) i (snapshot up) acc).2
           end) w0 ids.

(** [flushAllMetadata()] *)
Definition flushAllMetadata (io : string → WriteFileResult) (w : World) : World :=
  _flushDirty io (if _debounceTimer w then set_timer false w else w).

(** [createUpload({ filename, totalSize, chunkSize = 64 * 1024 * 1024 })];
    [uuid] is the value of [uuidv4()] and [now] that of [Date.now()]. *)
Definition createUpload (uuid : string) (now : Z) (io : CreateIO)
    (filename : string) (totalSize : Z) (chunkSize : option Z) (w : World)
  : Outcome string * World :=
  let id := uuid in
  let safeName := basename filename in
  let filePath := _filePath id safeName in
  let total := totalSize in
  let cs := default (64 * 1024 * 1024) chunkSize in
  let totalChunks := max1 (ceil_div total cs) in
  match BitSet.new totalChunks with
  | None => (Throws RangeError, w)
  | Some bs =>
      let upload := mkUpload id safeName total cs now filePath false bs in
      let meta := mkMeta id safeName total cs now [] filePath false in
      match writeFile (io_writeMeta io) id meta w with
      | (Some c, w1) => (Throws (SysError c), w1)
      | (None, w1) =>
          match io_open io with
          | Some c => (Throws (SysError c), w1)
          | None =>
              let w2 := set_dataFiles (<[filePath := []]>) w1 in
              match io_close io with
              | Some c => (Throws (SysError c), w2)
              | None =>
                  match io_truncate io with
                  | Some c => (Throws (SysError c), w2)
                  | None =>
                      let w3 := set_dataFiles
                                  (<[filePath := replicate (Z.to_nat total) x00]>) w2 in
                      let w4 := set_uploads (<[id := upload]>) w3 in
                      let w5 := set_locks (<[id := []]>) w4 in
                      (Returns id, _scheduleFlush id w5)
                  end
              end
          end
      end
  end.

(** [getUpload(id)] *)
Definition getUpload (id : string) (w : World) : option Upload * World :=
  match uploads w !! id with
  | Some inMem => (Some inMem, w)
  | None =>
      match metaFiles w !! id with
      | None => (None, w)
      | Some Garbage => (None, w)
      | Some (Json data) =>
          let totalChunks := max1 (ceil_div (m_totalSize data) (m_chunkSize data)) in
          match BitSet.fromArray (m_receivedChunks data) totalChunks with
          | None => (None, w)
          | Some bs =>
              let up := mkUpload (m_id data) (m_filename data) (m_totalSize data)
                                 (m_chunkSize data) (m_createdAt data)
                                 (m_filePath data) (m_completed data) bs in
              let w1 := set_uploads (<[id := up]>) w in
              let w2 := match locks w1 !! id with
                        | Some _ => w1
                        | None => set_locks (<[id := []]>) w1
                        end in
              (Some up, w2)
          end
      end
  end.

(** [getReceivedChunksArray(id)] *)
Definition getReceivedChunksArray (id : string) (w : World) : list Z * World :=
  match getUpload id w with
  | (None, w1) => ([], w1)
  | (Some up, w1) => (BitSet.toArray (receivedBitset up), w1)
  end.

(** [writeChunkAt], up to the creation of the streams. *)
Definition writeChunkAt_begin (id : string) (offset : Z) (w : World)
  : (Outcome WriteResult + Pending) * World :=
  match getUpload id w with
  | (None, w1) => (inl (Throws upload_not_found), w1)
  | (Some up, w1) =>
      let chunkIndex := floor_div offset (chunkSize up) in
      if BitSet.has chunkIndex (receivedBitset up) then
        (inl (Returns (mkWriteResult true 0)), w1)
      else
        match locks w1 !! id with
        | None => (inl (Throws TypeError), w1)
        | Some lockSet =>
            if JSSet.has chunkIndex lockSet then
              (inl (Throws chunk_write_in_progress), w1)
            else
              (inr (mkPending id up offset chunkIndex),
               set_locks (<[id := JSSet.add chunkIndex lockSet]>) w1)
        end
  end.

(** [up.receivedBitset.set(chunkIndex)] on the registered descriptor. *)
Definition mark_received (i : jsnum) (up : Upload) : Upload :=
  mkUpload (id up) (filename up) (totalSize up) (chunkSize up) (createdAt up)
           (filePath up) (completed up) (BitSet.set i (receivedBitset up)).

(** The promise of [doWrite]: on ['finish'] the handler [onFinish] marks
    the chunk, schedules a flush, releases the index and resolves with
    the byte count; on ['error'] it rejects.  A write stream opened with
    flags [r+] fails on a missing file, and a negative [start] is
    refused.  The closures hold the descriptor and the lock set that were
    registered when the call began; these are the registered ones for as
    long as no abort intervenes, and are addressed through the id. *)
Definition doWrite (p : Pending) (ev : StreamEvent) (w : World)
  : (WriteResult + ErrCode) * World :=
  if p_offset p <? 0 then (inr ERR_OUT_OF_RANGE, w)
  else
    match dataFiles w !! filePath (p_up p) with
    | None => (inr ENOENT, w)
    | Some content =>
        match ev with
        | EvFinish data =>
            let w1 := set_dataFiles
                        (<[filePath (p_up p) := pwrite content (p_offset p) data]>) w in
            let w2 := set_uploads (alter (mark_received (p_chunkIndex p)) (p_id p)) w1 in
            let w3 := _scheduleFlush (p_id p) w2 in
            let w4 := set_locks (alter (JSSet.delete (p_chunkIndex p)) (p_id p)) w3 in
            (inl (mkWriteResult false (Z.of_nat (Datatypes.length data))), w4)
        | EvError c data =>
            (inr c,
             set_dataFiles (<[filePath (p_up p) := pwrite content (p_offset p) data]>) w)
        end
    end.

(** [err.code === 'EBADF' || err.code === 'ERR_STREAM_PREMATURE_CLOSE'] *)
Definition isBadFd (c : ErrCode) : bool :=
  match c with
  | EBADF | ERR_STREAM_PREMATURE_CLOSE => true
  | _ => false
  end.

(** The [finally] block: [if (lockSet.has(chunkIndex)) lockSet.delete(chunkIndex)]. *)
Definition release (p : Pending) (w : World) : World :=
  set_locks (alter (λ lockSet,
                      if JSSet.has (p_chunkIndex p) lockSet
                      then JSSet.delete (p_chunkIndex p) lockSet
                      else lockSet) (p_id p)) w.

(** [writeChunkAt], from the settlement of [doWrite()] on. *)
Definition writeChunkAt_settle (p : Pending) (ev : StreamEvent) (w : World)
  : Outcome WriteResult * World :=
  match doWrite p ev w with
  | (inl r, w1) => (Returns r, release p w1)
  | (inr c, w1) =>
      if isBadFd c then (Throws transient_write_failure, release p w1)
      else (Throws (SysError c), release p w1)
  end.

(** [writeChunkAt(id, offset, readStream, expectedLength)] run to its end
    with nothing in between; [ev] is what the streams do
    ([expectedLength] is not used by the source). *)
Definition writeChunkAt (id : string) (offset : Z) (ev : StreamEvent) (w : World)
  : Outcome WriteResult * World :=
  match writeChunkAt_begin id offset w with
  | (inl r, w1) => (r, w1)
  | (inr p, w1) => writeChunkAt_settle p ev w1
  end.

(** [getMissingChunks(id)]; the loop does not end for an infinite bound. *)
Definition getMissingChunks (id : string) (w : World) : Outcome (list Z) * World :=
  match getUpload id w with
  | (None, w1) => (Returns [], w1)
  | (Some up, w1) =>
      match ceil_div (totalSize up) (chunkSize up) with
      | Fin totalChunks =>
          (Returns (filter (λ i, BitSet.has (Fin i) (receivedBitset up) = false)
                           (BitSet.upto totalChunks)), w1)
      | NaN | NegInf => (Returns [], w1)
      | PosInf => (Diverges, w1)
      end
  end.

Definition mark_completed (up : Upload) : Upload :=
  mkUpload (id up) (filename up) (totalSize up) (chunkSize up) (createdAt up)
           (filePath up) true (receivedBitset up).

(** [markCompleted(id)] *)
Definition markCompleted (id : string) (w : World) : Outcome unit * World :=
  match getUpload id w with
  | (None, w1) => (Throws upload_not_found, w1)
  | (Some up, w1) =>
      (Returns (), _scheduleFlush id (set_uploads (alter mark_completed id) w1))
  end.

(** [abortUpload(id)] *)
Definition abortUpload (io : AbortIO) (id : string) (w : World) : Outcome unit * World :=
  match getUpload id w with
  | (None, w1) => (Returns (), w1)
  | (Some up, w1) =>
      let w2 := (unlink_data (io_unlinkFile io) (filePath up) w1).2 in
      let w3 := (unlink_meta (io_unlinkMeta io) id w2).2 in
      let w4 := set_uploads (delete id) w3 in
      let w5 := set_locks (delete id) w4 in
      (Returns (), set_dirty (JSSet.delete id) w5)
  end.

End UploadManager.

(* ===================================================================== *)
(** ** The status and complete handlers of server.js                      *)
(* ===================================================================== *)

(** The body of the 200 response of [GET /upload/:id/status]. *)
Record StatusBody := mkStatusBody {
  s_uploadId : string;
  s_filename : string;
  s_totalSize : Z;
  s_chunkSize : Z;
  s_totalChunks : jsnum;
  s_receivedChunks : list Z;
  s_receivedCount : Z
}.

Inductive StatusResponse :=
  | Status404                       (* { error: 'upload_not_found' } *)
  | Status200 (body : StatusBody).

(** [GET /upload/:id/status] *)
Definition getStatus (id : string) (w : World) : StatusResponse * World :=
  match getUpload id w with
  | (None, w1) => (Status404, w1)
  | (Some up, w1) =>
      let totalChunks := ceil_div (totalSize up) (chunkSize up) in
      let '(received, w2) := getReceivedChunksArray id w1 in
      (Status200 (mkStatusBody id (filename up) (totalSize up) (chunkSize up)
                               totalChunks received
                               (Z.of_nat (Datatypes.length received))), w2)
  end.

Inductive CompleteResponse :=
  | Complete404                          (* { error: 'upload_not_found' } *)
  | Complete400 (missing : list Z)       (* { error: 'missing_chunks', missing } *)
  | Complete200 (path : string).         (* { ok: true, path } *)

(** [POST /upload/:id/complete].  [markCompleted] is not awaited, so its
    promise cannot reach the [catch] of the handler. *)
Definition completeUpload (id : string) (w : World) : Outcome CompleteResponse * World :=
  match getUpload id w with
  | (None, w1) => (Returns Complete404, w1)
  | (Some up, w1) =>
      match getMissingChunks id w1 with
      | (Returns missing, w2) =>
          if 0 <? Z.of_nat (Datatypes.length missing) then
            (Returns (Complete400 missing), w2)
          else
            (Returns (Complete200 (filePath up)), (markCompleted id w2).2)
      | (Throws e, w2) => (Throws e, w2)
      | (Diverges, w2) => (Diverges, w2)
      end
  end.

(* ===================================================================== *)
(** ** Operations as a transition system                                  *)
(* ===================================================================== *)

Inductive Op :=
  | OpCreate (uuid : string) (now : Z) (io : CreateIO)
             (filename : string) (totalSize : Z) (chunkSize : option Z)
  | OpGetUpload (id : string)
  | OpGetReceived (id : string)
  | OpWriteBegin (id : string) (offset : Z)
  | OpWriteSettle (p : Pending) (ev : StreamEvent)
  | OpGetMissing (id : string)
  | OpMarkCompleted (id : string)
  | OpAbort (io : AbortIO) (id : string)
  | OpFlushDirty (io : string → WriteFileResult)
  | OpFlushAll (io : string → WriteFileResult)
  | OpStatus (id : string)
  | OpComplete (id : string).

Definition is_abort (o : Op) : bool :=
  match o with OpAbort _ _ => true | _ => false end.

Section Step.
Variable basename : string → string.

Definition step (o : Op) (w : World) : World :=
  match o with
  | OpCreate uuid now io filename total cs =>
      (createUpload basename uuid now io filename total cs w).2
  | OpGetUpload id => (getUpload id w).2
  | OpGetReceived id => (getReceivedChunksArray id w).2
  | OpWriteBegin id offset => (writeChunkAt_begin id offset w).2
  | OpWriteSettle p ev => (writeChunkAt_settle p ev w).2
  | OpGetMissing id => (getMissingChunks id w).2
  | OpMarkCompleted id => (markCompleted id w).2
  | OpAbort io id => (abortUpload io id w).2
  | OpFlushDirty io => _flushDirty io w
  | OpFlushAll io => flushAllMetadata io w
  | OpStatus id => (getStatus id w).2
  | OpComplete id => (completeUpload id w).2
  end.

Definition run (ops : list Op) (w : World) : World :=
  foldl (λ acc o, step o acc) w ops.
End Step.

(* ===================================================================== *)
(** ** The other handlers of server.js                                    *)
(* ===================================================================== *)

(** [isNaN(x)] *)
Definition isNaN (x : jsnum) : bool :=
  match x with NaN => true | _ => false end.

(** A number is an IEEE double, with a significand of 53 bits.
    [round_to e n] is the multiple of [2 ^ e] nearest to [n], the one with
    the even quotient when two are equally near. *)
Definition round_to (e n : Z) : Z :=
  let q := n / 2 ^ e in
  let r := n mod 2 ^ e in
  if (2 ^ (e - 1) <? r) || ((r =? 2 ^ (e - 1)) && Z.odd q)
  then (q + 1) * 2 ^ e
  else q * 2 ^ e.

(** The double nearest to a natural number: numbers of at most 53 bits
    are doubles, longer ones are rounded to their 53 leading bits. *)
Definition round53 (n : Z) : Z :=
  let e := Z.log2 n - 52 in
  if e <=? 0 then n else round_to e n.

(** The double that stands for an integer; what reaches [2 ^ 1024] after
    rounding is an infinity. *)
Definition to_double (z : Z) : jsnum :=
  let m := round53 (Z.abs z) in
  if 2 ^ 1024 <=? m then (if z <? 0 then NegInf else PosInf)
  else Fin (Z.sgn z * m).

Arguments to_double : simpl never.

(** [x + y] on numbers: the sum of two integers is rounded to a double. *)
Definition num_add (x y : jsnum) : jsnum :=
  match x, y with
  | NaN, _ | _, NaN => NaN
  | Fin a, Fin b => to_double (a + b)
  | PosInf, NegInf | NegInf, PosInf => NaN
  | PosInf, _ | _, PosInf => PosInf
  | NegInf, _ | _, NegInf => NegInf
  end.

(** [x < y] on numbers; a comparison with NaN is false. *)
Definition num_ltb (x y : jsnum) : bool :=
  match x, y with
  | NaN, _ | _, NaN => false
  | Fin a, Fin b => a <? b
  | _, NegInf => false
  | NegInf, _ => true
  | PosInf, _ => false
  | Fin _, PosInf => true
  end.

(** [x <= y] on numbers. *)
Definition num_leb (x y : jsnum) : bool :=
  match x, y with
  | NaN, _ | _, NaN => false
  | Fin a, Fin b => a <=? b
  | NegInf, _ => true
  | _, PosInf => true
  | _, NegInf => false
  | PosInf, _ => false
  end.

(** A field of the body of [POST /upload/initiate] that the handler reads
    as a number.  The handler tests the value that [JSON.parse] gave for
    truthiness, and applies [Number] to it only afterwards.  [Falsy]: the
    field is absent, [null], [false], the number [0] or the empty string.
    [Truthy n]: any other value, [n] being [Number] of it: a number [n]
    other than zero, or a string such as ['64'], or ['0'], which is truthy
    although its number is zero.  Values that [Number] does not turn into
    an integer are outside this type. *)
Inductive BodyNumber :=
  | Falsy
  | Truthy (number : Z).

(** The parsed body of [POST /upload/initiate].  The file name is a
    string, the empty one when the field is absent or falsy, which the
    handler cannot tell apart; a file name that is not a string is outside
    this type. *)
Record InitiateBody := mkInitiateBody {
  b_filename : string;
  b_totalSize : BodyNumber;
  b_chunkSize : BodyNumber
}.

(** Whether the value is truthy, as [!totalSize] and
    [chunkSize ? ... : undefined] test it. *)
Definition truthy (v : BodyNumber) : bool :=
  match v with Falsy => false | Truthy _ => true end.

Inductive InitiateResponse :=
  | Initiate400_json                     (* { error: 'invalid_json' } *)
  | Initiate400_required                 (* { error: 'filename and totalSize required' } *)
  | Initiate200 (uploadId : string) (chunkSize : Z)
  | Initiate507                          (* { error: 'disk_full' } *)
  | Initiate500.                         (* { error: 'initiate_failed' } *)

Section Initiate.
Variable basename : string → string.

(** [POST /upload/initiate]; [body] is [None] when [collectJson] rejects.
    The two tests of [!filename || !totalSize] lead to the same answer;
    [Number] is applied to the fields that passed as truthy. *)
Definition initiate (uuid : string) (now : Z) (io : CreateIO)
    (body : option InitiateBody) (w : World) : InitiateResponse * World :=
  match body with
  | None => (Initiate400_json, w)
  | Some b =>
      match b_totalSize b with
      | Truthy totalSize =>
          if String.eqb (b_filename b) "" then (Initiate400_required, w)
          else
            match createUpload basename uuid now io (b_filename b) totalSize
                    (match b_chunkSize b with
                     | Truthy chunkSize => Some chunkSize
                     | Falsy => None
                     end) w with
            | (Returns id, w1) =>
                match getUpload id w1 with
                | (Some up, w2) => (Initiate200 id (chunkSize up), w2)
                | (None, w2) => (Initiate500, w2)
                end
            | (Throws e, w1) =>
                match e with
                | SysError ENOSPC => (Initiate507, w1)
                | _ => (Initiate500, w1)
                end
            | (Diverges, w1) => (Initiate500, w1)
            end
      | Falsy => (Initiate400_required, w)
      end
  end.
End Initiate.

Inductive DeleteResponse :=
  | Delete404                            (* { error: 'upload_not_found' } *)
  | Delete200                            (* { ok: true } *)
  | Delete500.                           (* { error: 'abort_failed' } *)

(** [DELETE /upload/:id] *)
Definition deleteUpload (io : AbortIO) (id : string) (w : World) : DeleteResponse * World :=
  match getUpload id w with
  | (None, w1) => (Delete404, w1)
  | (Some up, w1) =>
      match abortUpload io id w1 with
      | (Returns _, w2) => (Delete200, w2)
      | (_, w2) => (Delete500, w2)
      end
  end.

(** The range headers of [PUT /upload/:id], as the numbers that the
    handler makes of them: the two digit groups of a matching
    [Content-Range], or a [Content-Range] that does not match, or, without
    [Content-Range], [Number(...)] of [x-chunk-offset] and of
    [x-chunk-size || content-length] ([None]: header absent or empty). *)
Inductive ChunkHeaders :=
  | ContentRange (first last : N)
  | ContentRangeInvalid
  | XChunk (xoffset xlen : option jsnum).

Inductive PutResponse :=
  | Put404                               (* { error: 'upload_not_found' } *)
  | Put400 (error : string)
  | Put200_already                       (* { ok: true, message: 'chunk_already_received' } *)
  | Put200_written (written : Z)         (* { ok: true, written } *)
  | Put507                               (* { error: 'disk_full' } *)
  | Put409                               (* { error: 'chunk_write_in_progress' } *)
  | Put503                               (* { error: 'transient_write_failure' } *)
  | Put500.                              (* { error: 'chunk_upload_failed' } *)

(** [offset] and [length] from the headers, or the error of the 400 answer. *)
Definition range_of_headers (h : ChunkHeaders) : string + jsnum * jsnum :=
  match h with
  | ContentRange first last =>
      inr (Fin (Z.of_N first), Fin (Z.of_N last - Z.of_N first + 1))
  | ContentRangeInvalid => inl "invalid_content_range"
  | XChunk (Some xoffset) (Some xlen) => inr (xoffset, xlen)
  | XChunk _ _ => inl "missing_offset_or_length"
  end.

(** [isNaN(offset) || isNaN(length) || offset < 0 || length <= 0
     || offset + length > up.totalSize].  The sum is a double, and so is
    [up.totalSize], which [Number] made at line 100 of uploadManager.js
    or [JSON.parse] at line 153; on the value of a double [to_double] is
    the identity. *)
Definition invalid_range (offset length : jsnum) (totalSize : Z) : bool :=
  isNaN offset || isNaN length || num_ltb offset (Fin 0) || num_leb length (Fin 0)
  || num_ltb (to_double totalSize) (num_add offset length).

(** The answer to a rejected [writeChunkAt]. *)
Definition put_error (e : Error) : PutResponse :=
  match e with
  | SysError ENOSPC => Put507
  | chunk_write_in_progress => Put409
  | transient_write_failure => Put503
  | _ => Put500
  end.

(** [PUT /upload/:id].  The check of the range lets an infinite offset
    through only against a total size that is itself infinite as a double
    (2^1024 and beyond), which is outside the sizes that this model
    represents; the last branch stands for that case. *)
Definition putChunk (id : string) (h : ChunkHeaders) (ev : StreamEvent) (w : World)
  : PutResponse * World :=
  match getUpload id w with
  | (None, w1) => (Put404, w1)
  | (Some up, w1) =>
      match range_of_headers h with
      | inl error => (Put400 error, w1)
      | inr (offset, length) =>
          if invalid_range offset length (totalSize up) then
            (Put400 "invalid_range", w1)
          else
            match offset with
            | Fin o =>
                match writeChunkAt id o ev w1 with
                | (Returns r, w2) =>
                    if alreadyReceived r then (Put200_already, w2)
                    else (Put200_written (written r), w2)
                | (Throws e, w2) => (put_error e, w2)
                | (Diverges, w2) => (Put500, w2)
                end
            | _ => (Put400 "invalid_range", w1)
            end
      end
  end.

(** [shutdown()]: the flush that precedes [process.exit(0)]. *)
Definition shutdown (io : string → WriteFileResult) (w : World) : World :=
  flushAllMetadata io w.

(* ===================================================================== *)
(** ** upload-client.js                                                   *)
(* ===================================================================== *)

(** The counters visited by [for (let c = start; c < end; c++)]. *)
Definition from_to (start end_ : Z) : list Z :=
  (λ k, start + Z.of_nat k) <$> seq 0 (Z.to_nat (end_ - start)).

(** [buildLanes(totalChunks, receivedSet, concurrency)]: for a
    concurrency that is not positive the outer loop does not run. *)
Definition buildLanes (totalChunks : Z) (receivedSet : list Z) (concurrency : Z)
  : list (list Z) :=
  if concurrency <=? 0 then []
  else
    let chunksPerLane := - ((- totalChunks) / concurrency) in
    foldl (λ lanes i,
             let start := i * chunksPerLane in
             let end_ := Z.min totalChunks ((i + 1) * chunksPerLane) in
             let lane := filter (λ c, JSSet.has c receivedSet = false) (from_to start end_) in
             if 0 <? Z.of_nat (Datatypes.length lane) then lanes ++ [lane] else lanes)
          [] (BitSet.upto concurrency).


(** What [fetch] gives for one [PUT]: a response with its status, or a
    rejection (a [TypeError], as for a network failure). *)
Inductive FetchResult :=
  | Http (status : Z)
  | FetchRejected.

(** The error objects that [uploadChunk] lets through, by the properties
    that [uploadWithRetries] reads. *)
Record ClientError := mkClientError {
  e_status : option Z;
  e_transient : bool;
  e_isTypeError : bool
}.

(** [uploadChunk], after the response: [None] when it returns. *)
Definition uploadChunk (r : FetchResult) : option ClientError :=
  match r with
  | FetchRejected => Some (mkClientError None false true)
  | Http status =>
      if status =? 200 then None
      else if status =? 409 then Some (mkClientError (Some 409) true false)
      else Some (mkClientError (Some status)
                               ((500 <=? status) && (status <? 600)) false)
  end.

(** [uploadWithRetries]: [fetches k] is the outcome of the request number
    [k]; the result is the error thrown, if any, and the number of
    requests made.  [fuel] bounds the iterations of the [while] loop. *)
Fixpoint retry_loop (fuel : nat) (attempt : Z) (fetches : Z → FetchResult)
  : option (option ClientError * Z) :=
  match fuel with
  | O => None
  | S fuel' =>
      if attempt <=? 6 then
        match uploadChunk (fetches attempt) with
        | None => Some (None, attempt + 1)
        | Some err =>
            let transient := e_transient err || e_isTypeError err
                             || bool_decide (e_status err = Some 409) in
            let attempt' := attempt + 1 in
            if negb transient || (6 <? attempt') then Some (Some err, attempt')
            else retry_loop fuel' attempt' fetches
        end
      else Some (None, attempt)
  end.

Definition uploadWithRetries (fetches : Z → FetchResult) : option (option ClientError * Z) :=
  retry_loop 8 0 fetches.

(* ===================================================================== *)
(** ** Auxiliary notions used by the statements                           *)
(* ===================================================================== *)

(** The bit that an index addresses, as a byte position and a bit position;
    [None] when the mask has no bit among the low eight. *)
Definition slot (i : jsnum) : option (Z * Z) :=
  match i with
  | Fin z =>
      if Z.rem z 8 <? 0 then None
      else Some (ToInt32 (Z.quot z 8), Z.rem z 8)
  | _ => Some (0, 0)
  end.

(** Bit [r] of the byte at position [k] of a bitmap. *)
Definition bit (b : BitSet.t) (k r : Z) : bool :=
  match BitSet.read (BitSet.bytes b) k with
  | Some v => Z.testbit (Z_of_u8 v) r
  | None => false
  end.

(** Index [i] reaches the bit that index [j] reads, in a bitmap with
    these bytes. *)
Definition covers (b : BitSet.t) (i j : jsnum) : bool :=
  match slot i, slot j with
  | Some (k, r), Some (k', r') =>
      bool_decide (k = k' ∧ r = r' ∧ is_Some (BitSet.read (BitSet.bytes b) k'))
  | _, _ => false
  end.

(** The byte count [Math.ceil(length / 8)] of a constructed bitmap. *)
Definition nbytes (l : BitSet.blen) : nat :=
  match l with
  | BitSet.LFin z => Z.to_nat (- ((- z) / 8))
  | BitSet.LNaN => 0%nat
  end.

(** A bitmap as the constructor sizes it (the constructor refuses a
    negative byte count). *)
Definition sized (b : BitSet.t) : Prop :=
  Datatypes.length (BitSet.bytes b) = nbytes (BitSet.length b)
  ∧ match BitSet.length b with
    | BitSet.LFin z => 0 ≤ - ((- z) / 8)
    | BitSet.LNaN => True
    end.

(** The descriptor invariant of [createUpload] and [getUpload]: the bitmap
    was built for [Math.max(1, Math.ceil(totalSize / chunkSize))] chunks. *)
Definition descriptor_ok (up : Upload) : Prop :=
  BitSet.num_of_blen (BitSet.length (receivedBitset up))
    = max1 (ceil_div (totalSize up) (chunkSize up))
  ∧ sized (receivedBitset up).

(** Every registered descriptor satisfies the invariant and has a lock set. *)
Definition registry_ok (w : World) : Prop :=
  ∀ id up, uploads w !! id = Some up →
    descriptor_ok up ∧ is_Some (locks w !! id).

(** The index is in the lock set of the upload. *)
Definition locked (id : string) (i : jsnum) (w : World) : bool :=
  match locks w !! id with
  | Some lockSet => JSSet.has i lockSet
  | None => false
  end.

(** The operation is neither an abort of this upload nor a
    [createUpload] whose [uuidv4()] repeats its id: the [Set] that
    [this.locks] holds for the id stays the one that a chunk write in
    flight has captured. *)
Definition keeps_lock_set (id : string) (o : Op) : bool :=
  match o with
  | OpAbort _ id' => negb (String.eqb id' id)
  | OpCreate uuid _ _ _ _ _ => negb (String.eqb uuid id)
  | _ => true
  end.

(** [up'] is [up] with possibly more bits set and possibly completed. *)
Definition descr_le (up up' : Upload) : Prop :=
  totalSize up' = totalSize up
  ∧ chunkSize up' = chunkSize up
  ∧ filePath up' = filePath up
  ∧ BitSet.length (receivedBitset up') = BitSet.length (receivedBitset up)
  ∧ Datatypes.length (BitSet.bytes (receivedBitset up'))
    = Datatypes.length (BitSet.bytes (receivedBitset up))
  ∧ ∀ j, BitSet.has j (receivedBitset up) = true →
         BitSet.has j (receivedBitset up') = true.

(** Every registered upload stays registered and loses no bit. *)
Definition persists (w w' : World) : Prop :=
  ∀ id up, uploads w !! id = Some up →
    ∃ up', uploads w' !! id = Some up' ∧ descr_le up up'.

(** A transition that keeps the registry invariant and every upload. *)
Definition evolves (w w' : World) : Prop :=
  persists w w' ∧ (registry_ok w → registry_ok w').

(** The value of [uuidv4()] is not an id already registered. *)
Definition fresh_uuid (o : Op) (w : World) : Prop :=
  match o with
  | OpCreate uuid _ _ _ _ _ => uploads w !! uuid = None
  | _ => True
  end.

(** The descriptor and the initial snapshot that [createUpload] builds. *)
Definition new_upload (basename : string → string) (uuid : string) (now : Z)
    (filename : string) (total : Z) (chunkSize : option Z) (bs : BitSet.t) : Upload :=
  mkUpload uuid (basename filename) total (default (64 * 1024 * 1024) chunkSize) now
           (_filePath uuid (basename filename)) false bs.

Definition new_meta (basename : string → string) (uuid : string) (now : Z)
    (filename : string) (total : Z) (chunkSize : option Z) : Meta :=
  mkMeta uuid (basename filename) total (default (64 * 1024 * 1024) chunkSize) now []
         (_filePath uuid (basename filename)) false.

(** The indices [0 .. totalChunks - 1] over which [getMissingChunks]
    loops, for a finite or empty range. *)
Definition chunk_range (up : Upload) : list Z :=
  match ceil_div (totalSize up) (chunkSize up) with
  | Fin n => BitSet.upto n
  | _ => []
  end.

(** The complement of the received chunks over the chunk range. *)
Definition complement_of_received (up : Upload) : list Z :=
  filter (λ i, i ∉ BitSet.toArray (receivedBitset up)) (chunk_range up).

(** The content of a snapshot file after [fs.writeFile] has ended with
    outcome [r], when it held [old] before. *)
Definition flushed_file (r : WriteFileResult) (up : Upload) (old : option MetaFile)
  : option MetaFile :=
  match r with
  | WfOk => Some (Json (snapshot up))
  | WfFailClean _ => old
  | WfFailTorn _ => Some Garbage
  end.

(** The failures after which [uploadWithRetries] tries again: a rejected
    [fetch], a 409 and every 5xx. *)
Definition retriable (r : FetchResult) : bool :=
  match r with
  | FetchRejected => true
  | Http status => (status =? 409) || ((500 <=? status) && (status <? 600))
  end.

(* ===================================================================== *)
(** ** Example worlds                                                     *)
(* ===================================================================== *)

(** No system call fails. *)
Definition io_fine : CreateIO := mkCreateIO WfOk None None None.

(** A 150 byte upload in 64 byte chunks, created in an empty directory. *)
Definition w_created : World :=
  (createUpload (λ s, s) "u1" 0 io_fine "f.bin" 150 (Some 64) (boot ∅ ∅)).2.

(** The same after its last chunk (offset 128, 22 bytes) has arrived. *)
Definition w_chunk2 : World :=
  (writeChunkAt "u1" 128 (EvFinish (replicate 22 x01)) w_created).2.

(** The descriptor registered in [w_chunk2]. *)
Definition up_chunk2 : Upload :=
  mkUpload "u1" "f.bin" 150 64 0 "f.bin.u1" false
           (BitSet.mk (BitSet.LFin 3) [x04]).

(** The descriptor registered in [w_created]. *)
Definition up_created : Upload :=
  mkUpload "u1" "f.bin" 150 64 0 "f.bin.u1" false
           (BitSet.mk (BitSet.LFin 3) [x00]).

(** A write of chunk 0 that has taken its lock in [w_created]. *)
Definition p_begun : Pending := mkPending "u1" up_created 0 (Fin 0).
Definition w_begun : World := (writeChunkAt_begin "u1" 0 w_created).2.

(** [w_chunk2] after a manual flush in which every write succeeds. *)
Definition w_flushed : World := flushAllMetadata (λ _, WfOk) w_chunk2.

(** A 640 byte upload in 64 byte chunks (ten chunks) of which the chunks
    0, 1, 2 and 5 have arrived. *)
Definition w_ten : World :=
  foldl (λ w off, (writeChunkAt "u2" off (EvFinish (replicate 64 x01)) w).2)
        (createUpload (λ s, s) "u2" 0 io_fine "g.bin" 640 (Some 64) (boot ∅ ∅)).2
        [0; 64; 128; 320].

Definition up_ten : Upload :=
  mkUpload "u2" "g.bin" 640 64 0 "g.bin.u2" false
           (BitSet.mk (BitSet.LFin 10) [x27; x00]).

(** An upload of zero bytes, created through the manager. *)
Definition w_empty : World :=
  (createUpload (λ s, s) "u0" 0 io_fine "empty.bin" 0 (Some 64) (boot ∅ ∅)).2.

Definition up_empty : Upload :=
  mkUpload "u0" "empty.bin" 0 64 0 "empty.bin.u0" false
           (BitSet.mk (BitSet.LFin 1) [x00]).




(** The 150 byte upload after all of its three chunks have arrived. *)
Definition w_full : World :=
  foldl (λ w '(off, n), (writeChunkAt "u1" off (EvFinish (replicate n x01)) w).2)
        w_created [(0, 64%nat); (64, 64%nat); (128, 22%nat)].

Definition up_full : Upload :=
  mkUpload "u1" "f.bin" 150 64 0 "f.bin.u1" false
           (BitSet.mk (BitSet.LFin 3) [x07]).

(** Two uploads side by side: next to the upload of [w_chunk2], a second
    one of 640 bytes, a write of whose chunk 0 has taken its lock. *)
Definition w_two : World :=
  (writeChunkAt_begin "u2" 0
     (createUpload (λ s, s) "u2" 5 io_fine "g.bin" 640 (Some 64) w_chunk2).2).2.

Definition up_two : Upload :=
  mkUpload "u2" "g.bin" 640 64 5 "g.bin.u2" false
           (BitSet.mk (BitSet.LFin 10) [x00; x00]).

(** A write of chunk 1 begins while the write of chunk 0 of [w_begun]
    is in flight. *)
Definition ops_between : list Op := [OpWriteBegin "u1" 64].

(** A bitmap for three chunks, as constructed. *)
Definition b_three : BitSet.t := BitSet.mk (BitSet.LFin 3) [x00].

(** An abort during which the snapshot file cannot be removed. *)
Definition io_meta_stuck : AbortIO := mkAbortIO None (Some EACCES).

Definition w_aborted : World := (abortUpload io_meta_stuck "u1" w_flushed).2.

(* ===================================================================== *)
(** ** Bytes and masks                                                    *)
(* ===================================================================== *)

Lemma Z_of_u8_range v : 0 ≤ Z_of_u8 v < 256.
Proof.
  unfold Z_of_u8. pose proof (Byte.to_N_bounded v). lia.
Qed.

Lemma Z_of_u8_of_Z z : Z_of_u8 (u8_of_Z z) = z mod 256.
Proof.
  unfold Z_of_u8, u8_of_Z.
  assert (Hr : 0 ≤ z mod 256 < 256) by (apply Z.mod_pos_bound; lia).
  destruct (Byte.of_N (Z.to_N (z mod 256))) as [b|] eqn:E.
  - apply Byte.to_of_N in E. rewrite E. lia.
  - apply Byte.of_N_None_iff in E. lia.
Qed.

Lemma u8_high_bits v n : 8 ≤ n → Z.testbit (Z_of_u8 v) n = false.
Proof.
  intros Hn. pose proof (Z_of_u8_range v) as Hv.
  destruct (Z.eq_dec (Z_of_u8 v) 0) as [->|Hz]; [apply Z.bits_0|].
  apply Z.bits_above_log2; [lia|].
  assert (Z.log2 (Z_of_u8 v) < 8); [|lia].
  apply Z.log2_lt_pow2; lia.
Qed.

Lemma testbit_stored v m n :
  0 ≤ n < 8 →
  Z.testbit (Z_of_u8 (u8_of_Z (Z.lor (Z_of_u8 v) m))) n
  = Z.testbit (Z_of_u8 v) n || Z.testbit m n.
Proof.
  intros Hn. rewrite Z_of_u8_of_Z.
  change 256 with (2 ^ 8). rewrite Z.mod_pow2_bits_low by lia.
  apply Z.lor_spec.
Qed.

Lemma land_single v m r :
  0 ≤ r < 8 →
  (∀ n, 0 ≤ n < 8 → Z.testbit m n = (r =? n)) →
  negb (Z.land (Z_of_u8 v) m =? 0) = Z.testbit (Z_of_u8 v) r.
Proof.
  intros Hr Hm.
  destruct (Z.testbit (Z_of_u8 v) r) eqn:Hb.
  - destruct (Z.eqb_spec (Z.land (Z_of_u8 v) m) 0) as [E|]; [|done].
    assert (Z.testbit (Z.land (Z_of_u8 v) m) r = false) as Hc
      by (rewrite E; apply Z.bits_0).
    rewrite Z.land_spec, Hb, Hm, Z.eqb_refl in Hc by lia. done.
  - assert (Z.land (Z_of_u8 v) m = 0) as ->; [|done].
    apply Z.bits_inj'. intros n Hn. rewrite Z.land_spec, Z.bits_0.
    destruct (Z_lt_dec n 8).
    + rewrite Hm by lia. destruct (Z.eqb_spec r n) as [<-|].
      * by rewrite Hb.
      * apply andb_false_r.
    + rewrite u8_high_bits by lia. done.
Qed.

Lemma land_none v m :
  (∀ n, 0 ≤ n < 8 → Z.testbit m n = false) →
  Z.land (Z_of_u8 v) m = 0.
Proof.
  intros Hm. apply Z.bits_inj'. intros n Hn.
  rewrite Z.land_spec, Z.bits_0.
  destruct (Z_lt_dec n 8).
  - rewrite Hm by lia. apply andb_false_r.
  - rewrite u8_high_bits by lia. done.
Qed.

Lemma rem8_cases z :
  let r := Z.rem z 8 in
  r = -7 ∨ r = -6 ∨ r = -5 ∨ r = -4 ∨ r = -3 ∨ r = -2 ∨ r = -1 ∨
  r = 0 ∨ r = 1 ∨ r = 2 ∨ r = 3 ∨ r = 4 ∨ r = 5 ∨ r = 6 ∨ r = 7.
Proof.
  intros r. pose proof (Z.rem_bound_abs z 8). lia.
Qed.

Lemma low8_cases n :
  0 ≤ n < 8 →
  n = 0 ∨ n = 1 ∨ n = 2 ∨ n = 3 ∨ n = 4 ∨ n = 5 ∨ n = 6 ∨ n = 7.
Proof. lia. Qed.

(** The low eight bits of a mask: the single bit of the slot, or none. *)
Lemma _bitMask_low i n :
  0 ≤ n < 8 →
  Z.testbit (BitSet._bitMask i) n
  = match slot i with
    | Some (_, r) => r =? n
    | None => false
    end.
Proof.
  intros Hn. destruct i as [z| | |]; simpl.
  - unfold slot.
    pose proof (rem8_cases z) as Hr. simpl in Hr.
    apply low8_cases in Hn.
    repeat (destruct Hr as [Hr|Hr]);
      rewrite Hr; simpl;
      repeat (destruct Hn as [Hn|Hn]); subst n; reflexivity.
  - apply low8_cases in Hn. repeat (destruct Hn as [Hn|Hn]); subst n; reflexivity.
  - apply low8_cases in Hn. repeat (destruct Hn as [Hn|Hn]); subst n; reflexivity.
  - apply low8_cases in Hn. repeat (destruct Hn as [Hn|Hn]); subst n; reflexivity.
Qed.

Lemma slot_byteIndex i k r : slot i = Some (k, r) → k = BitSet._byteIndex i ∧ 0 ≤ r < 8.
Proof.
  destruct i as [z| | |]; simpl; try (intros [= <- <-]; split; [done|lia]).
  pose proof (rem8_cases z) as Hr. simpl in Hr.
  destruct (Z.ltb_spec (Z.rem z 8) 0); [done|].
  intros [= <- <-]. split; [done|lia].
Qed.

(* ===================================================================== *)
(** ** BitSet: [has] and [set] through the addressed bit                  *)
(* ===================================================================== *)

Lemma has_slot i b :
  BitSet.has i b
  = match slot i with
    | Some (k, r) => bit b k r
    | None => false
    end.
Proof.
  unfold BitSet.has, bit.
  destruct (slot i) as [[k r]|] eqn:Hs.
  - destruct (slot_byteIndex _ _ _ Hs) as [-> Hr].
    destruct (BitSet.read _ _) as [v|]; [|done].
    apply land_single; [done|].
    intros n Hn. rewrite _bitMask_low, Hs by done. done.
  - destruct (BitSet.read _ _) as [v|]; [|done].
    rewrite land_none; [done|].
    intros n Hn. rewrite _bitMask_low, Hs by done. done.
Qed.

Lemma set_length i b : BitSet.length (BitSet.set i b) = BitSet.length b.
Proof. unfold BitSet.set. by destruct (BitSet.read _ _). Qed.

Lemma set_bytes_length i b :
  Datatypes.length (BitSet.bytes (BitSet.set i b)) = Datatypes.length (BitSet.bytes b).
Proof.
  unfold BitSet.set. destruct (BitSet.read _ _); simpl; [|done].
  apply length_insert.
Qed.

Lemma set_sized i b : sized b → sized (BitSet.set i b).
Proof. unfold sized. by rewrite set_bytes_length, set_length. Qed.

Lemma read_is_Some bs k :
  is_Some (BitSet.read bs k) ↔ 0 ≤ k < Z.of_nat (Datatypes.length bs).
Proof.
  unfold BitSet.read. destruct (Z.ltb_spec k 0).
  - split; [intros [? ?]; done | lia].
  - rewrite lookup_lt_is_Some. lia.
Qed.

Lemma read_set_is_Some i b k :
  is_Some (BitSet.read (BitSet.bytes (BitSet.set i b)) k)
  ↔ is_Some (BitSet.read (BitSet.bytes b) k).
Proof. by rewrite !read_is_Some, set_bytes_length. Qed.

(** [set] turns on the addressed bit, when its byte exists, and keeps
    every other bit. *)
Lemma bit_set i b k r :
  0 ≤ r < 8 →
  bit (BitSet.set i b) k r
  = bit b k r
    || match slot i with
       | Some (k', r') =>
           bool_decide (k' = k ∧ r' = r ∧ is_Some (BitSet.read (BitSet.bytes b) k))
       | None => false
       end.
Proof.
  intros Hr. unfold bit at 1, BitSet.set.
  destruct (BitSet.read (BitSet.bytes b) (BitSet._byteIndex i)) as [v|] eqn:Hv.
  - simpl. unfold BitSet.read in *.
    destruct (Z.ltb_spec (BitSet._byteIndex i) 0) as [|Hk0]; [done|].
    destruct (Z.ltb_spec k 0) as [|Hk].
    { unfold bit, BitSet.read. destruct (Z.ltb_spec k 0); [|lia]. simpl.
      destruct (slot i) as [[k' r']|]; [|done].
      rewrite bool_decide_eq_false_2; [done|]. intros (_ & _ & [? ?]). done. }
    destruct (decide (BitSet._byteIndex i = k)) as [<-|Hne].
    + rewrite list_lookup_insert_eq by (by eapply lookup_lt_Some).
      rewrite testbit_stored by done.
      unfold bit, BitSet.read. destruct (Z.ltb_spec (BitSet._byteIndex i) 0); [lia|].
      rewrite Hv. f_equal.
      rewrite _bitMask_low by done.
      destruct (slot i) as [[k' r']|] eqn:Hs; [|done].
      destruct (slot_byteIndex _ _ _ Hs) as [-> _].
      destruct (Z.eqb_spec r' r).
      * rewrite bool_decide_eq_true_2; [done|]. by eauto.
      * rewrite bool_decide_eq_false_2; [done|]. by intros (_ & ? & _).
    + rewrite list_lookup_insert_ne by lia.
      unfold bit, BitSet.read. destruct (Z.ltb_spec k 0); [lia|].
      destruct (slot i) as [[k' r']|] eqn:Hs; [|by rewrite orb_false_r].
      destruct (slot_byteIndex _ _ _ Hs) as [-> _].
      rewrite bool_decide_eq_false_2; [by rewrite orb_false_r|]. by intros (? & _).
  - unfold bit. destruct (slot i) as [[k' r']|] eqn:Hs; [|by rewrite orb_false_r].
    destruct (slot_byteIndex _ _ _ Hs) as [-> _].
    rewrite bool_decide_eq_false_2; [by rewrite orb_false_r|].
    intros (<- & _ & [? ?]). congruence.
Qed.

Lemma has_set i j b :
  BitSet.has j (BitSet.set i b) = BitSet.has j b || covers b i j.
Proof.
  rewrite !has_slot. unfold covers.
  destruct (slot j) as [[k' r']|] eqn:Hj.
  - destruct (slot_byteIndex _ _ _ Hj) as [_ Hr].
    rewrite bit_set by done. done.
  - by destruct (slot i) as [[? ?]|].
Qed.

(** [set] never clears a bit. *)
Lemma has_set_mono i j b : BitSet.has j b = true → BitSet.has j (BitSet.set i b) = true.
Proof. intros H. by rewrite has_set, H. Qed.

Lemma covers_set i' b i j : covers (BitSet.set i' b) i j = covers b i j.
Proof.
  unfold covers. destruct (slot i) as [[k r]|], (slot j) as [[k' r']|]; try done.
  apply bool_decide_ext. by rewrite read_set_is_Some.
Qed.

Lemma has_foldl_set (arr : list Z) j b :
  BitSet.has j (foldl (λ acc i, BitSet.set (Fin i) acc) b arr)
  = BitSet.has j b || existsb (λ i, covers b (Fin i) j) arr.
Proof.
  revert b. induction arr as [|a arr IH]; intros b; simpl.
  - by rewrite orb_false_r.
  - rewrite IH, has_set, <- orb_assoc. f_equal. f_equal.
    clear IH. induction arr as [|a' arr' IH']; simpl; [done|].
    by rewrite covers_set, IH'.
Qed.

(* ===================================================================== *)
(** ** BitSet: constructor, [toArray], [fromArray]                        *)
(* ===================================================================== *)

Lemma filter_ext_elem {A} (P Q : A → Prop) `{∀ x, Decision (P x)} `{∀ x, Decision (Q x)}
    (l : list A) :
  (∀ x, x ∈ l → P x ↔ Q x) → filter P l = filter Q l.
Proof.
  induction l as [|a l IH]; intros Hpq; [done|].
  rewrite !filter_cons.
  rewrite IH by (intros x Hx; apply Hpq; by right).
  destruct (decide (P a)) as [Hp|Hp], (decide (Q a)) as [Hq|Hq]; try done.
  - exfalso. apply Hq, Hpq; [by left|done].
  - exfalso. apply Hp, Hpq; [by left|done].
Qed.

Lemma elem_of_upto n i : i ∈ BitSet.upto n ↔ 0 ≤ i < n.
Proof.
  unfold BitSet.upto. rewrite list_elem_of_fmap. split.
  - intros (k & -> & Hk). apply elem_of_seq in Hk. lia.
  - intros Hi. exists (Z.to_nat i). split; [lia|]. apply elem_of_seq. lia.
Qed.

Lemma new_spec len b :
  BitSet.new len = Some b →
  BitSet.num_of_blen (BitSet.length b) = len ∧ sized b ∧ ∀ j, BitSet.has j b = false.
Proof.
  destruct len as [z| | |]; simpl; try done.
  - destruct (Z.ltb_spec (- (- z / 8)) 0); [done|]. intros [= <-]. simpl.
    split; [done|]. split.
    + split; simpl; [apply length_replicate|done].
    + intros j. unfold BitSet.has, BitSet.read. simpl.
      destruct (_ <? 0); [done|].
      destruct (replicate _ _ !! _) as [v|] eqn:Hv; [|done].
      apply lookup_replicate in Hv as [-> _]. done.
  - intros [= <-]. simpl. split; [done|]. split; [done|].
    intros j. unfold BitSet.has, BitSet.read. simpl.
    destruct (_ <? 0); [done|]. by rewrite lookup_nil.
Qed.

Lemma new_of_sized b :
  sized b → ∃ b0, BitSet.new (BitSet.num_of_blen (BitSet.length b)) = Some b0
                  ∧ BitSet.length b0 = BitSet.length b
                  ∧ Datatypes.length (BitSet.bytes b0) = Datatypes.length (BitSet.bytes b).
Proof.
  intros [Hlen Hok]. destruct b as [[z|] bs]; simpl in *.
  - destruct (Z.ltb_spec (- (- z / 8)) 0); [lia|].
    eexists. split; [done|]. simpl. split; [done|].
    by rewrite length_replicate.
  - eexists. split; [done|]. simpl. split; [done|]. by rewrite Hlen.
Qed.

Lemma foldl_set_length (arr : list Z) b :
  BitSet.length (foldl (λ acc i, BitSet.set (Fin i) acc) b arr) = BitSet.length b.
Proof.
  revert b. induction arr as [|a arr IH]; intros b; simpl; [done|].
  by rewrite IH, set_length.
Qed.

Lemma foldl_set_bytes_length (arr : list Z) b :
  Datatypes.length (BitSet.bytes (foldl (λ acc i, BitSet.set (Fin i) acc) b arr))
  = Datatypes.length (BitSet.bytes b).
Proof.
  revert b. induction arr as [|a arr IH]; intros b; simpl; [done|].
  by rewrite IH, set_bytes_length.
Qed.

Lemma fromArray_spec arr len b :
  BitSet.fromArray arr len = Some b →
  BitSet.num_of_blen (BitSet.length b) = len ∧ sized b.
Proof.
  unfold BitSet.fromArray. destruct (BitSet.new len) as [b0|] eqn:Hn; [|done].
  intros [= <-]. apply new_spec in Hn as (Hl & [Hs1 Hs2] & _).
  rewrite foldl_set_length. split; [done|].
  split; [by rewrite foldl_set_bytes_length, foldl_set_length|].
  by rewrite foldl_set_length.
Qed.

Lemma elem_of_toArray b i :
  i ∈ BitSet.toArray b
  ↔ ∃ n, BitSet.length b = BitSet.LFin n ∧ 0 ≤ i < n ∧ BitSet.has (Fin i) b = true.
Proof.
  unfold BitSet.toArray. destruct (BitSet.length b) as [n|].
  - rewrite list_elem_of_filter, elem_of_upto. split.
    + intros (Hh & Hi). by exists n.
    + intros (n' & [= <-] & Hi & Hh). done.
  - split; [by intros ?%elem_of_nil|]. by intros (n & ? & _).
Qed.

Lemma covers_refl b i :
  BitSet.has i b = true → covers b i i = true.
Proof.
  rewrite has_slot. unfold covers, bit.
  destruct (slot i) as [[k r]|]; [|done].
  destruct (BitSet.read _ _) eqn:Hr; [|done]. intros _.
  apply bool_decide_eq_true_2. by eauto.
Qed.

Lemma covers_has b i j :
  covers b i j = true → BitSet.has i b = BitSet.has j b.
Proof.
  rewrite !has_slot. unfold covers.
  destruct (slot i) as [[k r]|], (slot j) as [[k' r']|]; try done.
  intros (-> & -> & _)%bool_decide_eq_true. done.
Qed.

Lemma covers_same_bytes b b' i j :
  Datatypes.length (BitSet.bytes b) = Datatypes.length (BitSet.bytes b') →
  covers b i j = covers b' i j.
Proof.
  intros Hl. unfold covers.
  destruct (slot i) as [[k r]|], (slot j) as [[k' r']|]; try done.
  apply bool_decide_ext. by rewrite !read_is_Some, Hl.
Qed.

(** Rebuilding a bitmap from its own index list gives the same indices:
    the snapshot of a descriptor determines what a reload reports. *)
Lemma fromArray_toArray b :
  sized b →
  ∃ b', BitSet.fromArray (BitSet.toArray b) (BitSet.num_of_blen (BitSet.length b)) = Some b'
        ∧ BitSet.length b' = BitSet.length b
        ∧ BitSet.toArray b' = BitSet.toArray b
        ∧ ∀ j, BitSet.has j b' = true → BitSet.has j b = true.
Proof.
  intros Hs. destruct (new_of_sized b Hs) as (b0 & Hnew & Hl0 & Hb0).
  unfold BitSet.fromArray. rewrite Hnew. eexists. split; [done|].
  destruct (new_spec _ _ Hnew) as (_ & _ & Hfresh).
  assert (Hhas : ∀ j, BitSet.has j (foldl (λ acc i, BitSet.set (Fin i) acc) b0 (BitSet.toArray b)) = true
                 → BitSet.has j b = true).
  { intros j. rewrite has_foldl_set, Hfresh. simpl.
    intros (i & Hi & Hc)%existsb_exists.
    apply list_elem_of_In, elem_of_toArray in Hi as (n & _ & _ & Hi).
    rewrite (covers_same_bytes b0 b) in Hc by done.
    by rewrite <- (covers_has _ _ _ Hc). }
  split; [by rewrite foldl_set_length|]. split; [|done].
  unfold BitSet.toArray at 1 3. rewrite foldl_set_length, Hl0.
  destruct (BitSet.length b) as [n|] eqn:Hn; [|done].
  apply filter_ext_elem. intros i Hi. split; [apply Hhas|].
  intros Hb. rewrite has_foldl_set, Hfresh. simpl.
  apply existsb_exists. exists i. split.
  - apply list_elem_of_In, elem_of_toArray. exists n.
    apply elem_of_upto in Hi. done.
  - rewrite (covers_same_bytes b0 b) by done. by apply covers_refl.
Qed.

(* ===================================================================== *)
(** ** Sets as lists                                                      *)
(* ===================================================================== *)

Section JSSet_facts.
Context {A : Type} `{EqDecision A}.
Implicit Types (x y : A) (s : list A).

Lemma has_true x s : JSSet.has x s = true ↔ x ∈ s.
Proof. unfold JSSet.has. apply bool_decide_eq_true. Qed.

Lemma has_false x s : JSSet.has x s = false ↔ x ∉ s.
Proof. unfold JSSet.has. apply bool_decide_eq_false. Qed.

Lemma elem_of_add y x s : y ∈ JSSet.add x s ↔ y = x ∨ y ∈ s.
Proof.
  unfold JSSet.add. destruct (JSSet.has x s) eqn:Hx.
  - apply has_true in Hx. split; [by right|]. by intros [->|].
  - rewrite elem_of_app, list_elem_of_singleton. tauto.
Qed.

Lemma elem_of_delete y x s : y ∈ JSSet.delete x s ↔ y ≠ x ∧ y ∈ s.
Proof. unfold JSSet.delete. by rewrite list_elem_of_filter. Qed.

Lemma has_add_same x s : JSSet.has x (JSSet.add x s) = true.
Proof. apply has_true, elem_of_add. by left. Qed.

Lemma has_delete_same x s : JSSet.has x (JSSet.delete x s) = false.
Proof. apply has_false. rewrite elem_of_delete. by intros [? _]. Qed.

Lemma has_delete_ne x y s : y ≠ x → JSSet.has y (JSSet.delete x s) = JSSet.has y s.
Proof.
  intros Hne. destruct (JSSet.has y s) eqn:Hy.
  - apply has_true. apply has_true in Hy. by rewrite elem_of_delete.
  - apply has_false. apply has_false in Hy. rewrite elem_of_delete. by intros [_ ?].
Qed.

Lemma delete_absent x s : x ∉ s → JSSet.delete x s = s.
Proof.
  intros Hx. unfold JSSet.delete. induction s as [|a s IH]; [done|].
  rewrite filter_cons. destruct (decide (a ≠ x)) as [_|Hn].
  - f_equal. apply IH. intros ?. apply Hx. by right.
  - exfalso. apply Hx. apply dec_stable in Hn as ->. by left.
Qed.

(** Adding an absent element and deleting it again restores the set. *)
Lemma delete_add_absent x s : x ∉ s → JSSet.delete x (JSSet.add x s) = s.
Proof.
  intros Hx. unfold JSSet.add.
  apply has_false in Hx as Hh. rewrite Hh.
  unfold JSSet.delete. rewrite filter_app, filter_cons, filter_nil.
  destruct (decide (x ≠ x)) as [?|_]; [done|].
  rewrite app_nil_r. by apply (delete_absent x s).
Qed.
End JSSet_facts.

(* ===================================================================== *)
(** ** getUpload                                                          *)
(* ===================================================================== *)

Lemma getUpload_cached id w up :
  uploads w !! id = Some up → getUpload id w = (Some up, w).
Proof. intros H. unfold getUpload. by rewrite H. Qed.

Lemma getUpload_None id w w1 :
  getUpload id w = (None, w1) → w1 = w ∧ uploads w !! id = None.
Proof.
  unfold getUpload. destruct (uploads w !! id) eqn:Hu; [done|].
  destruct (metaFiles w !! id) as [[data|]|]; try (by intros [= <-]).
  destruct (BitSet.fromArray _ _); [done|]. by intros [= <-].
Qed.

Lemma getUpload_absent id w :
  uploads w !! id = None → metaFiles w !! id = None → getUpload id w = (None, w).
Proof. intros Hu Hm. unfold getUpload. by rewrite Hu, Hm. Qed.

(** What a successful lookup leaves behind: the descriptor is cached
    under the id, and nothing else than the cache and the lock table
    has changed. *)
Lemma getUpload_Some id w up w1 :
  getUpload id w = (Some up, w1) →
  uploads w1 !! id = Some up
  ∧ (∀ id', id' ≠ id → uploads w1 !! id' = uploads w !! id')
  ∧ (∀ id', id' ≠ id → locks w1 !! id' = locks w !! id')
  ∧ (∀ s, locks w !! id = Some s → locks w1 !! id = Some s)
  ∧ (uploads w !! id = None → is_Some (locks w1 !! id))
  ∧ dirty w1 = dirty w
  ∧ _debounceTimer w1 = _debounceTimer w
  ∧ metaFiles w1 = metaFiles w
  ∧ dataFiles w1 = dataFiles w
  ∧ (uploads w !! id = Some up ∧ w1 = w
     ∨ uploads w !! id = None ∧ descriptor_ok up).
Proof.
  unfold getUpload. destruct (uploads w !! id) as [inMem|] eqn:Hu.
  { intros [= -> <-]. split_and!; try done. by left. }
  destruct (metaFiles w !! id) as [[data|]|]; try done.
  destruct (BitSet.fromArray _ _) as [bs|] eqn:Hbs; [|done].
  apply fromArray_spec in Hbs as [Hlen Hsz].
  intros [= <- <-]. destruct w as [us ls d t mf df]; simpl in *.
  destruct (ls !! id) as [s|] eqn:Hl; simpl.
  - rewrite lookup_insert_eq. split_and!; try done.
    + intros id' Hne. by rewrite lookup_insert_ne.
    + by intros s0 [= <-].
    + by right.
  - rewrite !lookup_insert_eq. split_and!; try done.
    + intros id' Hne. by rewrite lookup_insert_ne.
    + intros id' Hne. by rewrite lookup_insert_ne.
    + by right.
Qed.

Lemma getUpload_again id w up w1 :
  getUpload id w = (Some up, w1) → getUpload id w1 = (Some up, w1).
Proof. intros H. apply getUpload_Some in H as (H & _). by apply getUpload_cached. Qed.

(* ===================================================================== *)
(** ** Re-delivery of a chunk                                             *)
(* ===================================================================== *)

(** C1.  When the upload resolves and the chunk index of the offset is
    already in its bitmap, [writeChunkAt] returns
    [{ alreadyReceived: true, written: 0 }] whatever the payload does; no
    file of the directory changes, the registered descriptor (hence its
    bitmap) is the one that was resolved, a cached upload leaves the whole
    state as it was, and repeating the call changes nothing any more. *)
Theorem writeChunkAt_already_received id offset ev w up w1 :
  getUpload id w = (Some up, w1) →
  BitSet.has (floor_div offset (chunkSize up)) (receivedBitset up) = true →
  writeChunkAt id offset ev w = (Returns (mkWriteResult true 0), w1)
  ∧ dataFiles w1 = dataFiles w
  ∧ metaFiles w1 = metaFiles w
  ∧ uploads w1 !! id = Some up
  ∧ (uploads w !! id = Some up → w1 = w)
  ∧ ∀ ev', writeChunkAt id offset ev' w1 = (Returns (mkWriteResult true 0), w1).
Proof.
  intros Hget Hhas.
  assert (Hcall : ∀ e w0, getUpload id w0 = (Some up, w1) →
            writeChunkAt id offset e w0 = (Returns (mkWriteResult true 0), w1)).
  { intros e w0 H0. unfold writeChunkAt, writeChunkAt_begin. by rewrite H0, Hhas. }
  pose proof (getUpload_Some _ _ _ _ Hget) as (Hu & _ & _ & _ & _ & _ & _ & Hm & Hd & _).
  split_and!; try done.
  - by apply Hcall.
  - intros Hc. apply getUpload_cached in Hc. congruence.
  - intros ev'. apply Hcall. by eapply getUpload_again.
Qed.

Lemma writeChunkAt_already_received_witness :
  getUpload "u1" w_chunk2 = (Some up_chunk2, w_chunk2)
  ∧ BitSet.has (floor_div 130 (chunkSize up_chunk2)) (receivedBitset up_chunk2) = true
  ∧ writeChunkAt "u1" 130 (EvFinish [x02; x03]) w_chunk2
    = (Returns (mkWriteResult true 0), w_chunk2).
Proof.
  assert (H1 : getUpload "u1" w_chunk2 = (Some up_chunk2, w_chunk2))
    by (vm_compute; reflexivity).
  assert (H2 : BitSet.has (floor_div 130 (chunkSize up_chunk2))
                          (receivedBitset up_chunk2) = true)
    by (vm_compute; reflexivity).
  split; [exact H1|]. split; [exact H2|].
  exact (proj1 (writeChunkAt_already_received
                  "u1" 130 (EvFinish [x02; x03]) w_chunk2 up_chunk2 w_chunk2 H1 H2)).
Defined.

(* ===================================================================== *)
(** ** Unknown uploads                                                    *)
(* ===================================================================== *)

(** C9.  For an id that is neither cached nor present in the snapshot
    store, [getMissingChunks] and [getReceivedChunksArray] both return the
    empty list (they do not throw), and leave the state alone. *)
Theorem unknown_upload_empty_lists id w :
  uploads w !! id = None →
  metaFiles w !! id = None →
  getMissingChunks id w = (Returns [], w)
  ∧ getReceivedChunksArray id w = ([], w).
Proof.
  intros Hu Hm. unfold getMissingChunks, getReceivedChunksArray.
  by rewrite (getUpload_absent _ _ Hu Hm).
Qed.

Lemma unknown_upload_empty_lists_witness :
  uploads w_chunk2 !! "nobody" = None
  ∧ metaFiles w_chunk2 !! "nobody" = None
  ∧ getMissingChunks "nobody" w_chunk2 = (Returns [], w_chunk2)
  ∧ getReceivedChunksArray "nobody" w_chunk2 = ([], w_chunk2).
Proof.
  assert (H1 : uploads w_chunk2 !! "nobody" = None) by (vm_compute; reflexivity).
  assert (H2 : metaFiles w_chunk2 !! "nobody" = None) by (vm_compute; reflexivity).
  split; [exact H1|]. split; [exact H2|].
  exact (unknown_upload_empty_lists "nobody" w_chunk2 H1 H2).
Defined.

(* ===================================================================== *)
(** ** The pending-write set                                              *)
(* ===================================================================== *)

Lemma _scheduleFlush_fields id w :
  uploads (_scheduleFlush id w) = uploads w
  ∧ locks (_scheduleFlush id w) = locks w
  ∧ dirty (_scheduleFlush id w) = JSSet.add id (dirty w)
  ∧ _debounceTimer (_scheduleFlush id w) = true
  ∧ metaFiles (_scheduleFlush id w) = metaFiles w
  ∧ dataFiles (_scheduleFlush id w) = dataFiles w.
Proof.
  unfold _scheduleFlush. destruct w as [us ls d t mf df]; simpl.
  by destruct t.
Qed.

Lemma writeChunkAt_begin_pending id offset w p w1 :
  writeChunkAt_begin id offset w = (inr p, w1) →
  ∃ up w0 lockSet,
    getUpload id w = (Some up, w0)
    ∧ locks w0 !! id = Some lockSet
    ∧ (p_chunkIndex p ∉ lockSet)
    ∧ BitSet.has (p_chunkIndex p) (receivedBitset up) = false
    ∧ p = mkPending id up offset (floor_div offset (chunkSize up))
    ∧ w1 = set_locks (<[id := JSSet.add (p_chunkIndex p) lockSet]>) w0.
Proof.
  unfold writeChunkAt_begin.
  destruct (getUpload id w) as [[up|] w0] eqn:Hget; [|done].
  destruct (BitSet.has _ _) eqn:Hhas; [done|].
  destruct (locks w0 !! id) as [lockSet|] eqn:Hl; [|done].
  destruct (JSSet.has _ lockSet) eqn:Hin; [done|].
  intros [= <- <-]. exists up, w0, lockSet. simpl.
  split_and!; try done. by apply has_false.
Qed.

(** The lock table after the promise of [doWrite] has settled. *)
Lemma doWrite_locks p ev w :
  locks (doWrite p ev w).2
  = match (doWrite p ev w).1 with
    | inl _ => alter (JSSet.delete (p_chunkIndex p)) (p_id p) (locks w)
    | inr _ => locks w
    end.
Proof.
  unfold doWrite. destruct (p_offset p <? 0); [done|].
  destruct (dataFiles w !! _); [|done].
  destruct ev; simpl; [|done].
  destruct w as [us ls d t mf df]; simpl. unfold _scheduleFlush; simpl.
  by destruct t.
Qed.

Lemma writeChunkAt_settle_locks p ev w :
  locks (writeChunkAt_settle p ev w).2
  = alter (λ lockSet,
             if JSSet.has (p_chunkIndex p) lockSet
             then JSSet.delete (p_chunkIndex p) lockSet
             else lockSet) (p_id p) (locks (doWrite p ev w).2).
Proof.
  unfold writeChunkAt_settle.
  destruct (doWrite p ev w) as [[r|c] w1]; simpl; [done|].
  by destruct (isBadFd c).
Qed.

(** A write that took its lock in a state and settles in the state that
    its own lock left: the lock table is again what it was. *)
Lemma settle_locks_restored p ev w0 lockSet :
  locks w0 !! p_id p = Some lockSet →
  p_chunkIndex p ∉ lockSet →
  locks (writeChunkAt_settle p ev
           (set_locks <[p_id p := JSSet.add (p_chunkIndex p) lockSet]> w0)).2
  = locks w0.
Proof.
  intros Hl Hnin. rewrite writeChunkAt_settle_locks, doWrite_locks.
  apply map_eq. intros id'.
  destruct (decide (id' = p_id p)) as [->|Hne].
  - rewrite lookup_alter_eq.
    destruct ((doWrite p ev _).1).
    + rewrite lookup_alter_eq. simpl. rewrite lookup_insert_eq. simpl.
      rewrite delete_add_absent by done.
      apply has_false in Hnin. by rewrite Hnin, Hl.
    + simpl. rewrite lookup_insert_eq. simpl.
      by rewrite has_add_same, delete_add_absent, Hl.
  - rewrite lookup_alter_ne by done.
    destruct ((doWrite p ev _).1).
    + rewrite lookup_alter_ne by done. simpl. by rewrite lookup_insert_ne.
    + simpl. by rewrite lookup_insert_ne.
Qed.

(** The lock set of every upload after a chunk write has settled, in
    whatever state the settlement finds the process. *)
Lemma writeChunkAt_settle_lock_sets p ev w id' :
  locks (writeChunkAt_settle p ev w).2 !! id'
  = if decide (id' = p_id p)
    then JSSet.delete (p_chunkIndex p) <$> locks w !! id'
    else locks w !! id'.
Proof.
  rewrite writeChunkAt_settle_locks, doWrite_locks.
  destruct (decide (id' = p_id p)) as [->|Hne].
  - rewrite lookup_alter_eq. destruct ((doWrite p ev w).1).
    + rewrite lookup_alter_eq.
      destruct (locks w !! p_id p) as [lockSet|]; simpl; [|done].
      by rewrite has_delete_same.
    + destruct (locks w !! p_id p) as [lockSet|]; simpl; [|done].
      destruct (JSSet.has _ lockSet) eqn:Hh; [done|].
      apply has_false in Hh. by rewrite delete_absent.
  - rewrite lookup_alter_ne by done.
    destruct ((doWrite p ev w).1); [by rewrite lookup_alter_ne|done].
Qed.

(* ===================================================================== *)
(** ** What the operations do to the registry                             *)
(* ===================================================================== *)

Lemma descr_le_refl up : descr_le up up.
Proof. by unfold descr_le. Qed.

Lemma descr_le_trans up1 up2 up3 :
  descr_le up1 up2 → descr_le up2 up3 → descr_le up1 up3.
Proof.
  intros (A1&A2&A3&A4&A5&A6) (B1&B2&B3&B4&B5&B6).
  unfold descr_le. split_and!; try congruence. eauto.
Qed.

Lemma descr_le_ok up up' : descr_le up up' → descriptor_ok up → descriptor_ok up'.
Proof.
  intros (Ht&Hc&_&Hl&Hb&_) [Hn [Hs1 Hs2]].
  unfold descriptor_ok, sized. rewrite Ht, Hc, Hl, Hb. done.
Qed.

Lemma descr_le_mark_received i up : descr_le up (mark_received i up).
Proof.
  unfold descr_le; simpl. split_and!; try done.
  - apply set_length.
  - apply set_bytes_length.
  - intros j. apply has_set_mono.
Qed.

Lemma descr_le_mark_completed up : descr_le up (mark_completed up).
Proof. by unfold descr_le. Qed.

Lemma evolves_refl w : evolves w w.
Proof.
  split; [|done]. intros id up H. exists up. split; [done|apply descr_le_refl].
Qed.

Lemma evolves_trans w1 w2 w3 : evolves w1 w2 → evolves w2 w3 → evolves w1 w3.
Proof.
  intros [P1 R1] [P2 R2]. split; [|by auto].
  intros id up H. destruct (P1 _ _ H) as (up2 & H2 & L2).
  destruct (P2 _ _ H2) as (up3 & H3 & L3).
  exists up3. split; [done|]. by eapply descr_le_trans.
Qed.

(** Transitions that leave the cache alone and drop no lock set. *)
Lemma evolves_same_uploads w w' :
  uploads w' = uploads w →
  (∀ id, is_Some (locks w !! id) → is_Some (locks w' !! id)) →
  evolves w w'.
Proof.
  intros Hu Hl. split.
  - intros id up H. exists up. rewrite Hu. split; [done|apply descr_le_refl].
  - intros Hok id up H. rewrite Hu in H. destruct (Hok _ _ H) as [? ?]. auto.
Qed.

(** Transitions that update one cached descriptor in place. *)
Lemma evolves_alter f id w w' :
  (∀ up, descr_le up (f up)) →
  uploads w' = alter f id (uploads w) →
  (∀ id', is_Some (locks w !! id') → is_Some (locks w' !! id')) →
  evolves w w'.
Proof.
  intros Hf Hu Hl. split.
  - intros id' up H. rewrite Hu.
    destruct (decide (id' = id)) as [->|Hne].
    + exists (f up). by rewrite lookup_alter_eq, H.
    + exists up. rewrite lookup_alter_ne by done. split; [done|apply descr_le_refl].
  - intros Hok id' up' H. rewrite Hu in H.
    destruct (decide (id' = id)) as [->|Hne].
    + rewrite lookup_alter_eq in H.
      destruct (uploads w !! id) as [up|] eqn:E; [|done].
      injection H as <-. destruct (Hok _ _ E) as [? ?].
      split; [by eapply descr_le_ok|auto].
    + rewrite lookup_alter_ne in H by done.
      destruct (Hok _ _ H) as [? ?]. auto.
Qed.

(** Transitions that register a descriptor under an unused id. *)
Lemma evolves_insert id up w w' :
  uploads w !! id = None →
  descriptor_ok up →
  uploads w' = <[id := up]> (uploads w) →
  is_Some (locks w' !! id) →
  (∀ id', is_Some (locks w !! id') → is_Some (locks w' !! id')) →
  evolves w w'.
Proof.
  intros Hnone Hup Hu Hlid Hl. split.
  - intros id' up0 H. exists up0. rewrite Hu.
    rewrite lookup_insert_ne by congruence. split; [done|apply descr_le_refl].
  - intros Hok id' up' H. rewrite Hu in H.
    destruct (decide (id' = id)) as [->|Hne].
    + rewrite lookup_insert_eq in H. by injection H as <-.
    + rewrite lookup_insert_ne in H by done.
      destruct (Hok _ _ H) as [? ?]. auto.
Qed.

Lemma getUpload_evolves id w : evolves w (getUpload id w).2.
Proof.
  destruct (getUpload id w) as [[up|] w1] eqn:Hget; simpl.
  - pose proof (getUpload_Some _ _ _ _ Hget)
      as (Hu & Hou & Hol & Hkeep & Hnew & _ & _ & _ & _ & [[Hc ->]|[Hnone Hok]]).
    { apply evolves_refl. }
    apply (evolves_insert id up); try done.
    + apply map_eq. intros id'. destruct (decide (id' = id)) as [->|Hne].
      * by rewrite lookup_insert_eq.
      * rewrite lookup_insert_ne by done. by apply Hou.
    + by apply Hnew.
    + intros id' Hs. destruct (decide (id' = id)) as [->|Hne].
      * by apply Hnew.
      * by rewrite Hol.
  - apply getUpload_None in Hget as [-> _]. apply evolves_refl.
Qed.

Lemma getReceivedChunksArray_world id w :
  (getReceivedChunksArray id w).2 = (getUpload id w).2.
Proof. unfold getReceivedChunksArray. by destruct (getUpload id w) as [[?|] ?]. Qed.

Lemma getMissingChunks_world id w :
  (getMissingChunks id w).2 = (getUpload id w).2.
Proof.
  unfold getMissingChunks. destruct (getUpload id w) as [[up|] w1]; [|done].
  by destruct (ceil_div _ _).
Qed.

Lemma getStatus_world id w : (getStatus id w).2 = (getUpload id w).2.
Proof.
  unfold getStatus. destruct (getUpload id w) as [[up|] w1] eqn:Hget; [|done].
  pose proof (getReceivedChunksArray_world id w1) as Hw.
  rewrite (getUpload_again _ _ _ _ Hget) in Hw.
  by destruct (getReceivedChunksArray id w1).
Qed.

Lemma writeChunkAt_begin_evolves id offset w :
  evolves w (writeChunkAt_begin id offset w).2.
Proof.
  unfold writeChunkAt_begin.
  pose proof (getUpload_evolves id w) as He.
  destruct (getUpload id w) as [[up|] w1]; simpl in *; [|done].
  destruct (BitSet.has _ _); [done|].
  destruct (locks w1 !! id) as [lockSet|] eqn:Hl; [|done].
  destruct (JSSet.has _ lockSet); [done|]. simpl.
  eapply evolves_trans; [exact He|].
  apply evolves_same_uploads; [done|].
  intros id' Hs. simpl. destruct (decide (id' = id)) as [->|Hne].
  - by rewrite lookup_insert_eq.
  - by rewrite lookup_insert_ne.
Qed.

Lemma is_Some_alter {A} (f : A → A) (m : gmap string A) i j :
  is_Some (m !! j) → is_Some (alter f i m !! j).
Proof.
  intros Hs. destruct (decide (j = i)) as [->|Hne].
  - rewrite lookup_alter_eq. by apply fmap_is_Some.
  - by rewrite lookup_alter_ne.
Qed.

Lemma doWrite_evolves p ev w : evolves w (doWrite p ev w).2.
Proof.
  unfold doWrite. destruct (p_offset p <? 0); [apply evolves_refl|].
  destruct (dataFiles w !! _); [|apply evolves_refl].
  destruct ev; simpl.
  - apply (evolves_alter (mark_received (p_chunkIndex p)) (p_id p)).
    + apply descr_le_mark_received.
    + simpl. by rewrite (proj1 (_scheduleFlush_fields _ _)).
    + intros id' Hs. simpl.
      rewrite (proj1 (proj2 (_scheduleFlush_fields _ _))). simpl.
      by apply is_Some_alter.
  - by apply evolves_same_uploads.
Qed.

Lemma release_evolves p w : evolves w (release p w).
Proof.
  apply evolves_same_uploads; [done|].
  intros id' Hs. simpl. by apply is_Some_alter.
Qed.

Lemma writeChunkAt_settle_evolves p ev w :
  evolves w (writeChunkAt_settle p ev w).2.
Proof.
  unfold writeChunkAt_settle.
  pose proof (doWrite_evolves p ev w) as He.
  destruct (doWrite p ev w) as [[r|c] w1]; simpl in *.
  - eapply evolves_trans; [exact He|apply release_evolves].
  - destruct (isBadFd c); simpl;
      (eapply evolves_trans; [exact He|apply release_evolves]).
Qed.

Lemma markCompleted_evolves id w : evolves w (markCompleted id w).2.
Proof.
  unfold markCompleted.
  pose proof (getUpload_evolves id w) as He.
  destruct (getUpload id w) as [[up|] w1]; simpl in *; [|done].
  eapply evolves_trans; [exact He|].
  apply (evolves_alter mark_completed id).
  - apply descr_le_mark_completed.
  - by rewrite (proj1 (_scheduleFlush_fields _ _)).
  - intros id' Hs. by rewrite (proj1 (proj2 (_scheduleFlush_fields _ _))).
Qed.

Lemma completeUpload_evolves id w : evolves w (completeUpload id w).2.
Proof.
  unfold completeUpload.
  pose proof (getUpload_evolves id w) as He.
  destruct (getUpload id w) as [[up|] w1]; simpl in *; [|done].
  pose proof (getUpload_evolves id w1) as He1.
  rewrite <- getMissingChunks_world in He1.
  destruct (getMissingChunks id w1) as [[missing| |] w2]; simpl in *;
    try (by eapply evolves_trans).
  destruct (0 <? _); simpl; [by eapply evolves_trans|].
  eapply evolves_trans; [exact He|].
  eapply evolves_trans; [exact He1|apply markCompleted_evolves].
Qed.

(** The flush loop touches nothing but the snapshot files. *)
Lemma flush_loop_fields (io : string → WriteFileResult) ids w :
  let w' := foldl (λ acc i,
                     match uploads acc !! i with
                     | None => acc
                     | Some up => (writeFile (io i) i (snapshot up) acc).2
                     end) w ids in
  uploads w' = uploads w ∧ locks w' = locks w ∧ dirty w' = dirty w
  ∧ _debounceTimer w' = _debounceTimer w ∧ dataFiles w' = dataFiles w.
Proof.
  revert w. induction ids as [|i ids IH]; intros w; simpl; [done|].
  destruct (IH (match uploads w !! i with
                | None => w
                | Some up => (writeFile (io i) i (snapshot up) w).2
                end)) as (H1 & H2 & H3 & H4 & H5).
  rewrite H1, H2, H3, H4, H5.
  destruct (uploads w !! i); [|done].
  by destruct (io i).
Qed.

Lemma _flushDirty_fields io w :
  uploads (_flushDirty io w) = uploads w
  ∧ locks (_flushDirty io w) = locks w
  ∧ dirty (_flushDirty io w) = []
  ∧ _debounceTimer (_flushDirty io w) = false
  ∧ dataFiles (_flushDirty io w) = dataFiles w.
Proof.
  unfold _flushDirty.
  destruct (flush_loop_fields io (dirty w) (set_timer false (set_dirty (λ _, []) w)))
    as (H1 & H2 & H3 & H4 & H5).
  by rewrite H1, H2, H3, H4, H5.
Qed.

Lemma _flushDirty_evolves io w : evolves w (_flushDirty io w).
Proof.
  destruct (_flushDirty_fields io w) as (H1 & H2 & _).
  apply evolves_same_uploads; [done|]. by rewrite H2.
Qed.

Lemma flushAllMetadata_evolves io w : evolves w (flushAllMetadata io w).
Proof.
  unfold flushAllMetadata.
  eapply evolves_trans; [|apply _flushDirty_evolves].
  destruct (_debounceTimer w); [|apply evolves_refl].
  by apply evolves_same_uploads.
Qed.

(* ===================================================================== *)
(** ** createUpload                                                       *)
(* ===================================================================== *)

Section createUpload_facts.
Variable basename : string → string.

Lemma createUpload_Returns uuid now io fname total cs w id w' :
  createUpload basename uuid now io fname total cs w = (Returns id, w') →
  id = uuid
  ∧ ∃ bs,
      BitSet.new (max1 (ceil_div total (default (64 * 1024 * 1024) cs))) = Some bs
      ∧ uploads w' = <[uuid := new_upload basename uuid now fname total cs bs]> (uploads w)
      ∧ locks w' = <[uuid := []]> (locks w)
      ∧ dirty w' = JSSet.add uuid (dirty w)
      ∧ _debounceTimer w' = true
      ∧ metaFiles w' = <[uuid := Json (new_meta basename uuid now fname total cs)]> (metaFiles w)
      ∧ dataFiles w' = <[_filePath uuid (basename fname) := replicate (Z.to_nat total) x00]>
                         (dataFiles w).
Proof.
  unfold createUpload.
  destruct (BitSet.new _) as [bs|] eqn:Hnew; [|done].
  destruct io as [[|c|c] [c1|] [c2|] [c3|]]; simpl; try done.
  intros [= <- <-]. split; [done|]. exists bs. split; [done|].
  destruct w as [us ls d t mf df]; unfold _scheduleFlush; simpl.
  destruct t; simpl; by rewrite insert_insert_eq.
Qed.

(** A failed [createUpload] registers nothing in memory; on disk it
    leaves nothing, or a torn snapshot, or the full initial snapshot
    (when the failure came after the snapshot was written). *)
Lemma createUpload_Throws uuid now io fname total cs w e w' :
  createUpload basename uuid now io fname total cs w = (Throws e, w') →
  uploads w' = uploads w ∧ locks w' = locks w ∧ dirty w' = dirty w
  ∧ _debounceTimer w' = _debounceTimer w
  ∧ ((w' = w ∧ (e = RangeError ∨ ∃ c, e = SysError c ∧ io_writeMeta io = WfFailClean c))
     ∨ (∃ c, e = SysError c ∧ io_writeMeta io = WfFailTorn c
             ∧ metaFiles w' = <[uuid := Garbage]> (metaFiles w)
             ∧ dataFiles w' = dataFiles w)
     ∨ (∃ c bs, e = SysError c ∧ io_writeMeta io = WfOk
             ∧ BitSet.new (max1 (ceil_div total (default (64 * 1024 * 1024) cs))) = Some bs
             ∧ metaFiles w'
               = <[uuid := Json (new_meta basename uuid now fname total cs)]> (metaFiles w))).
Proof.
  unfold createUpload.
  destruct (BitSet.new _) as [bs|] eqn:Hnew.
  2:{ intros [= <- <-]. split_and!; try done. left. split; [done|by left]. }
  destruct w as [us ls d t mf df].
  destruct io as [[|c|c] [c1|] [c2|] [c3|]]; simpl; try done;
    intros [= <- <-]; simpl; split_and!; try done;
    try (left; split; [done|]; right; by eexists);
    try (right; left; by eexists);
    try (right; right; by do 2 eexists).
Qed.

Lemma new_upload_ok uuid now fname total cs bs :
  BitSet.new (max1 (ceil_div total (default (64 * 1024 * 1024) cs))) = Some bs →
  descriptor_ok (new_upload basename uuid now fname total cs bs).
Proof.
  intros Hnew. apply new_spec in Hnew as (Hl & Hs & _). by split.
Qed.

Lemma createUpload_registry_ok uuid now io fname total cs w :
  registry_ok w →
  registry_ok (createUpload basename uuid now io fname total cs w).2.
Proof.
  intros Hok.
  destruct (createUpload basename uuid now io fname total cs w) as [[id|e|] w'] eqn:Hc;
    simpl.
  - apply createUpload_Returns in Hc as (-> & bs & Hnew & Hu & Hl & _).
    intros id' up' H. rewrite Hu in H. rewrite Hl.
    destruct (decide (id' = uuid)) as [->|Hne].
    + rewrite lookup_insert_eq in H. injection H as <-.
      rewrite lookup_insert_eq. split; [by apply new_upload_ok|done].
    + rewrite lookup_insert_ne in H by done. rewrite lookup_insert_ne by done.
      by apply Hok.
  - apply createUpload_Throws in Hc as (Hu & Hl & _).
    intros id' up' H. rewrite Hu in H. rewrite Hl. by apply Hok.
  - exfalso. revert Hc. unfold createUpload.
    destruct (BitSet.new _); [|done].
    by destruct io as [[|c|c] [c1|] [c2|] [c3|]].
Qed.

Lemma createUpload_persists uuid now io fname total cs w :
  uploads w !! uuid = None →
  persists w (createUpload basename uuid now io fname total cs w).2.
Proof.
  intros Hfresh id up H.
  destruct (createUpload basename uuid now io fname total cs w) as [[id'|e|] w'] eqn:Hc;
    simpl.
  - apply createUpload_Returns in Hc as (-> & bs & Hnew & Hu & _).
    exists up. rewrite Hu, lookup_insert_ne by congruence.
    split; [done|apply descr_le_refl].
  - apply createUpload_Throws in Hc as (Hu & _).
    exists up. rewrite Hu. split; [done|apply descr_le_refl].
  - exfalso. revert Hc. unfold createUpload.
    destruct (BitSet.new _); [|done].
    by destruct io as [[|c|c] [c1|] [c2|] [c3|]].
Qed.
End createUpload_facts.

(* ===================================================================== *)
(** ** abortUpload                                                        *)
(* ===================================================================== *)

Lemma unlink_data_fields fault p w :
  let w' := (unlink_data fault p w).2 in
  uploads w' = uploads w ∧ locks w' = locks w ∧ dirty w' = dirty w
  ∧ _debounceTimer w' = _debounceTimer w ∧ metaFiles w' = metaFiles w
  ∧ (fault = None → dataFiles w' !! p = None).
Proof.
  unfold unlink_data. destruct fault as [c|]; simpl; [done|].
  destruct (dataFiles w !! p) eqn:E; simpl; split_and!; try done.
  intros _. apply lookup_delete_eq.
Qed.

Lemma unlink_meta_fields fault id w :
  let w' := (unlink_meta fault id w).2 in
  uploads w' = uploads w ∧ locks w' = locks w ∧ dirty w' = dirty w
  ∧ _debounceTimer w' = _debounceTimer w ∧ dataFiles w' = dataFiles w
  ∧ (fault = None → metaFiles w' !! id = None)
  ∧ (∀ c, fault = Some c → metaFiles w' = metaFiles w).
Proof.
  unfold unlink_meta. destruct fault as [c|]; simpl; [done|].
  destruct (metaFiles w !! id) eqn:E; simpl; split_and!; try done.
  intros _. apply lookup_delete_eq.
Qed.

Lemma abortUpload_resolved io id w up w1 :
  getUpload id w = (Some up, w1) →
  let w' := (abortUpload io id w).2 in
  (abortUpload io id w).1 = Returns ()
  ∧ uploads w' = delete id (uploads w1)
  ∧ locks w' = delete id (locks w1)
  ∧ dirty w' = JSSet.delete id (dirty w)
  ∧ (io_unlinkFile io = None → dataFiles w' !! filePath up = None)
  ∧ (io_unlinkMeta io = None → metaFiles w' !! id = None)
  ∧ (∀ c, io_unlinkMeta io = Some c → metaFiles w' = metaFiles w).
Proof.
  intros Hget. unfold abortUpload. rewrite Hget. simpl.
  pose proof (getUpload_Some _ _ _ _ Hget) as (_ & _ & _ & _ & _ & Hd & _ & Hm & _).
  pose proof (unlink_data_fields (io_unlinkFile io) (filePath up) w1)
    as (D1 & D2 & D3 & D4 & D5 & D6).
  pose proof (unlink_meta_fields (io_unlinkMeta io) id
                (unlink_data (io_unlinkFile io) (filePath up) w1).2)
    as (M1 & M2 & M3 & M4 & M5 & M6 & M7).
  simpl in *. split_and!; try done.
  - by rewrite M1, D1.
  - by rewrite M2, D2.
  - by rewrite M3, D3, Hd.
  - intros Hf. rewrite M5. by apply D6.
  - intros c Hc. by rewrite (M7 c Hc), D5.
Qed.

Lemma abortUpload_unresolved io id w :
  (getUpload id w).1 = None → abortUpload io id w = (Returns (), w).
Proof.
  unfold abortUpload. destruct (getUpload id w) as [[up|] w1] eqn:Hget; [done|].
  intros _. by apply getUpload_None in Hget as [-> _].
Qed.

Lemma abortUpload_registry_ok io id w :
  registry_ok w → registry_ok (abortUpload io id w).2.
Proof.
  intros Hok. destruct (getUpload id w) as [[up|] w1] eqn:Hget.
  - pose proof (abortUpload_resolved io id w up w1 Hget) as (_ & Hu & Hl & _).
    pose proof (getUpload_evolves id w) as [_ Hok1]. rewrite Hget in Hok1.
    specialize (Hok1 Hok). simpl in *.
    intros id' up' H. rewrite Hu in H. rewrite Hl.
    destruct (decide (id' = id)) as [->|Hne].
    + by rewrite lookup_delete_eq in H.
    + rewrite lookup_delete_ne in H by done. rewrite lookup_delete_ne by done.
      by apply Hok1.
  - rewrite abortUpload_unresolved; [done|]. by rewrite Hget.
Qed.

(* ===================================================================== *)
(** ** Invariants of the transition system                                *)
(* ===================================================================== *)

Section Step_facts.
Variable basename : string → string.

Lemma step_persists o w :
  is_abort o = false → fresh_uuid o w → persists w (step basename o w).
Proof.
  intros Hna Hfresh. destruct o; simpl in *; try done.
  - by apply createUpload_persists.
  - apply getUpload_evolves.
  - rewrite getReceivedChunksArray_world. apply getUpload_evolves.
  - apply writeChunkAt_begin_evolves.
  - apply writeChunkAt_settle_evolves.
  - rewrite getMissingChunks_world. apply getUpload_evolves.
  - apply markCompleted_evolves.
  - apply _flushDirty_evolves.
  - apply flushAllMetadata_evolves.
  - rewrite getStatus_world. apply getUpload_evolves.
  - apply completeUpload_evolves.
Qed.

(** Every operation keeps the registry invariant. *)
Lemma step_registry_ok o w : registry_ok w → registry_ok (step basename o w).
Proof.
  intros Hok. destruct o; simpl.
  - by apply createUpload_registry_ok.
  - by apply getUpload_evolves.
  - rewrite getReceivedChunksArray_world. by apply getUpload_evolves.
  - by apply writeChunkAt_begin_evolves.
  - by apply writeChunkAt_settle_evolves.
  - rewrite getMissingChunks_world. by apply getUpload_evolves.
  - by apply markCompleted_evolves.
  - by apply abortUpload_registry_ok.
  - by apply _flushDirty_evolves.
  - by apply flushAllMetadata_evolves.
  - rewrite getStatus_world. by apply getUpload_evolves.
  - by apply completeUpload_evolves.
Qed.

Lemma run_registry_ok ops w : registry_ok w → registry_ok (run basename ops w).
Proof.
  revert w. induction ops as [|o ops IH]; intros w Hok; simpl; [done|].
  apply IH. by apply step_registry_ok.
Qed.

Lemma boot_registry_ok metas datas : registry_ok (boot metas datas).
Proof. intros id up H. simpl in H. by rewrite lookup_empty in H. Qed.
End Step_facts.

(* ===================================================================== *)
(** ** Release of the pending index                                       *)
(* ===================================================================== *)

Section Release.
Variable basename : string → string.

Lemma getUpload_lock_set id id' w :
  is_Some (locks w !! id) → is_Some (locks (getUpload id' w).2 !! id).
Proof.
  intros Hs. destruct (getUpload id' w) as [[up|] w1] eqn:Hget; simpl.
  - pose proof (getUpload_Some _ _ _ _ Hget) as (_ & _ & Hl & Hk & _).
    destruct (decide (id = id')) as [->|Hne].
    + destruct Hs as [s Hs]. exists s. by apply Hk.
    + by rewrite Hl.
  - by apply getUpload_None in Hget as [-> _].
Qed.

Lemma createUpload_lock_set uuid now io fname total cs w id :
  id ≠ uuid →
  locks (createUpload basename uuid now io fname total cs w).2 !! id = locks w !! id.
Proof.
  intros Hne. unfold createUpload.
  destruct (BitSet.new _) as [bs|]; [|done].
  destruct w as [us ls d t mf df].
  destruct io as [[|c|c] [c1|] [c2|] [c3|]]; simpl; try done.
  unfold _scheduleFlush; simpl. destruct t; simpl; by rewrite lookup_insert_ne.
Qed.

Lemma markCompleted_lock_set id id' w :
  is_Some (locks w !! id) → is_Some (locks (markCompleted id' w).2 !! id).
Proof.
  intros Hs. unfold markCompleted.
  pose proof (getUpload_lock_set id id' w Hs) as Hg.
  destruct (getUpload id' w) as [[up|] w1]; simpl in *; [|done].
  by rewrite (proj1 (proj2 (_scheduleFlush_fields _ _))).
Qed.

(** Every operation other than an abort of the upload, or a
    [createUpload] under its id, keeps the lock set of the upload
    registered. *)
Lemma step_lock_set id o w :
  keeps_lock_set id o = true →
  is_Some (locks w !! id) → is_Some (locks (step basename o w) !! id).
Proof.
  intros Hk Hs. destruct o; simpl in *.
  - rewrite createUpload_lock_set; [done|].
    intros ->. by rewrite String.eqb_refl in Hk.
  - by apply getUpload_lock_set.
  - rewrite getReceivedChunksArray_world. by apply getUpload_lock_set.
  - unfold writeChunkAt_begin.
    pose proof (getUpload_lock_set id id0 w Hs) as Hg.
    destruct (getUpload id0 w) as [[up|] w1]; simpl in *; [|done].
    destruct (BitSet.has _ _); [done|].
    destruct (locks w1 !! id0) as [lockSet|]; [|done].
    destruct (JSSet.has _ lockSet); [done|]. simpl.
    destruct (decide (id = id0)) as [->|Hne].
    + by rewrite lookup_insert_eq.
    + by rewrite lookup_insert_ne.
  - rewrite writeChunkAt_settle_lock_sets.
    destruct (decide (id = p_id p)); [by apply fmap_is_Some|done].
  - rewrite getMissingChunks_world. by apply getUpload_lock_set.
  - by apply markCompleted_lock_set.
  - assert (Hne : id ≠ id0).
    { intros ->. by rewrite String.eqb_refl in Hk. }
    pose proof (getUpload_lock_set id id0 w Hs) as Hg.
    destruct (getUpload id0 w) as [[up|] w1] eqn:Hget.
    + pose proof (abortUpload_resolved io id0 w up w1 Hget) as (_ & _ & Hl & _).
      simpl in Hl. rewrite Hl. by rewrite lookup_delete_ne.
    + rewrite abortUpload_unresolved; [done|]. by rewrite Hget.
  - by rewrite (proj1 (proj2 (_flushDirty_fields _ _))).
  - unfold flushAllMetadata.
    rewrite (proj1 (proj2 (_flushDirty_fields _ _))).
    by destruct (_debounceTimer w).
  - rewrite getStatus_world. by apply getUpload_lock_set.
  - unfold completeUpload.
    pose proof (getUpload_lock_set id id0 w Hs) as Hg.
    destruct (getUpload id0 w) as [[up|] w1]; simpl in *; [|done].
    pose proof (getUpload_lock_set id id0 w1 Hg) as Hg1.
    rewrite <- getMissingChunks_world in Hg1.
    destruct (getMissingChunks id0 w1) as [[missing| |] w2]; simpl in *; try done.
    destruct (0 <? _); simpl; [done|]. by apply markCompleted_lock_set.
Qed.

Lemma run_lock_set id ops w :
  forallb (keeps_lock_set id) ops = true →
  is_Some (locks w !! id) → is_Some (locks (run basename ops w) !! id).
Proof.
  revert w. induction ops as [|o ops IH]; intros w Hk Hs; simpl in *; [done|].
  apply andb_true_iff in Hk as [Ho Hk].
  apply IH; [done|]. by apply step_lock_set.
Qed.

(** C3.  A call of [writeChunkAt] that gets past the lock check has put its
    chunk index into the lock set of the upload.  Whatever runs between
    that moment and the settlement of the streams (other chunk writes
    that begin or settle, lookups, flushes, completions, creations and
    aborts of other uploads), and whatever the streams then do (finish,
    fail with a transient code, fail with any other code, miss the file),
    when the call ends its index is out of the lock set: the lock set is
    the one that the settlement found, less this index, the other indices
    and the lock sets of the other uploads being as the settlement found
    them.  When nothing ran in between, the lock table is again what it
    was when the call resolved the upload. *)
Theorem pending_index_released id offset w p w1 ops ev :
  writeChunkAt_begin id offset w = (inr p, w1) →
  forallb (keeps_lock_set id) ops = true →
  let ws := run basename ops w1 in
  let w2 := (writeChunkAt_settle p ev ws).2 in
  locked id (p_chunkIndex p) w1 = true
  ∧ (∃ lockSet, locks ws !! id = Some lockSet
                ∧ locks w2 !! id = Some (JSSet.delete (p_chunkIndex p) lockSet))
  ∧ locked id (p_chunkIndex p) w2 = false
  ∧ (∀ j, j ≠ p_chunkIndex p → locked id j w2 = locked id j ws)
  ∧ (∀ id', id' ≠ id → locks w2 !! id' = locks ws !! id')
  ∧ (ops = [] →
     locks w2 = locks (getUpload id w).2
     ∧ (writeChunkAt id offset ev w).2 = w2).
Proof.
  intros Hb Hops ws w2.
  assert (Hall : (writeChunkAt id offset ev w).2 = (writeChunkAt_settle p ev w1).2)
    by (unfold writeChunkAt; by rewrite Hb).
  apply writeChunkAt_begin_pending in Hb
    as (up & w0 & lockSet0 & Hget & Hl & Hnin & _ & Hp & Hw1).
  assert (Hid : p_id p = id) by (by rewrite Hp).
  assert (Hs1 : is_Some (locks w1 !! id)).
  { rewrite Hw1. simpl. by rewrite lookup_insert_eq. }
  destruct (run_lock_set id ops w1 Hops Hs1) as [lockSet Hls]. fold ws in Hls.
  pose proof (writeChunkAt_settle_lock_sets p ev ws) as Hset.
  fold w2 in Hset. rewrite Hid in Hset.
  assert (Hafter : locks w2 !! id = Some (JSSet.delete (p_chunkIndex p) lockSet)).
  { rewrite Hset, decide_True, Hls by done. done. }
  split_and!.
  - unfold locked. rewrite Hw1. simpl. rewrite lookup_insert_eq. apply has_add_same.
  - by exists lockSet.
  - unfold locked. rewrite Hafter. apply has_delete_same.
  - intros j Hj. unfold locked. rewrite Hafter, Hls. by apply has_delete_ne.
  - intros id' Hne. by rewrite Hset, decide_False.
  - intros ->. unfold w2, ws. simpl. split; [|done].
    rewrite Hw1, Hget. simpl. rewrite <- Hid. apply settle_locks_restored.
    + by rewrite Hid.
    + done.
Qed.

End Release.

Lemma pending_index_released_witness :
  writeChunkAt_begin "u1" 0 w_created = (inr p_begun, w_begun)
  ∧ forallb (keeps_lock_set "u1") ops_between = true
  ∧ locks (run (λ s, s) ops_between w_begun) !! "u1" = Some [Fin 0; Fin 1]
  ∧ locks (writeChunkAt_settle p_begun (EvFinish [x01])
             (run (λ s, s) ops_between w_begun)).2 !! "u1" = Some [Fin 1]
  ∧ locks (writeChunkAt_settle p_begun (EvError EBADF [])
             (run (λ s, s) ops_between w_begun)).2 !! "u1" = Some [Fin 1]
  ∧ locks (writeChunkAt_settle p_begun (EvError ENOSPC [x01])
             (run (λ s, s) ops_between w_begun)).2 !! "u1" = Some [Fin 1].
Proof.
  assert (H1 : writeChunkAt_begin "u1" 0 w_created = (inr p_begun, w_begun))
    by (vm_compute; reflexivity).
  assert (H2 : forallb (keeps_lock_set "u1") ops_between = true) by reflexivity.
  assert (H3 : locks (run (λ s, s) ops_between w_begun) !! "u1" = Some [Fin 0; Fin 1])
    by (vm_compute; reflexivity).
  split; [exact H1|]. split; [exact H2|]. split; [exact H3|].
  split_and!.
  - destruct (pending_index_released (λ s, s) "u1" 0 w_created p_begun w_begun ops_between
                (EvFinish [x01]) H1 H2) as (_ & (lockSet & Hls & Hafter) & _).
    rewrite H3 in Hls. injection Hls as <-. exact Hafter.
  - destruct (pending_index_released (λ s, s) "u1" 0 w_created p_begun w_begun ops_between
                (EvError EBADF []) H1 H2) as (_ & (lockSet & Hls & Hafter) & _).
    rewrite H3 in Hls. injection Hls as <-. exact Hafter.
  - destruct (pending_index_released (λ s, s) "u1" 0 w_created p_begun w_begun ops_between
                (EvError ENOSPC [x01]) H1 H2) as (_ & (lockSet & Hls & Hafter) & _).
    rewrite H3 in Hls. injection Hls as <-. exact Hafter.
Defined.
(* ===================================================================== *)
(** ** Received chunks only grow                                          *)
(* ===================================================================== *)

Lemma descr_le_toArray up up' i :
  descr_le up up' →
  i ∈ BitSet.toArray (receivedBitset up) → i ∈ BitSet.toArray (receivedBitset up').
Proof.
  intros (_&_&_&Hl&_&Hh). rewrite !elem_of_toArray.
  intros (n & Hn & Hi & Hb). exists n. rewrite Hl. auto.
Qed.

(** C10.  For an upload in the registry, every operation other than
    [abortUpload] leaves it in the registry with a bitmap of the same
    length in which every bit that was set is still set, so that the
    list of received chunks only grows.  ([createUpload] is taken with an
    id that [uuidv4] has not produced before.) *)
Theorem received_chunks_only_grow basename o w id up :
  is_abort o = false →
  fresh_uuid o w →
  uploads w !! id = Some up →
  ∃ up', uploads (step basename o w) !! id = Some up'
         ∧ BitSet.length (receivedBitset up') = BitSet.length (receivedBitset up)
         ∧ (∀ j, BitSet.has j (receivedBitset up) = true →
                 BitSet.has j (receivedBitset up') = true)
         ∧ (∀ i, i ∈ BitSet.toArray (receivedBitset up) →
                 i ∈ BitSet.toArray (receivedBitset up')).
Proof.
  intros Hna Hfresh Hup.
  destruct (step_persists basename o w Hna Hfresh id up Hup) as (up' & Hup' & Hle).
  exists up'. split; [done|].
  pose proof Hle as (_&_&_&Hl&_&Hh).
  split_and!; try done. intros i. by apply descr_le_toArray.
Qed.

Lemma received_chunks_only_grow_witness :
  is_abort (OpWriteSettle (mkPending "u1" up_chunk2 0 (Fin 0)) (EvFinish [x01])) = false
  ∧ fresh_uuid (OpWriteSettle (mkPending "u1" up_chunk2 0 (Fin 0)) (EvFinish [x01])) w_chunk2
  ∧ uploads w_chunk2 !! "u1" = Some up_chunk2
  ∧ ∃ up', uploads (step (λ s, s)
                      (OpWriteSettle (mkPending "u1" up_chunk2 0 (Fin 0)) (EvFinish [x01]))
                      w_chunk2) !! "u1" = Some up'
           ∧ BitSet.length (receivedBitset up') = BitSet.length (receivedBitset up_chunk2)
           ∧ (∀ j, BitSet.has j (receivedBitset up_chunk2) = true →
                   BitSet.has j (receivedBitset up') = true)
           ∧ (∀ i, i ∈ BitSet.toArray (receivedBitset up_chunk2) →
                   i ∈ BitSet.toArray (receivedBitset up')).
Proof.
  assert (H : uploads w_chunk2 !! "u1" = Some up_chunk2) by (vm_compute; reflexivity).
  split; [reflexivity|]. split; [exact I|]. split; [exact H|].
  exact (received_chunks_only_grow (λ s, s)
           (OpWriteSettle (mkPending "u1" up_chunk2 0 (Fin 0)) (EvFinish [x01]))
           w_chunk2 "u1" up_chunk2 eq_refl I H).
Defined.

(* ===================================================================== *)
(** ** Flushing and recovery                                              *)
(* ===================================================================== *)

Lemma flush_loop_meta (io : string → WriteFileResult) ids w id up :
  uploads w !! id = Some up →
  io id = WfOk →
  metaFiles (foldl (λ acc i,
                      match uploads acc !! i with
                      | None => acc
                      | Some u => (writeFile (io i) i (snapshot u) acc).2
                      end) w ids) !! id
  = if bool_decide (id ∈ ids) then Some (Json (snapshot up)) else metaFiles w !! id.
Proof.
  intros Hup Hio. revert w Hup. induction ids as [|i ids IH]; intros w Hup; simpl.
  { done. }
  set (w1 := match uploads w !! i with
             | None => w
             | Some u => (writeFile (io i) i (snapshot u) w).2
             end).
  assert (Hu1 : uploads w1 = uploads w).
  { unfold w1. destruct (uploads w !! i); [|done]. by destruct (io i). }
  rewrite IH by (by rewrite Hu1).
  destruct (decide (i = id)) as [->|Hne].
  - assert (metaFiles w1 !! id = Some (Json (snapshot up))) as ->.
    { unfold w1. rewrite Hup, Hio. simpl. apply lookup_insert_eq. }
    rewrite (bool_decide_eq_true_2 (id ∈ id :: ids)) by (by left).
    by destruct (bool_decide _).
  - assert (metaFiles w1 !! id = metaFiles w !! id) as ->.
    { unfold w1. destruct (uploads w !! i); [|done].
      destruct (io i); simpl; try done; by rewrite lookup_insert_ne. }
    apply (f_equal (λ b : bool, if b then _ else _)).
    apply bool_decide_ext. rewrite elem_of_cons.
    split; [by right|]. by intros [?|?].
Qed.

(** A flush in which the write for a dirty, registered id succeeds leaves
    the snapshot of its descriptor on disk. *)
Lemma flushAllMetadata_persists io w id up :
  uploads w !! id = Some up →
  id ∈ dirty w →
  io id = WfOk →
  metaFiles (flushAllMetadata io w) !! id = Some (Json (snapshot up)).
Proof.
  intros Hup Hd Hio. unfold flushAllMetadata, _flushDirty.
  rewrite (flush_loop_meta io _ _ id up); try done.
  - rewrite bool_decide_eq_true_2; [done|]. by destruct (_debounceTimer w).
  - by destruct (_debounceTimer w).
Qed.

Lemma toArray_new len b : BitSet.new len = Some b → BitSet.toArray b = [].
Proof.
  intros Hnew. apply new_spec in Hnew as (_ & _ & Hfresh).
  unfold BitSet.toArray. destruct (BitSet.length b) as [n|]; [|done].
  induction (BitSet.upto n) as [|i l IH]; [done|].
  rewrite filter_cons_False; [done|]. by rewrite Hfresh.
Qed.

(** Cold start: a successful [createUpload] has left on disk the snapshot
    of the descriptor it registered, before any flush. *)
Lemma createUpload_snapshot basename uuid now io fname total cs w uid w' :
  createUpload basename uuid now io fname total cs w = (Returns uid, w') →
  ∃ up, uploads w' !! uid = Some up
        ∧ descriptor_ok up
        ∧ metaFiles w' !! uid = Some (Json (snapshot up)).
Proof.
  intros Hc. apply createUpload_Returns in Hc
    as (-> & bs & Hnew & Hu & _ & _ & _ & Hm & _).
  exists (new_upload basename uuid now fname total cs bs).
  rewrite Hu, Hm, !lookup_insert_eq. split; [done|].
  split; [by apply new_upload_ok|].
  unfold snapshot, new_meta. simpl. by rewrite (toArray_new _ _ Hnew).
Qed.

(** C2.  When the snapshot file of an id holds the snapshot of a
    descriptor (as [createUpload] and the flush write it), a lookup in a
    restarted process, whose cache is empty, rebuilds from that file alone
    a descriptor with the same snapshot, and the status handler reports
    exactly the persisted [receivedChunks].  In any state, an id that is
    neither cached nor has a snapshot file yields not found. *)
Theorem recovery_from_snapshot uid w up :
  metaFiles w !! uid = Some (Json (snapshot up)) →
  descriptor_ok up →
  (∃ up' w1,
     getUpload uid (restart w) = (Some up', w1)
     ∧ snapshot up' = snapshot up
     ∧ descriptor_ok up'
     ∧ (getStatus uid (restart w)).1
       = Status200 (mkStatusBody uid (filename up) (totalSize up) (chunkSize up)
                      (ceil_div (totalSize up) (chunkSize up))
                      (m_receivedChunks (snapshot up))
                      (Z.of_nat (Datatypes.length (m_receivedChunks (snapshot up))))))
  ∧ (∀ id0 w0, uploads w0 !! id0 = None → metaFiles w0 !! id0 = None →
       getUpload id0 w0 = (None, w0) ∧ (getStatus id0 w0).1 = Status404).
Proof.
  intros Hm [Hlen Hsz]. split.
  - destruct (fromArray_toArray _ Hsz) as (b' & Hfrom & Hl' & Harr & _).
    rewrite Hlen in Hfrom.
    assert (Hget : ∃ w1, getUpload uid (restart w)
              = (Some (mkUpload (id up) (filename up) (totalSize up) (chunkSize up)
                                (createdAt up) (filePath up) (completed up) b'), w1)).
    { unfold getUpload, restart, boot. simpl. rewrite lookup_empty, Hm. simpl.
      rewrite Hfrom. by eexists. }
    destruct Hget as (w1 & Hget). do 2 eexists. split; [exact Hget|].
    split; [by unfold snapshot; simpl; rewrite Harr|].
    pose proof (fromArray_spec _ _ _ Hfrom) as [Hl1 Hs1].
    split; [by split|].
    unfold getStatus. rewrite Hget. unfold getReceivedChunksArray.
    rewrite (getUpload_again _ _ _ _ Hget). simpl. by rewrite Harr.
  - intros id0 w0 Hu0 Hm0. unfold getStatus.
    by rewrite (getUpload_absent _ _ Hu0 Hm0).
Qed.

Lemma recovery_from_snapshot_witness :
  metaFiles w_flushed !! "u1" = Some (Json (snapshot up_chunk2))
  ∧ descriptor_ok up_chunk2
  ∧ (getStatus "u1" (restart w_flushed)).1
    = Status200 (mkStatusBody "u1" "f.bin" 150 64 (Fin 3) [2] 1).
Proof.
  assert (H1 : metaFiles w_flushed !! "u1" = Some (Json (snapshot up_chunk2)))
    by (vm_compute; reflexivity).
  assert (H2 : descriptor_ok up_chunk2).
  { split; [reflexivity|]. split; [reflexivity|]. vm_compute. discriminate. }
  split; [exact H1|]. split; [exact H2|].
  destruct (proj1 (recovery_from_snapshot "u1" w_flushed up_chunk2 H1 H2))
    as (up' & w1 & _ & _ & _ & Hs).
  exact Hs.
Defined.

(* ===================================================================== *)
(** ** Missing chunks and completion                                      *)
(* ===================================================================== *)

Lemma descriptor_ok_range up :
  descriptor_ok up →
  match ceil_div (totalSize up) (chunkSize up) with
  | Fin n => BitSet.length (receivedBitset up) = BitSet.LFin (Z.max 1 n)
  | PosInf => False
  | NegInf => BitSet.length (receivedBitset up) = BitSet.LFin 1
  | NaN => BitSet.length (receivedBitset up) = BitSet.LNaN
  end.
Proof.
  intros [Hl _]. destruct (ceil_div _ _); simpl in Hl;
    destruct (BitSet.length _); simpl in Hl; congruence.
Qed.

(** For a descriptor that satisfies the invariant, [getMissingChunks]
    returns the complement of [toArray()] over the chunk range. *)
Lemma getMissingChunks_complement uid w up w1 :
  getUpload uid w = (Some up, w1) →
  descriptor_ok up →
  getMissingChunks uid w = (Returns (complement_of_received up), w1).
Proof.
  intros Hget Hok. unfold getMissingChunks, complement_of_received, chunk_range.
  rewrite Hget. pose proof (descriptor_ok_range up Hok) as Hr.
  destruct (ceil_div _ _) as [n| | |]; try done.
  do 2 f_equal. apply filter_ext_elem. intros i Hi.
  apply elem_of_upto in Hi. rewrite elem_of_toArray. split.
  - intros Hf (m & _ & _ & Ht). congruence.
  - intros Hnot. destruct (BitSet.has _ _) eqn:Hh; [|done].
    exfalso. apply Hnot. exists (Z.max 1 n). split; [done|]. split; [lia|done].
Qed.

(** C5.  For an upload that resolves to a descriptor satisfying the
    invariant, the complete handler answers 400 with exactly the
    complement of the received chunks over [0, totalChunks) when that
    list is not empty, and changes nothing; otherwise it answers 200,
    sets [completed] on the registered descriptor and schedules a
    flush (the id is dirty and the timer armed). *)
Theorem completeUpload_missing_check uid w up w1 :
  getUpload uid w = (Some up, w1) →
  descriptor_ok up →
  (complement_of_received up ≠ [] →
     completeUpload uid w = (Returns (Complete400 (complement_of_received up)), w1))
  ∧ (complement_of_received up = [] →
     ∃ w2, completeUpload uid w = (Returns (Complete200 (filePath up)), w2)
           ∧ uploads w2 !! uid = Some (mark_completed up)
           ∧ completed (mark_completed up) = true
           ∧ uid ∈ dirty w2
           ∧ _debounceTimer w2 = true).
Proof.
  intros Hget Hok.
  pose proof (getUpload_again _ _ _ _ Hget) as Hget1.
  pose proof (getMissingChunks_complement _ _ _ _ Hget1 Hok) as Hmiss.
  unfold completeUpload. rewrite Hget, Hmiss. split.
  - intros Hne. destruct (complement_of_received up); [done|]. done.
  - intros ->. simpl. eexists. split; [done|].
    unfold markCompleted. rewrite Hget1. simpl.
    destruct (_scheduleFlush_fields uid (set_uploads (alter mark_completed uid) w1))
      as (Hu & _ & Hd & Ht & _).
    rewrite Hu, Hd, Ht. simpl. split_and!; try done.
    + rewrite lookup_alter_eq.
      apply getUpload_Some in Hget as (-> & _). done.
    + apply elem_of_add. by left.
Qed.

Lemma completeUpload_missing_check_witness :
  getUpload "u2" w_ten = (Some up_ten, w_ten)
  ∧ descriptor_ok up_ten
  ∧ BitSet.toArray (receivedBitset up_ten) = [0; 1; 2; 5]
  ∧ ceil_div (totalSize up_ten) (chunkSize up_ten) = Fin 10
  ∧ completeUpload "u2" w_ten = (Returns (Complete400 [3; 4; 6; 7; 8; 9]), w_ten).
Proof.
  assert (H1 : getUpload "u2" w_ten = (Some up_ten, w_ten)) by (vm_compute; reflexivity).
  assert (H2 : descriptor_ok up_ten).
  { split; [reflexivity|]. split; [reflexivity|]. vm_compute. discriminate. }
  assert (H3 : complement_of_received up_ten = [3; 4; 6; 7; 8; 9])
    by (vm_compute; reflexivity).
  split; [exact H1|]. split; [exact H2|].
  split; [vm_compute; reflexivity|]. split; [reflexivity|].
  rewrite <- H3.
  apply (proj1 (completeUpload_missing_check "u2" w_ten up_ten w_ten H1 H2)).
  rewrite H3. discriminate.
Defined.

(* ===================================================================== *)
(** ** The number of chunks                                               *)
(* ===================================================================== *)

(** [Math.ceil(totalSize / chunkSize)] for positive sizes. *)
Lemma ceil_div_pos total cs :
  0 < total → 0 < cs →
  ∃ n, ceil_div total cs = Fin n ∧ 1 ≤ n ∧ (n - 1) * cs < total ≤ n * cs.
Proof.
  intros Ht Hc. unfold ceil_div.
  destruct (Z.eqb_spec cs 0); [lia|].
  exists (- (- total / cs)). split; [done|].
  pose proof (Z.div_mod (- total) cs ltac:(lia)) as Hdm.
  pose proof (Z.mod_pos_bound (- total) cs Hc) as Hmb.
  nia.
Qed.

(** C4, as the specification states it, fails on an upload of zero bytes:
    the bitmap has length 1 while [Math.ceil(totalSize / chunkSize)], the
    value that the status handler reports and over which
    [getMissingChunks] loops, is 0. *)
Lemma total_chunks_zero_size :
  uploads w_empty !! "u0" = Some up_empty
  ∧ BitSet.num_of_blen (BitSet.length (receivedBitset up_empty)) = Fin 1
  ∧ ceil_div (totalSize up_empty) (chunkSize up_empty) = Fin 0
  ∧ BitSet.num_of_blen (BitSet.length (receivedBitset up_empty))
    ≠ ceil_div (totalSize up_empty) (chunkSize up_empty)
  ∧ (getStatus "u0" w_empty).1
    = Status200 (mkStatusBody "u0" "empty.bin" 0 64 (Fin 0) [] 0).
Proof.
  split; [vm_compute; reflexivity|].
  split; [reflexivity|]. split; [reflexivity|].
  split; [discriminate|]. vm_compute; reflexivity.
Qed.

(** C4, amended.  In every state reached from a start of the process by
    operations of the manager, whatever the directory held, a registered
    descriptor (created, or rebuilt from a snapshot) has a bitmap of
    length [Math.max(1, Math.ceil(totalSize / chunkSize))].  When
    [totalSize] and [chunkSize] are positive this is
    [Math.ceil(totalSize / chunkSize)] itself, and the bitmap, the status
    handler and [getMissingChunks] all work with that one number. *)
Theorem total_chunks_agreement basename ops metas datas uid up :
  uploads (run basename ops (boot metas datas)) !! uid = Some up →
  BitSet.num_of_blen (BitSet.length (receivedBitset up))
  = max1 (ceil_div (totalSize up) (chunkSize up))
  ∧ (0 < totalSize up → 0 < chunkSize up →
     ∃ n, ceil_div (totalSize up) (chunkSize up) = Fin n
          ∧ (n - 1) * chunkSize up < totalSize up ≤ n * chunkSize up
          ∧ BitSet.length (receivedBitset up) = BitSet.LFin n
          ∧ (∃ body, (getStatus uid (run basename ops (boot metas datas))).1 = Status200 body
                     ∧ s_totalChunks body = Fin n
                     ∧ s_receivedChunks body
                       = filter (λ i, BitSet.has (Fin i) (receivedBitset up) = true)
                                (BitSet.upto n))
          ∧ (getMissingChunks uid (run basename ops (boot metas datas))).1
            = Returns (filter (λ i, BitSet.has (Fin i) (receivedBitset up) = false)
                              (BitSet.upto n))).
Proof.
  intros Hup.
  destruct (run_registry_ok basename ops _ (boot_registry_ok metas datas) _ _ Hup)
    as [[Hlen Hsz] _].
  split; [done|]. intros Ht Hc.
  destruct (ceil_div_pos _ _ Ht Hc) as (n & Hn & Hn1 & Hb).
  exists n. split; [done|]. split; [done|].
  assert (Hl : BitSet.length (receivedBitset up) = BitSet.LFin n).
  { rewrite Hn in Hlen. simpl in Hlen. rewrite Z.max_r in Hlen by lia.
    destruct (BitSet.length _); simpl in Hlen; congruence. }
  split; [done|].
  pose proof (getUpload_cached _ _ _ Hup) as Hget. split.
  - unfold getStatus, getReceivedChunksArray. rewrite Hget, Hget. simpl.
    eexists. split; [done|]. simpl. split; [done|].
    unfold BitSet.toArray. by rewrite Hl.
  - unfold getMissingChunks. by rewrite Hget, Hn.
Qed.

Lemma total_chunks_agreement_witness :
  uploads (run (λ s, s) [OpCreate "u1" 0 io_fine "f.bin" 150 (Some 64)] (boot ∅ ∅)) !! "u1"
    = Some up_created
  ∧ ceil_div 150 64 = Fin 3
  ∧ BitSet.num_of_blen (BitSet.length (receivedBitset up_created)) = Fin 3
  ∧ ∃ n, ceil_div (totalSize up_created) (chunkSize up_created) = Fin n
         ∧ (n - 1) * chunkSize up_created < totalSize up_created ≤ n * chunkSize up_created
         ∧ BitSet.length (receivedBitset up_created) = BitSet.LFin n.
Proof.
  assert (H : uploads (run (λ s, s) [OpCreate "u1" 0 io_fine "f.bin" 150 (Some 64)]
                          (boot ∅ ∅)) !! "u1" = Some up_created)
    by (vm_compute; reflexivity).
  split; [exact H|]. split; [reflexivity|].
  split; [exact (proj1 (total_chunks_agreement (λ s, s) _ _ _ _ _ H))|].
  destruct (proj2 (total_chunks_agreement (λ s, s) _ _ _ _ _ H) eq_refl eq_refl)
    as (n & Hn & Hb & Hl & _).
  exists n. auto.
Defined.

(* ===================================================================== *)
(** ** Failure of createUpload                                            *)
(* ===================================================================== *)





(* ===================================================================== *)
(** ** Indices outside the bitmap                                         *)
(* ===================================================================== *)

(** C7, as the specification states it, fails: [set] and [has] carry no
    bound check, and an index between [length] and the end of the last
    byte sets a bit that [has] reports. *)
Lemma set_beyond_length_visible :
  BitSet.new (Fin 3) = Some b_three
  ∧ ¬ (0 ≤ 5 < 3)
  ∧ BitSet.has (Fin 5) b_three = false
  ∧ BitSet.has (Fin 5) (BitSet.set (Fin 5) b_three) = true.
Proof. split; [reflexivity|]. split; [lia|]. split; reflexivity. Qed.

(** The truncation to 32 bits in [_byteIndex] lets a very large index, and
    the indices Infinity and NaN, reach the first bit. *)
Lemma set_wrapped_index_visible :
  BitSet.has (Fin 0) b_three = false
  ∧ BitSet.has (Fin 0) (BitSet.set (Fin (2 ^ 35)) b_three) = true
  ∧ BitSet.has (Fin 0) (BitSet.set PosInf b_three) = true
  ∧ BitSet.has (Fin 0) (BitSet.set NaN b_three) = true.
Proof. repeat split; reflexivity. Qed.

Lemma ToInt32_small q : - 2 ^ 31 ≤ q < 2 ^ 31 → ToInt32 q = q.
Proof. intros Hq. unfold ToInt32. rewrite Z.mod_small; lia. Qed.

Lemma covers_out_of_range b n i j :
  ¬ (0 ≤ i < n) → - 2 ^ 34 < i < 2 ^ 34 → 0 ≤ j < n →
  covers b (Fin i) (Fin j) = false.
Proof.
  intros Hout Hi Hj. unfold covers, slot.
  destruct (Z.ltb_spec (Z.rem i 8) 0) as [|Hri]; [done|].
  destruct (Z.ltb_spec (Z.rem j 8) 0) as [|Hrj]; [done|].
  apply bool_decide_eq_false_2. intros (Hk & Hr & Hs).
  apply read_is_Some in Hs as [Hs _].
  pose proof (Z.quot_rem' i 8) as Ei. pose proof (Z.quot_rem' j 8) as Ej.
  pose proof (Z.rem_bound_abs i 8 ltac:(lia)) as Bi.
  pose proof (Z.rem_bound_abs j 8 ltac:(lia)) as Bj.
  rewrite (ToInt32_small (Z.quot i 8)) in Hk by lia.
  destruct (Z_lt_dec i 0) as [Hneg|Hpos]; [lia|].
  rewrite (ToInt32_small (Z.quot j 8)) in Hk by lia.
  lia.
Qed.

(** C7, amended.  For an integer index [i] outside [0, length) and below
    2^34 in absolute value, [set(i)] changes neither [toArray()] nor the
    answer of [has(j)] for any [j] in [0, length); and [has] answers false
    for every index on a bitmap on which nothing has been set. *)
Theorem set_out_of_range_unobservable b n i :
  BitSet.length b = BitSet.LFin n →
  ¬ (0 ≤ i < n) →
  - 2 ^ 34 < i < 2 ^ 34 →
  BitSet.toArray (BitSet.set (Fin i) b) = BitSet.toArray b
  ∧ (∀ j, 0 ≤ j < n → BitSet.has (Fin j) (BitSet.set (Fin i) b) = BitSet.has (Fin j) b)
  ∧ (∀ len b0 j, BitSet.new len = Some b0 → BitSet.has j b0 = false).
Proof.
  intros Hl Hout Hi.
  assert (Hhas : ∀ j, 0 ≤ j < n →
            BitSet.has (Fin j) (BitSet.set (Fin i) b) = BitSet.has (Fin j) b).
  { intros j Hj. rewrite has_set, (covers_out_of_range b n) by done.
    apply orb_false_r. }
  split_and!; [|done|].
  - unfold BitSet.toArray. rewrite set_length, Hl.
    apply filter_ext_elem. intros j Hj%elem_of_upto. by rewrite Hhas.
  - intros len b0 j Hnew. by apply new_spec in Hnew as (_ & _ & ->).
Qed.

Lemma set_out_of_range_unobservable_witness :
  BitSet.length b_three = BitSet.LFin 3
  ∧ ¬ (0 ≤ 5 < 3)
  ∧ - 2 ^ 34 < 5 < 2 ^ 34
  ∧ BitSet.toArray (BitSet.set (Fin 5) b_three) = BitSet.toArray b_three.
Proof.
  assert (H2 : ¬ (0 ≤ 5 < 3)) by lia.
  assert (H3 : - 2 ^ 34 < 5 < 2 ^ 34) by lia.
  split; [reflexivity|]. split; [exact H2|]. split; [exact H3|].
  exact (proj1 (set_out_of_range_unobservable b_three 3 5 eq_refl H2 H3)).
Defined.

(* ===================================================================== *)
(** ** Abort                                                              *)
(* ===================================================================== *)

(** C8, as the specification states it, fails when a file cannot be
    removed: the error is swallowed, the snapshot stays on disk, and the
    next status request rebuilds the upload from it. *)
Lemma abortUpload_snapshot_survives :
  abortUpload io_meta_stuck "u1" w_flushed = (Returns (), w_aborted)
  ∧ uploads w_aborted !! "u1" = None
  ∧ metaFiles w_aborted !! "u1" = Some (Json (snapshot up_chunk2))
  ∧ (getStatus "u1" w_aborted).1
    = Status200 (mkStatusBody "u1" "f.bin" 150 64 (Fin 3) [2] 1)
  ∧ (getStatus "u1" w_aborted).1 ≠ Status404.
Proof.
  split; [vm_compute; reflexivity|].
  split; [vm_compute; reflexivity|].
  split; [vm_compute; reflexivity|].
  assert (H : (getStatus "u1" w_aborted).1
              = Status200 (mkStatusBody "u1" "f.bin" 150 64 (Fin 3) [2] 1))
    by (vm_compute; reflexivity).
  split; [exact H|]. rewrite H. discriminate.
Qed.

(** C8, amended.  [abortUpload] returns normally for every id and every
    outcome of the two [unlink] calls.  When the id resolves, it is gone
    from the cache, the lock table and the dirty set afterwards; the
    destination file is gone when its [unlink] was not refused, and when
    the [unlink] of the snapshot was not refused the snapshot is gone
    and the next status request answers not found.  When the id does not
    resolve, nothing changes and a status request answers not found. *)
Theorem abortUpload_best_effort io uid w :
  (abortUpload io uid w).1 = Returns ()
  ∧ match (getUpload uid w).1 with
    | Some up =>
        uploads (abortUpload io uid w).2 !! uid = None
        ∧ locks (abortUpload io uid w).2 !! uid = None
        ∧ (uid ∉ dirty (abortUpload io uid w).2)
        ∧ (io_unlinkFile io = None →
             dataFiles (abortUpload io uid w).2 !! filePath up = None)
        ∧ (io_unlinkMeta io = None →
             metaFiles (abortUpload io uid w).2 !! uid = None
             ∧ (getStatus uid (abortUpload io uid w).2).1 = Status404)
    | None =>
        (abortUpload io uid w).2 = w
        ∧ (getStatus uid w).1 = Status404
    end.
Proof.
  destruct (getUpload uid w) as [[up|] w1] eqn:Hget; simpl.
  - pose proof (abortUpload_resolved io uid w up w1 Hget)
      as (Hr & Hu & Hl & Hd & Hdf & Hmf & _). simpl in *.
    split; [done|]. rewrite Hu, Hl, Hd, !lookup_delete_eq.
    split_and!; try done.
    + rewrite elem_of_delete. by intros [? _].
    + intros Hio. split; [by apply Hmf|].
      unfold getStatus. rewrite (getUpload_absent uid); [done| |by apply Hmf].
      by rewrite Hu, lookup_delete_eq.
  - rewrite abortUpload_unresolved by (by rewrite Hget). simpl.
    split; [done|]. split; [done|].
    unfold getStatus. by rewrite Hget.
Qed.

(* ===================================================================== *)
(** * Further properties                                                  *)
(* ===================================================================== *)

(* ===================================================================== *)
(** ** BitSet: marking inside the bitmap                                  *)
(* ===================================================================== *)

Lemma slot_nonneg i :
  0 ≤ i < 2 ^ 34 → slot (Fin i) = Some (i / 8, i mod 8).
Proof.
  intros Hi. unfold slot.
  rewrite Z.rem_mod_nonneg, Z.quot_div_nonneg by lia.
  pose proof (Z.mod_pos_bound i 8 ltac:(lia)) as Hm.
  destruct (Z.ltb_spec (i mod 8) 0); [lia|].
  rewrite ToInt32_small; [done|].
  pose proof (Z.div_mod i 8 ltac:(lia)). lia.
Qed.

Lemma sized_read b n i :
  BitSet.length b = BitSet.LFin n → sized b → 0 ≤ i < n →
  is_Some (BitSet.read (BitSet.bytes b) (i / 8)).
Proof.
  intros Hl [Hs Hn] Hi. rewrite Hl in Hs, Hn. simpl in Hs.
  apply read_is_Some. rewrite Hs.
  pose proof (Z.div_mod i 8 ltac:(lia)) as Ei.
  pose proof (Z.mod_pos_bound i 8 ltac:(lia)) as Bi.
  pose proof (Z.div_mod (- n) 8 ltac:(lia)) as En.
  pose proof (Z.mod_pos_bound (- n) 8 ltac:(lia)) as Bn.
  lia.
Qed.

(** Inside a bitmap of at most 2^34 bits, an index reaches its own bit
    and no other. *)
Lemma covers_in_range b n i j :
  BitSet.length b = BitSet.LFin n → sized b → n ≤ 2 ^ 34 →
  0 ≤ i < n → 0 ≤ j < n →
  covers b (Fin i) (Fin j) = bool_decide (i = j).
Proof.
  intros Hl Hs Hn Hi Hj. unfold covers.
  rewrite !slot_nonneg by lia. apply bool_decide_ext. split.
  - intros (Hk & Hr & _).
    pose proof (Z.div_mod i 8 ltac:(lia)). pose proof (Z.div_mod j 8 ltac:(lia)). lia.
  - intros ->. split_and!; try done. by eapply sized_read.
Qed.

Lemma has_set_in_range b n i j :
  BitSet.length b = BitSet.LFin n → sized b → n ≤ 2 ^ 34 →
  0 ≤ i < n → 0 ≤ j < n →
  BitSet.has (Fin j) (BitSet.set (Fin i) b)
  = BitSet.has (Fin j) b || bool_decide (i = j).
Proof. intros Hl Hs Hn Hi Hj. by rewrite has_set, (covers_in_range b n). Qed.

Lemma elem_of_toArray_set b n i j :
  BitSet.length b = BitSet.LFin n → sized b → n ≤ 2 ^ 34 → 0 ≤ i < n →
  j ∈ BitSet.toArray (BitSet.set (Fin i) b) ↔ j = i ∨ j ∈ BitSet.toArray b.
Proof.
  intros Hl Hs Hn Hi. rewrite !elem_of_toArray, set_length, Hl. split.
  - intros (n' & [= <-] & Hj & Hh). rewrite (has_set_in_range b n) in Hh by done.
    apply orb_true_iff in Hh as [Hh|Hh%bool_decide_eq_true].
    + right. by exists n.
    + by left.
  - intros [->|(n' & [= <-] & Hj & Hh)]; exists n; (split; [done|]); (split; [done|]).
    + rewrite (has_set_in_range b n) by done.
      rewrite bool_decide_eq_true_2 by done. apply orb_true_r.
    + rewrite (has_set_in_range b n) by done. by rewrite Hh.
Qed.

(** [set(i)] for an index of the bitmap: afterwards [has(i)] holds, the
    answer of [has] for every other index of the bitmap is as before, and
    [toArray()] has gained exactly [i]. *)
Theorem set_marks_exactly b n i :
  BitSet.length b = BitSet.LFin n →
  sized b →
  n ≤ 2 ^ 34 →
  0 ≤ i < n →
  BitSet.has (Fin i) (BitSet.set (Fin i) b) = true
  ∧ (∀ j, 0 ≤ j < n → j ≠ i →
       BitSet.has (Fin j) (BitSet.set (Fin i) b) = BitSet.has (Fin j) b)
  ∧ (∀ j, j ∈ BitSet.toArray (BitSet.set (Fin i) b) ↔ j = i ∨ j ∈ BitSet.toArray b).
Proof.
  intros Hl Hs Hn Hi. split_and!.
  - rewrite (has_set_in_range b n) by done.
    rewrite bool_decide_eq_true_2 by done. apply orb_true_r.
  - intros j Hj Hne. rewrite (has_set_in_range b n) by done.
    rewrite bool_decide_eq_false_2 by congruence. apply orb_false_r.
  - intros j. by apply (elem_of_toArray_set b n).
Qed.

Lemma set_marks_exactly_witness :
  BitSet.length b_three = BitSet.LFin 3
  ∧ sized b_three
  ∧ 3 ≤ 2 ^ 34
  ∧ 0 ≤ 2 < 3
  ∧ BitSet.has (Fin 2) (BitSet.set (Fin 2) b_three) = true.
Proof.
  assert (H2 : sized b_three) by (split; [reflexivity|]; vm_compute; discriminate).
  assert (H3 : 3 ≤ 2 ^ 34) by lia.
  assert (H4 : 0 ≤ 2 < 3) by lia.
  split; [reflexivity|]. split; [exact H2|]. split; [exact H3|]. split; [exact H4|].
  exact (proj1 (set_marks_exactly b_three 3 2 eq_refl H2 H3 H4)).
Defined.

(** The truncation to 32 bits loses every index from 2^34 to 2^35 - 1:
    [set] does nothing for it and [has] answers false, whatever the
    bitmap. *)
Theorem set_beyond_2_34_dropped b i :
  2 ^ 34 ≤ i < 2 ^ 35 →
  BitSet.set (Fin i) b = b ∧ BitSet.has (Fin i) b = false.
Proof.
  intros Hi.
  assert (Hk : BitSet._byteIndex (Fin i) < 0).
  { simpl. rewrite Z.quot_div_nonneg by lia. unfold ToInt32.
    pose proof (Z.div_mod i 8 ltac:(lia)) as Ei.
    pose proof (Z.mod_pos_bound i 8 ltac:(lia)) as Bi.
    replace (i / 8 + 2 ^ 31) with (i / 8 - 2 ^ 31 + 1 * 2 ^ 32) by lia.
    rewrite Z.mod_add by lia. rewrite Z.mod_small by lia. lia. }
  unfold BitSet.set, BitSet.has, BitSet.read.
  destruct (Z.ltb_spec (BitSet._byteIndex (Fin i)) 0); [done|lia].
Qed.

Lemma set_beyond_2_34_dropped_witness :
  2 ^ 34 ≤ 2 ^ 34 + 5 < 2 ^ 35
  ∧ BitSet.set (Fin (2 ^ 34 + 5)) b_three = b_three.
Proof.
  assert (H : 2 ^ 34 ≤ 2 ^ 34 + 5 < 2 ^ 35) by lia.
  split; [exact H|].
  exact (proj1 (set_beyond_2_34_dropped b_three (2 ^ 34 + 5) H)).
Defined.

Lemma u8_of_Z_mod x y : x mod 256 = y mod 256 → u8_of_Z x = u8_of_Z y.
Proof. intros H. unfold u8_of_Z. by rewrite H. Qed.

(** [set] is idempotent: marking an index twice is marking it once. *)
Theorem set_idempotent i b :
  BitSet.set i (BitSet.set i b) = BitSet.set i b.
Proof.
  unfold BitSet.set at 2.
  destruct (BitSet.read (BitSet.bytes b) (BitSet._byteIndex i)) as [v|] eqn:Hv.
  - unfold BitSet.set. simpl.
    assert (Hlt : (Z.to_nat (BitSet._byteIndex i) < Datatypes.length (BitSet.bytes b))%nat).
    { unfold BitSet.read in Hv. destruct (_ <? 0); [done|]. by eapply lookup_lt_Some. }
    assert (Hr : BitSet.read
                   (<[Z.to_nat (BitSet._byteIndex i) :=
                        u8_of_Z (Z.lor (Z_of_u8 v) (BitSet._bitMask i))]> (BitSet.bytes b))
                   (BitSet._byteIndex i)
                 = Some (u8_of_Z (Z.lor (Z_of_u8 v) (BitSet._bitMask i)))).
    { unfold BitSet.read in *. destruct (_ <? 0); [done|].
      by apply list_lookup_insert_eq. }
    rewrite Hr, Hv. rewrite list_insert_insert_eq. f_equal. f_equal.
    apply u8_of_Z_mod. rewrite Z_of_u8_of_Z.
    change 256 with (2 ^ 8). apply Z.bits_inj'. intros n Hn.
    destruct (Z_lt_dec n 8).
    + rewrite !Z.mod_pow2_bits_low, !Z.lor_spec, Z.mod_pow2_bits_low, Z.lor_spec by lia.
      by destruct (Z.testbit (Z_of_u8 v) n), (Z.testbit (BitSet._bitMask i) n).
    + by rewrite !Z.mod_pow2_bits_high by lia.
  - unfold BitSet.set. by rewrite Hv.
Qed.

(* ===================================================================== *)
(** ** BitSet: the index list                                             *)
(* ===================================================================== *)

Lemma StronglySorted_seq a k : StronglySorted lt (seq a k).
Proof.
  revert a. induction k as [|k IH]; intros a; simpl; [constructor|].
  constructor; [apply IH|].
  apply Forall_forall. intros x Hx. apply elem_of_seq in Hx. lia.
Qed.

Lemma upto_sorted n : StronglySorted Z.lt (BitSet.upto n).
Proof.
  unfold BitSet.upto. apply (StronglySorted_fmap _ lt); [lia|].
  apply StronglySorted_seq.
Qed.

Lemma StronglySorted_filter {A} (R : relation A) (P : A → Prop)
    `{∀ x, Decision (P x)} (l : list A) :
  StronglySorted R l → StronglySorted R (filter P l).
Proof.
  induction 1 as [|x l Hl IH Hx]; [constructor|].
  rewrite filter_cons. destruct (decide (P x)); [|done].
  constructor; [done|].
  rewrite Forall_forall in Hx. apply Forall_forall.
  intros y Hy%list_elem_of_filter. apply Hx. tauto.
Qed.

Lemma sorted_lt_NoDup (l : list Z) : StronglySorted Z.lt l → NoDup l.
Proof.
  induction 1 as [|x l Hl IH Hx]; [constructor|].
  constructor; [|done]. rewrite Forall_forall in Hx.
  intros Hin. specialize (Hx _ Hin). lia.
Qed.

(** Two strictly ascending lists with the same elements are equal. *)
Lemma sorted_lt_ext (l1 l2 : list Z) :
  StronglySorted Z.lt l1 → StronglySorted Z.lt l2 →
  (∀ x, x ∈ l1 ↔ x ∈ l2) → l1 = l2.
Proof.
  intros H1 H2 Hiff. apply (StronglySorted_unique_strong Z.lt); try done.
  - intros x1 x2 _ _ ? ?. lia.
  - apply NoDup_Permutation; [by apply sorted_lt_NoDup..|done].
Qed.

Lemma toArray_sorted b : StronglySorted Z.lt (BitSet.toArray b).
Proof.
  unfold BitSet.toArray. destruct (BitSet.length b); [|constructor].
  apply StronglySorted_filter, upto_sorted.
Qed.

(** [toArray()] is strictly ascending (hence free of duplicates) and
    lists only indices below [length] on which [has] holds. *)
Theorem toArray_ascending b :
  StronglySorted Z.lt (BitSet.toArray b)
  ∧ NoDup (BitSet.toArray b)
  ∧ ∀ i, i ∈ BitSet.toArray b →
      BitSet.has (Fin i) b = true
      ∧ ∃ n, BitSet.length b = BitSet.LFin n ∧ 0 ≤ i < n.
Proof.
  pose proof (toArray_sorted b) as Hs.
  split; [done|]. split; [by apply sorted_lt_NoDup|].
  intros i (n & Hl & Hi & Hh)%elem_of_toArray. split; [done|]. by exists n.
Qed.

Lemma has_fromArray arr n b j :
  0 ≤ n ≤ 2 ^ 34 →
  Forall (λ i, 0 ≤ i < n) arr →
  BitSet.fromArray arr (Fin n) = Some b →
  0 ≤ j < n →
  BitSet.has (Fin j) b = bool_decide (j ∈ arr).
Proof.
  intros Hn Harr Hfrom Hj. unfold BitSet.fromArray in Hfrom.
  destruct (BitSet.new (Fin n)) as [b0|] eqn:Hnew; [|done].
  injection Hfrom as <-.
  destruct (new_spec _ _ Hnew) as (Hl & Hs & Hfresh).
  assert (Hl0 : BitSet.length b0 = BitSet.LFin n).
  { destruct (BitSet.length b0); simpl in Hl; congruence. }
  rewrite has_foldl_set, Hfresh. simpl.
  rewrite Forall_forall in Harr.
  destruct (existsb _ arr) eqn:He.
  - apply existsb_exists in He as (i & Hi%list_elem_of_In & Hc).
    rewrite (covers_in_range b0 n) in Hc by (try done; try lia; by apply Harr).
    apply bool_decide_eq_true in Hc as ->.
    by rewrite bool_decide_eq_true_2.
  - rewrite bool_decide_eq_false_2; [done|]. intros Hin.
    assert (existsb (λ i, covers b0 (Fin i) (Fin j)) arr = true); [|congruence].
    apply existsb_exists. exists j. split; [by apply list_elem_of_In|].
    rewrite (covers_in_range b0 n) by (try done; lia).
    by apply bool_decide_eq_true_2.
Qed.

(** [fromArray] followed by [toArray()] gives back a strictly ascending
    list of indices of the bitmap: the received list of a snapshot is
    decoded and encoded without loss. *)
Theorem toArray_fromArray_sorted arr n :
  0 ≤ n ≤ 2 ^ 34 →
  StronglySorted Z.lt arr →
  Forall (λ i, 0 ≤ i < n) arr →
  ∃ b, BitSet.fromArray arr (Fin n) = Some b
       ∧ BitSet.length b = BitSet.LFin n
       ∧ BitSet.toArray b = arr.
Proof.
  intros Hn Hsorted Harr.
  destruct (BitSet.fromArray arr (Fin n)) as [b|] eqn:Hfrom.
  2:{ exfalso. revert Hfrom. unfold BitSet.fromArray, BitSet.new.
      pose proof (Z.div_mod (- n) 8 ltac:(lia)).
      pose proof (Z.mod_pos_bound (- n) 8 ltac:(lia)).
      destruct (Z.ltb_spec (- (- n / 8)) 0); [lia|done]. }
  exists b. split; [done|].
  destruct (fromArray_spec _ _ _ Hfrom) as [Hl _].
  assert (Hlb : BitSet.length b = BitSet.LFin n).
  { destruct (BitSet.length b); simpl in Hl; congruence. }
  split; [done|].
  apply sorted_lt_ext; [apply toArray_sorted|done|].
  intros x. rewrite elem_of_toArray, Hlb. split.
  - intros (n' & [= <-] & Hx & Hh).
    rewrite (has_fromArray arr n) in Hh by done. by apply bool_decide_eq_true in Hh.
  - intros Hin. pose proof Harr as Hall. rewrite Forall_forall in Hall. exists n.
    split; [done|]. split; [by apply Hall|].
    rewrite (has_fromArray arr n) by (try done; by apply Hall).
    by apply bool_decide_eq_true_2.
Qed.

Lemma toArray_fromArray_sorted_witness :
  0 ≤ 10 ≤ 2 ^ 34
  ∧ StronglySorted Z.lt [0; 1; 2; 5]
  ∧ Forall (λ i, 0 ≤ i < 10) [0; 1; 2; 5]
  ∧ ∃ b, BitSet.fromArray [0; 1; 2; 5] (Fin 10) = Some b
         ∧ BitSet.length b = BitSet.LFin 10
         ∧ BitSet.toArray b = [0; 1; 2; 5].
Proof.
  assert (H1 : 0 ≤ 10 ≤ 2 ^ 34) by lia.
  assert (H2 : StronglySorted Z.lt [0; 1; 2; 5]).
  { repeat (constructor; [|repeat constructor; lia]). constructor. }
  assert (H3 : Forall (λ i, 0 ≤ i < 10) [0; 1; 2; 5]) by (repeat constructor; lia).
  split; [exact H1|]. split; [exact H2|]. split; [exact H3|].
  exact (toArray_fromArray_sorted [0; 1; 2; 5] 10 H1 H2 H3).
Defined.

(* ===================================================================== *)
(** ** writeChunkAt: success, conflict, failure                           *)
(* ===================================================================== *)

(** The two ways in which a chunk write that holds its lock can end. *)
Lemma writeChunkAt_settle_cases p ev w r w' :
  writeChunkAt_settle p ev w = (r, w') →
  metaFiles w' = metaFiles w
  ∧ ((∃ data content,
        ev = EvFinish data
        ∧ 0 ≤ p_offset p
        ∧ dataFiles w !! filePath (p_up p) = Some content
        ∧ r = Returns (mkWriteResult false (Z.of_nat (Datatypes.length data)))
        ∧ uploads w' = alter (mark_received (p_chunkIndex p)) (p_id p) (uploads w)
        ∧ dirty w' = JSSet.add (p_id p) (dirty w)
        ∧ _debounceTimer w' = true
        ∧ dataFiles w'
          = <[filePath (p_up p) := pwrite content (p_offset p) data]> (dataFiles w))
     ∨ (∃ c,
        r = Throws (if isBadFd c then transient_write_failure else SysError c)
        ∧ (p_offset p < 0 ∧ c = ERR_OUT_OF_RANGE
           ∨ 0 ≤ p_offset p ∧ dataFiles w !! filePath (p_up p) = None ∧ c = ENOENT
           ∨ ∃ data, ev = EvError c data)
        ∧ uploads w' = uploads w
        ∧ dirty w' = dirty w
        ∧ _debounceTimer w' = _debounceTimer w)).
Proof.
  unfold writeChunkAt_settle, doWrite.
  destruct (Z.ltb_spec (p_offset p) 0) as [Hneg|Hpos].
  { simpl. intros [= <- <-]. split; [done|]. right. exists ERR_OUT_OF_RANGE.
    split_and!; try done. by left. }
  destruct (dataFiles w !! filePath (p_up p)) as [content|] eqn:Hf.
  2:{ simpl. intros [= <- <-]. split; [done|]. right. exists ENOENT.
      split_and!; try done. right; left. done. }
  destruct ev as [data|c data]; simpl.
  - intros [= <- <-]. destruct w as [us ls d t mf df]; unfold _scheduleFlush; simpl.
    split; [by destruct t|]. left. exists data, content.
    destruct t; simpl; split_and!; done.
  - destruct (isBadFd c) eqn:Hc; intros [= <- <-]; (split; [done|]); right; exists c;
      rewrite Hc; split_and!; try done; right; right; by eexists.
Qed.

(** A chunk write never writes a snapshot file and never touches another
    upload: the descriptor and the lock set of every other id are as
    before, whatever the write does. *)
Theorem writeChunkAt_other id offset ev w :
  metaFiles (writeChunkAt id offset ev w).2 = metaFiles w
  ∧ ∀ id', id' ≠ id →
      uploads (writeChunkAt id offset ev w).2 !! id' = uploads w !! id'
      ∧ locks (writeChunkAt id offset ev w).2 !! id' = locks w !! id'.
Proof.
  unfold writeChunkAt.
  destruct (writeChunkAt_begin id offset w) as [[r|p] w1] eqn:Hb.
  - unfold writeChunkAt_begin in Hb.
    destruct (getUpload id w) as [[up|] w0] eqn:Hget.
    + pose proof (getUpload_Some _ _ _ _ Hget) as (_ & Hu & Hl & _ & _ & _ & _ & Hm & _).
      assert (w1 = w0) as ->.
      { destruct (BitSet.has _ _); [by injection Hb|].
        destruct (locks w0 !! id); [|by injection Hb].
        destruct (JSSet.has _ _); [by injection Hb|done]. }
      simpl. split; [done|]. intros id' Hne. split; [by apply Hu|by apply Hl].
    + apply getUpload_None in Hget as [-> _]. by injection Hb as _ <-.
  - apply writeChunkAt_begin_pending in Hb
      as (up & w0 & lockSet & Hget & Hl0 & _ & _ & Hp & ->).
    pose proof (getUpload_Some _ _ _ _ Hget) as (_ & Hu & Hl & _ & _ & _ & _ & Hm & _).
    assert (Hid : p_id p = id) by (by rewrite Hp).
    destruct (writeChunkAt_settle p ev _) as [r w'] eqn:Hs.
    pose proof (writeChunkAt_settle_locks p ev (set_locks <[id:=JSSet.add (p_chunkIndex p) lockSet]> w0))
      as Hlocks.
    rewrite doWrite_locks, Hs, Hid in Hlocks. simpl in Hlocks.
    apply writeChunkAt_settle_cases in Hs as [Hmf Hcases]. simpl in *.
    split; [congruence|]. intros id' Hne. split.
    + destruct Hcases as [(data & content & _ & _ & _ & _ & -> & _)|(c & _ & _ & -> & _)].
      * rewrite Hid, lookup_alter_ne by done. simpl. by apply Hu.
      * simpl. by apply Hu.
    + rewrite Hlocks, lookup_alter_ne by done.
      destruct ((doWrite p ev _).1).
      * rewrite lookup_alter_ne by done. simpl. rewrite lookup_insert_ne by done.
        by apply Hl.
      * simpl. rewrite lookup_insert_ne by done. by apply Hl.
Qed.

Lemma floor_div_nonzero a b : b ≠ 0 → floor_div a b = Fin (a / b).
Proof. intros Hb. unfold floor_div. by destruct (Z.eqb_spec b 0). Qed.

(** The length of the bitmap of a descriptor with positive sizes, and the
    place of the chunk index of an offset inside the file. *)
Lemma descriptor_index_range up offset :
  descriptor_ok up → 0 < chunkSize up → 0 ≤ offset < totalSize up →
  ∃ n, ceil_div (totalSize up) (chunkSize up) = Fin n
       ∧ BitSet.length (receivedBitset up) = BitSet.LFin n
       ∧ 0 ≤ offset / chunkSize up < n
       ∧ (totalSize up ≤ 2 ^ 34 * chunkSize up → n ≤ 2 ^ 34).
Proof.
  intros [Hlen _] Hc Ho.
  destruct (ceil_div_pos (totalSize up) (chunkSize up)) as (n & Hn & Hn1 & Hb); [lia..|].
  exists n. split; [done|]. split.
  { rewrite Hn in Hlen. simpl in Hlen. rewrite Z.max_r in Hlen by lia.
    destruct (BitSet.length _); simpl in Hlen; congruence. }
  pose proof (Z.div_mod offset (chunkSize up) ltac:(lia)) as Hdm.
  pose proof (Z.mod_pos_bound offset (chunkSize up) Hc) as Hmb.
  split; [nia|]. intros Hbig. nia.
Qed.

Lemma getUpload_registry_ok id w up w1 :
  registry_ok w → getUpload id w = (Some up, w1) →
  descriptor_ok up ∧ is_Some (locks w1 !! id).
Proof.
  intros Hok Hget.
  pose proof (getUpload_Some _ _ _ _ Hget)
    as (_ & _ & _ & _ & Hnew & _ & _ & _ & _ & [[Hc ->]|[Hnone Hd]]).
  - by apply Hok.
  - split; [done|]. by apply Hnew.
Qed.

(** The state after a chunk write that takes its lock and whose stream
    finishes. *)
Lemma writeChunkAt_finish uid offset data w up w1 content :
  registry_ok w →
  getUpload uid w = (Some up, w1) →
  0 < chunkSize up →
  0 ≤ offset →
  BitSet.has (Fin (offset / chunkSize up)) (receivedBitset up) = false →
  locked uid (Fin (offset / chunkSize up)) w1 = false →
  dataFiles w !! filePath up = Some content →
  ∃ w',
    writeChunkAt uid offset (EvFinish data) w
    = (Returns (mkWriteResult false (Z.of_nat (Datatypes.length data))), w')
    ∧ uploads w' !! uid = Some (mark_received (Fin (offset / chunkSize up)) up)
    ∧ locks w' = locks w1
    ∧ dirty w' = JSSet.add uid (dirty w)
    ∧ _debounceTimer w' = true
    ∧ dataFiles w' !! filePath up = Some (pwrite content offset data)
    ∧ metaFiles w' = metaFiles w.
Proof.
  intros Hok Hget Hcs Hoff Hhas Hlock Hfile.
  destruct (getUpload_registry_ok _ _ _ _ Hok Hget) as [Hd [lockSet Hl]].
  pose proof (getUpload_Some _ _ _ _ Hget)
    as (Hu1 & _ & _ & _ & _ & Hd1 & _ & Hm1 & Hf1 & _).
  set (i := offset / chunkSize up) in *.
  assert (Hfd : floor_div offset (chunkSize up) = Fin i) by (apply floor_div_nonzero; lia).
  assert (Hnin : Fin i ∉ lockSet).
  { unfold locked in Hlock. rewrite Hl in Hlock. by apply has_false. }
  set (p := mkPending uid up offset (Fin i)).
  assert (Hb : writeChunkAt_begin uid offset w
               = (inr p, set_locks <[uid := JSSet.add (Fin i) lockSet]> w1)).
  { unfold writeChunkAt_begin. rewrite Hget, Hfd, Hhas, Hl.
    apply has_false in Hnin. by rewrite Hnin. }
  pose proof (settle_locks_restored p (EvFinish data) w1 lockSet Hl Hnin) as Hrest.
  unfold writeChunkAt. rewrite Hb.
  destruct (writeChunkAt_settle p (EvFinish data) _) as [r w'] eqn:Hs.
  simpl in Hrest.
  apply writeChunkAt_settle_cases in Hs as [Hmf Hcases]. simpl in *.
  destruct Hcases as [(data' & content' & [= <-] & _ & Hc' & -> & Hu & Hdi & Ht & Hdf)
                     |(c & _ & [[? _]|[(_ & Hnone & _)|(? & ?)]] & _)];
    [|lia|congruence|done].
  rewrite Hf1, Hfile in Hc'. injection Hc' as <-.
  exists w'. split_and!; try done.
  - by rewrite Hu, lookup_alter_eq, Hu1.
  - congruence.
  - by rewrite Hdf, lookup_insert_eq.
  - congruence.
Qed.

(** A chunk write into an upload with positive sizes and at most 2^34
    chunks, at an offset inside the file whose chunk is neither received
    nor being written, with a stream that finishes: the call resolves
    with the byte count, the registered bitmap has gained exactly the
    chunk index of the offset, the received list reports it, the index is
    not locked any more, a flush is scheduled, the bytes are in the file,
    and no snapshot file has been written. *)
Theorem writeChunkAt_marks_chunk uid offset data w up w1 content :
  registry_ok w →
  getUpload uid w = (Some up, w1) →
  0 < chunkSize up →
  0 ≤ offset < totalSize up →
  totalSize up ≤ 2 ^ 34 * chunkSize up →
  BitSet.has (Fin (offset / chunkSize up)) (receivedBitset up) = false →
  locked uid (Fin (offset / chunkSize up)) w1 = false →
  dataFiles w !! filePath up = Some content →
  ∃ w',
    writeChunkAt uid offset (EvFinish data) w
    = (Returns (mkWriteResult false (Z.of_nat (Datatypes.length data))), w')
    ∧ uploads w' !! uid = Some (mark_received (Fin (offset / chunkSize up)) up)
    ∧ (∀ j, j ∈ (getReceivedChunksArray uid w').1
            ↔ j = offset / chunkSize up ∨ j ∈ BitSet.toArray (receivedBitset up))
    ∧ locked uid (Fin (offset / chunkSize up)) w' = false
    ∧ uid ∈ dirty w'
    ∧ _debounceTimer w' = true
    ∧ dataFiles w' !! filePath up = Some (pwrite content offset data)
    ∧ metaFiles w' = metaFiles w.
Proof.
  intros Hok Hget Hcs Hoff Hbig Hhas Hlock Hfile.
  destruct (getUpload_registry_ok _ _ _ _ Hok Hget) as [Hd _].
  destruct (descriptor_index_range up offset Hd Hcs Hoff) as (n & Hn & Hlen & Hidx & Hn34).
  specialize (Hn34 Hbig).
  destruct (writeChunkAt_finish uid offset data w up w1 content Hok Hget Hcs
              ltac:(lia) Hhas Hlock Hfile)
    as (w' & Hr & Hreg & Hl & Hdi & Ht & Hdf & Hmf).
  exists w'. split; [done|]. split; [done|]. split_and!; try done.
  - intros j. unfold getReceivedChunksArray.
    rewrite (getUpload_cached _ _ _ Hreg). simpl.
    apply (elem_of_toArray_set _ n); try done. apply Hd.
  - unfold locked in *. by rewrite Hl.
  - rewrite Hdi. apply elem_of_add. by left.
Qed.

Lemma writeChunkAt_marks_chunk_witness :
  registry_ok w_created
  ∧ getUpload "u1" w_created = (Some up_created, w_created)
  ∧ ∃ w',
      writeChunkAt "u1" 128 (EvFinish (replicate 22 x01)) w_created
      = (Returns (mkWriteResult false 22), w')
      ∧ uploads w' !! "u1" = Some (mark_received (Fin (128 / 64)) up_created).
Proof.
  assert (H1 : registry_ok w_created).
  { exact (run_registry_ok (λ s, s) [OpCreate "u1" 0 io_fine "f.bin" 150 (Some 64)]
             (boot ∅ ∅) (boot_registry_ok ∅ ∅)). }
  assert (H2 : getUpload "u1" w_created = (Some up_created, w_created))
    by (vm_compute; reflexivity).
  assert (H3 : 0 < chunkSize up_created) by reflexivity.
  assert (H4 : 0 ≤ 128 < totalSize up_created) by (simpl; lia).
  assert (H5 : totalSize up_created ≤ 2 ^ 34 * chunkSize up_created) by (simpl; lia).
  assert (H8 : dataFiles w_created !! filePath up_created = Some (replicate 150 x00))
    by (vm_compute; reflexivity).
  split; [exact H1|]. split; [exact H2|].
  destruct (writeChunkAt_marks_chunk "u1" 128 (replicate 22 x01) w_created up_created
              w_created (replicate 150 x00) H1 H2 H3 H4 H5 eq_refl eq_refl H8)
    as (w' & Hr & Hu & _).
  exists w'. split; [exact Hr|exact Hu].
Defined.

(** While a chunk write holds its lock, a second write to the same chunk
    of the same upload is rejected with [chunk_write_in_progress] and
    changes nothing, whatever its offset inside the chunk; a write whose
    offset falls into a chunk that is neither received nor locked gets
    its own lock, and both indices are then locked. *)
Theorem writeChunkAt_conflict uid offset w p w1 offset' :
  writeChunkAt_begin uid offset w = (inr p, w1) →
  (floor_div offset' (chunkSize (p_up p)) = p_chunkIndex p →
     ∀ ev, writeChunkAt uid offset' ev w1 = (Throws chunk_write_in_progress, w1))
  ∧ (BitSet.has (floor_div offset' (chunkSize (p_up p))) (receivedBitset (p_up p)) = false →
     locked uid (floor_div offset' (chunkSize (p_up p))) w1 = false →
     ∃ p' w2, writeChunkAt_begin uid offset' w1 = (inr p', w2)
              ∧ p_chunkIndex p' = floor_div offset' (chunkSize (p_up p))
              ∧ locked uid (p_chunkIndex p) w2 = true
              ∧ locked uid (p_chunkIndex p') w2 = true).
Proof.
  intros Hb.
  apply writeChunkAt_begin_pending in Hb
    as (up & w0 & lockSet & Hget & Hl & Hnin & Hhas & Hp & ->).
  assert (Hup : p_up p = up) by (by rewrite Hp).
  rewrite Hup. set (i := p_chunkIndex p) in *.
  pose proof (getUpload_Some _ _ _ _ Hget) as (Hu & _).
  assert (Hget1 : getUpload uid (set_locks <[uid:=JSSet.add i lockSet]> w0)
                  = (Some up, set_locks <[uid:=JSSet.add i lockSet]> w0)).
  { apply getUpload_cached. done. }
  split.
  - intros Hsame ev. unfold writeChunkAt, writeChunkAt_begin.
    rewrite Hget1, Hsame, Hhas. simpl. rewrite lookup_insert_eq.
    by rewrite has_add_same.
  - intros Hhas' Hfree.
    set (i' := floor_div offset' (chunkSize up)) in *.
    unfold locked in Hfree. simpl in Hfree. rewrite lookup_insert_eq in Hfree.
    do 2 eexists. unfold writeChunkAt_begin.
    rewrite Hget1. fold i'. rewrite Hhas'. simpl. rewrite lookup_insert_eq, Hfree.
    split; [done|]. simpl. split; [done|].
    unfold locked. simpl. rewrite lookup_insert_eq.
    split; apply has_true; rewrite !elem_of_add; [right|]; by left.
Qed.

Lemma writeChunkAt_conflict_witness :
  writeChunkAt_begin "u1" 0 w_created = (inr p_begun, w_begun)
  ∧ floor_div 10 (chunkSize (p_up p_begun)) = p_chunkIndex p_begun
  ∧ writeChunkAt "u1" 10 (EvFinish [x01]) w_begun
    = (Throws chunk_write_in_progress, w_begun).
Proof.
  assert (H : writeChunkAt_begin "u1" 0 w_created = (inr p_begun, w_begun))
    by (vm_compute; reflexivity).
  split; [exact H|]. split; [reflexivity|].
  exact (proj1 (writeChunkAt_conflict "u1" 0 w_created p_begun w_begun 10 H)
               eq_refl (EvFinish [x01])).
Defined.

(** A chunk write whose streams fail after it has taken its lock rejects:
    with [transient_write_failure] for [EBADF] and a premature close, and
    with the error as raised otherwise (when the file is there and the
    offset is not negative).  The registry, hence every bitmap, the lock
    table, the dirty set, the timer and the snapshot files are as they
    were before the write, and the same write may be started again. *)
Theorem writeChunkAt_failure_is_clean uid offset w p w1 c data :
  writeChunkAt_begin uid offset w = (inr p, w1) →
  ∃ e w2,
    writeChunkAt_settle p (EvError c data) w1 = (Throws e, w2)
    ∧ (0 ≤ offset → is_Some (dataFiles w1 !! filePath (p_up p)) →
         e = if isBadFd c then transient_write_failure else SysError c)
    ∧ uploads w2 = uploads w1
    ∧ locks w2 = locks (getUpload uid w).2
    ∧ dirty w2 = dirty w1
    ∧ _debounceTimer w2 = _debounceTimer w1
    ∧ metaFiles w2 = metaFiles w1
    ∧ ∃ w3, writeChunkAt_begin uid offset w2 = (inr p, w3).
Proof.
  intros Hb.
  pose proof Hb as Hb'.
  apply writeChunkAt_begin_pending in Hb'
    as (up & w0 & lockSet & Hget & Hl & Hnin & Hhas & Hp & ->).
  assert (Hid : p_id p = uid) by (by rewrite Hp).
  assert (Hoff : p_offset p = offset) by (by rewrite Hp).
  pose proof (settle_locks_restored p (EvError c data) w0 lockSet) as Hrest.
  rewrite Hid in Hrest. specialize (Hrest Hl Hnin).
  destruct (writeChunkAt_settle p (EvError c data) _) as [r w2] eqn:Hs.
  simpl in Hrest.
  pose proof (writeChunkAt_settle_cases _ _ _ _ _ Hs) as [Hmf Hcases]. simpl in *.
  destruct Hcases as [(data' & content' & ? & _)|(c' & -> & Hwhy & Hu & Hd & Ht)]; [done|].
  do 2 eexists. split; [done|].
  rewrite Hget. simpl. split_and!; try done.
  - intros Hpos [content Hf].
    destruct Hwhy as [[Hneg _]|[(_ & Hnone & _)|(data' & [= <- _])]];
      [lia|congruence|done].
  - pose proof (getUpload_Some _ _ _ _ Hget) as (Hu0 & _).
    assert (Hget2 : getUpload uid w2 = (Some up, w2)).
    { apply getUpload_cached. by rewrite Hu. }
    eexists. unfold writeChunkAt_begin. rewrite Hget2.
    rewrite Hp in Hhas. simpl in Hhas. rewrite Hhas, Hrest, Hl.
    rewrite Hp in Hnin. simpl in Hnin. apply has_false in Hnin. rewrite Hnin.
    by rewrite Hp.
Qed.

Lemma writeChunkAt_failure_is_clean_witness :
  writeChunkAt_begin "u1" 0 w_created = (inr p_begun, w_begun)
  ∧ ∃ e w2,
      writeChunkAt_settle p_begun (EvError EBADF []) w_begun = (Throws e, w2)
      ∧ e = transient_write_failure
      ∧ uploads w2 = uploads w_begun.
Proof.
  assert (H : writeChunkAt_begin "u1" 0 w_created = (inr p_begun, w_begun))
    by (vm_compute; reflexivity).
  split; [exact H|].
  destruct (writeChunkAt_failure_is_clean "u1" 0 w_created p_begun w_begun EBADF [] H)
    as (e & w2 & Hs & He & Hu & _).
  exists e, w2. split; [exact Hs|]. split; [|exact Hu].
  apply He; [lia|]. vm_compute. eexists. reflexivity.
Defined.

(** For an id that is neither cached nor has a snapshot file,
    [writeChunkAt] and [markCompleted] throw [upload_not_found] and the
    complete handler answers 404; the state is left as it was. *)
Theorem unknown_upload_rejected uid w :
  uploads w !! uid = None →
  metaFiles w !! uid = None →
  (∀ offset ev, writeChunkAt uid offset ev w = (Throws upload_not_found, w))
  ∧ markCompleted uid w = (Throws upload_not_found, w)
  ∧ completeUpload uid w = (Returns Complete404, w).
Proof.
  intros Hu Hm. pose proof (getUpload_absent _ _ Hu Hm) as Hget.
  split_and!.
  - intros offset ev. unfold writeChunkAt, writeChunkAt_begin. by rewrite Hget.
  - unfold markCompleted. by rewrite Hget.
  - unfold completeUpload. by rewrite Hget.
Qed.

Lemma unknown_upload_rejected_witness :
  uploads w_chunk2 !! "nobody" = None
  ∧ metaFiles w_chunk2 !! "nobody" = None
  ∧ markCompleted "nobody" w_chunk2 = (Throws upload_not_found, w_chunk2).
Proof.
  assert (H1 : uploads w_chunk2 !! "nobody" = None) by (vm_compute; reflexivity).
  assert (H2 : metaFiles w_chunk2 !! "nobody" = None) by (vm_compute; reflexivity).
  split; [exact H1|]. split; [exact H2|].
  exact (proj1 (proj2 (unknown_upload_rejected "nobody" w_chunk2 H1 H2))).
Defined.

(* ===================================================================== *)
(** ** The flush of the dirty set                                         *)
(* ===================================================================== *)

Lemma flush_loop_meta_all (io : string → WriteFileResult) ids w uid :
  metaFiles (foldl (λ acc i,
                      match uploads acc !! i with
                      | None => acc
                      | Some u => (writeFile (io i) i (snapshot u) acc).2
                      end) w ids) !! uid
  = match uploads w !! uid with
    | Some up =>
        if bool_decide (uid ∈ ids) then flushed_file (io uid) up (metaFiles w !! uid)
        else metaFiles w !! uid
    | None => metaFiles w !! uid
    end.
Proof.
  revert w. induction ids as [|i ids IH]; intros w; simpl.
  { by destruct (uploads w !! uid). }
  set (w1 := match uploads w !! i with
             | None => w
             | Some u => (writeFile (io i) i (snapshot u) w).2
             end).
  assert (Hu1 : uploads w1 = uploads w).
  { unfold w1. destruct (uploads w !! i); [|done]. by destruct (io i). }
  rewrite IH, Hu1.
  destruct (uploads w !! uid) as [up|] eqn:Hup.
  - destruct (decide (i = uid)) as [->|Hne].
    + assert (metaFiles w1 !! uid = flushed_file (io uid) up (metaFiles w !! uid)) as ->.
      { unfold w1. rewrite Hup. unfold flushed_file.
        destruct (io uid); simpl; try done; apply lookup_insert_eq. }
      rewrite (bool_decide_eq_true_2 (uid ∈ uid :: ids)) by (by left).
      destruct (bool_decide _); [|done].
      unfold flushed_file. by destruct (io uid).
    + assert (metaFiles w1 !! uid = metaFiles w !! uid) as ->.
      { unfold w1. destruct (uploads w !! i); [|done].
        destruct (io i); simpl; try done; by rewrite lookup_insert_ne. }
      apply (f_equal (λ b : bool, if b then _ else _)).
      apply bool_decide_ext. rewrite elem_of_cons.
      split; [by right|]. by intros [?|?].
  - unfold w1. destruct (uploads w !! i) eqn:Hi; [|done].
    assert (i ≠ uid) by congruence.
    destruct (io i); simpl; try done; by rewrite lookup_insert_ne.
Qed.

Lemma flushAllMetadata_eq io w : flushAllMetadata io w = _flushDirty io w.
Proof.
  unfold flushAllMetadata. destruct (_debounceTimer w) eqn:Ht; [|done].
  unfold _flushDirty. by destruct w.
Qed.

(** One flush: the dirty set is emptied and the timer disarmed; the
    registry, the lock table and the destination files are not touched;
    every dirty registered id gets its snapshot file according to the
    outcome of its own write alone (a failure for one id does not stop
    the batch); every other snapshot file is as before.
    [flushAllMetadata] does the same. *)
Theorem flush_batch io w :
  dirty (_flushDirty io w) = []
  ∧ _debounceTimer (_flushDirty io w) = false
  ∧ uploads (_flushDirty io w) = uploads w
  ∧ locks (_flushDirty io w) = locks w
  ∧ dataFiles (_flushDirty io w) = dataFiles w
  ∧ (∀ uid up, uploads w !! uid = Some up → uid ∈ dirty w →
       metaFiles (_flushDirty io w) !! uid
       = flushed_file (io uid) up (metaFiles w !! uid))
  ∧ (∀ uid, uid ∉ dirty w ∨ uploads w !! uid = None →
       metaFiles (_flushDirty io w) !! uid = metaFiles w !! uid)
  ∧ flushAllMetadata io w = _flushDirty io w.
Proof.
  destruct (_flushDirty_fields io w) as (H1 & H2 & H3 & H4 & H5).
  split_and!; try done.
  - intros uid up Hup Hd. unfold _flushDirty.
    rewrite flush_loop_meta_all. simpl. rewrite Hup.
    by rewrite bool_decide_eq_true_2.
  - intros uid Hno. unfold _flushDirty.
    rewrite flush_loop_meta_all. simpl.
    destruct (uploads w !! uid) eqn:Hup; [|done].
    destruct Hno as [Hno|?]; [|done].
    by rewrite bool_decide_eq_false_2.
  - apply flushAllMetadata_eq.
Qed.

(* ===================================================================== *)
(** ** A new upload                                                       *)
(* ===================================================================== *)

Lemma filter_none {A} (P : A → Prop) `{∀ x, Decision (P x)} (l : list A) :
  (∀ x, x ∈ l → ¬ P x) → filter P l = [].
Proof.
  induction l as [|a l IH]; intros Hn; [done|].
  rewrite filter_cons_False by (apply Hn; by left).
  apply IH. intros x Hx. apply Hn. by right.
Qed.

Lemma filter_all {A} (P : A → Prop) `{∀ x, Decision (P x)} (l : list A) :
  (∀ x, x ∈ l → P x) → filter P l = l.
Proof.
  induction l as [|a l IH]; intros Hn; [done|].
  rewrite filter_cons_True by (apply Hn; by left).
  f_equal. apply IH. intros x Hx. apply Hn. by right.
Qed.

Lemma createUpload_Returns_io basename uuid now io fname total cs w uid w' :
  createUpload basename uuid now io fname total cs w = (Returns uid, w') → io = io_fine.
Proof.
  unfold createUpload. destruct (BitSet.new _); [|done].
  by destruct io as [[|c|c] [c1|] [c2|] [c3|]].
Qed.

(** A [createUpload] that returns has made every system call succeed;
    the destination file exists with exactly [totalSize] zero bytes, the
    initial snapshot is on disk, the upload is registered with an empty
    lock set and a pending flush, no chunk is received and every chunk of
    the range is missing. *)
Theorem createUpload_success basename uuid now io fname total cs w uid w' :
  createUpload basename uuid now io fname total cs w = (Returns uid, w') →
  uid = uuid
  ∧ io = io_fine
  ∧ dataFiles w' !! _filePath uuid (basename fname)
    = Some (replicate (Z.to_nat total) x00)
  ∧ metaFiles w' !! uuid = Some (Json (new_meta basename uuid now fname total cs))
  ∧ locks w' !! uuid = Some []
  ∧ uuid ∈ dirty w'
  ∧ _debounceTimer w' = true
  ∧ ∃ up, uploads w' !! uuid = Some up
          ∧ totalSize up = total
          ∧ chunkSize up = default (64 * 1024 * 1024) cs
          ∧ completed up = false
          ∧ getReceivedChunksArray uuid w' = ([], w')
          ∧ getMissingChunks uuid w' = (Returns (chunk_range up), w').
Proof.
  intros Hc.
  pose proof (createUpload_Returns_io _ _ _ _ _ _ _ _ _ _ Hc) as Hio.
  pose proof (createUpload_Returns _ _ _ _ _ _ _ _ _ _ Hc)
    as (-> & bs & Hnew & Hu & Hl & Hd & Ht & Hm & Hf).
  split; [done|]. split; [done|].
  rewrite Hf, Hm, Hl, Hd, Hu, !lookup_insert_eq.
  split_and!; try done.
  { apply elem_of_add. by left. }
  eexists. split; [done|]. simpl. split_and!; try done.
  - unfold getReceivedChunksArray.
    rewrite (getUpload_cached uuid w' (new_upload basename uuid now fname total cs bs))
      by (by rewrite Hu, lookup_insert_eq).
    simpl. by rewrite (toArray_new _ _ Hnew).
  - unfold getMissingChunks.
    rewrite (getUpload_cached uuid w' (new_upload basename uuid now fname total cs bs))
      by (by rewrite Hu, lookup_insert_eq).
    unfold chunk_range. simpl.
    destruct (new_spec _ _ Hnew) as (Hlen & _ & Hfresh).
    destruct (ceil_div total (default (64 * 1024 * 1024) cs)) as [n| | |] eqn:Hn;
      try done.
    do 2 f_equal. apply filter_all. intros x _. apply Hfresh.
Qed.

Lemma createUpload_success_witness :
  createUpload (λ s, s) "u1" 0 io_fine "f.bin" 150 (Some 64) (boot ∅ ∅)
    = (Returns "u1", w_created)
  ∧ dataFiles w_created !! _filePath "u1" "f.bin" = Some (replicate 150 x00)
  ∧ locks w_created !! "u1" = Some [].
Proof.
  assert (H : createUpload (λ s, s) "u1" 0 io_fine "f.bin" 150 (Some 64) (boot ∅ ∅)
              = (Returns "u1", w_created)) by (vm_compute; reflexivity).
  split; [exact H|].
  destruct (createUpload_success _ _ _ _ _ _ _ _ _ _ H)
    as (_ & _ & Hf & _ & Hl & _).
  split; [exact Hf|exact Hl].
Defined.

(* ===================================================================== *)
(** ** What reachable states exclude                                      *)
(* ===================================================================== *)

(** In every state reached from a start of the process, a registered
    upload has its lock set, so [writeChunkAt] never fails on
    [this.locks.get(id)] being undefined; it returns, or throws one of
    [upload_not_found], [chunk_write_in_progress],
    [transient_write_failure] or an error of the streams. *)
Theorem writeChunkAt_outcomes basename ops metas datas uid offset ev :
  match (writeChunkAt uid offset ev (run basename ops (boot metas datas))).1 with
  | Returns _ => True
  | Throws e =>
      e = upload_not_found ∨ e = chunk_write_in_progress
      ∨ e = transient_write_failure ∨ ∃ c, e = SysError c ∧ isBadFd c = false
  | Diverges => False
  end.
Proof.
  pose proof (run_registry_ok basename ops _ (boot_registry_ok metas datas)) as Hok.
  set (w := run basename ops (boot metas datas)) in *.
  unfold writeChunkAt.
  destruct (writeChunkAt_begin uid offset w) as [[r|p] w1] eqn:Hb.
  - unfold writeChunkAt_begin in Hb.
    destruct (getUpload uid w) as [[up|] w0] eqn:Hget.
    + destruct (getUpload_registry_ok _ _ _ _ Hok Hget) as [_ [lockSet Hl]].
      rewrite Hl in Hb.
      destruct (BitSet.has _ _); [by injection Hb as <- _|].
      destruct (JSSet.has _ _); [|done].
      injection Hb as <- _. simpl. by right; left.
    + injection Hb as <- _. simpl. by left.
  - destruct (writeChunkAt_settle p ev w1) as [r w2] eqn:Hs. simpl.
    apply writeChunkAt_settle_cases in Hs
      as [_ [(data & content & _ & _ & _ & -> & _)|(c & -> & _)]]; [done|].
    destruct (isBadFd c) eqn:Hc; [by right; right; left|].
    right; right; right. by exists c.
Qed.

(* ===================================================================== *)
(** ** Received and missing chunks                                        *)
(* ===================================================================== *)

(** For an upload with positive sizes, the missing chunks and the
    received chunks split the range [0 .. totalChunks - 1]: together they
    are a permutation of it, no index is in both, their counts add up to
    [totalChunks], and nothing is missing exactly when the received list
    is the whole range. *)
Theorem received_and_missing_partition uid w up w1 :
  getUpload uid w = (Some up, w1) →
  descriptor_ok up →
  0 < totalSize up →
  0 < chunkSize up →
  ∃ n missing,
    ceil_div (totalSize up) (chunkSize up) = Fin n
    ∧ getMissingChunks uid w = (Returns missing, w1)
    ∧ missing ++ BitSet.toArray (receivedBitset up) ≡ₚ BitSet.upto n
    ∧ (∀ i, i ∈ missing → i ∉ BitSet.toArray (receivedBitset up))
    ∧ Z.of_nat (Datatypes.length missing)
      + Z.of_nat (Datatypes.length (BitSet.toArray (receivedBitset up))) = n
    ∧ (missing = [] ↔ BitSet.toArray (receivedBitset up) = BitSet.upto n).
Proof.
  intros Hget Hok Ht Hc.
  destruct (ceil_div_pos _ _ Ht Hc) as (n & Hn & Hn1 & _).
  pose proof (descriptor_ok_range up Hok) as Hr. rewrite Hn in Hr.
  rewrite Z.max_r in Hr by lia.
  exists n, (filter (λ i, BitSet.has (Fin i) (receivedBitset up) = false) (BitSet.upto n)).
  split; [done|]. split.
  { unfold getMissingChunks. by rewrite Hget, Hn. }
  assert (Hrec : BitSet.toArray (receivedBitset up)
                 = filter (λ i, BitSet.has (Fin i) (receivedBitset up) = true)
                          (BitSet.upto n)).
  { unfold BitSet.toArray. by rewrite Hr. }
  assert (Hmiss : filter (λ i, BitSet.has (Fin i) (receivedBitset up) = false)
                         (BitSet.upto n)
                  = filter (λ i, ¬ (BitSet.has (Fin i) (receivedBitset up) = true))
                           (BitSet.upto n)).
  { apply filter_ext_elem. intros i _. by destruct (BitSet.has _ _). }
  assert (Hperm : filter (λ i, BitSet.has (Fin i) (receivedBitset up) = false)
                         (BitSet.upto n)
                  ++ BitSet.toArray (receivedBitset up) ≡ₚ BitSet.upto n).
  { rewrite Hmiss, Hrec. rewrite (comm (++)). apply filter_app_complement. }
  split; [done|]. split.
  { intros i Hi%list_elem_of_filter Hin%elem_of_toArray.
    destruct Hi as [Hf _], Hin as (_ & _ & _ & Hh). congruence. }
  split.
  { apply Permutation_length in Hperm. rewrite length_app in Hperm.
    unfold BitSet.upto in Hperm at 2. rewrite length_fmap, length_seq in Hperm. lia. }
  split.
  - intros Hnil. rewrite Hrec. apply filter_all. intros i Hi.
    destruct (BitSet.has (Fin i) (receivedBitset up)) eqn:Hh; [done|].
    assert (i ∈ filter (λ i, BitSet.has (Fin i) (receivedBitset up) = false)
                       (BitSet.upto n)) as Hin by (by apply list_elem_of_filter).
    rewrite Hnil in Hin. by apply elem_of_nil in Hin.
  - intros Hall. apply filter_none. intros i Hi Hf.
    rewrite <- Hall in Hi. apply elem_of_toArray in Hi as (_ & _ & _ & Hh). congruence.
Qed.

Lemma received_and_missing_partition_witness :
  getUpload "u2" w_ten = (Some up_ten, w_ten)
  ∧ descriptor_ok up_ten
  ∧ 0 < totalSize up_ten
  ∧ 0 < chunkSize up_ten
  ∧ ∃ n missing,
      ceil_div (totalSize up_ten) (chunkSize up_ten) = Fin n
      ∧ getMissingChunks "u2" w_ten = (Returns missing, w_ten)
      ∧ Z.of_nat (Datatypes.length missing)
        + Z.of_nat (Datatypes.length (BitSet.toArray (receivedBitset up_ten))) = n.
Proof.
  assert (H1 : getUpload "u2" w_ten = (Some up_ten, w_ten)) by (vm_compute; reflexivity).
  assert (H2 : descriptor_ok up_ten).
  { split; [reflexivity|]. split; [reflexivity|]. vm_compute. discriminate. }
  assert (H3 : 0 < totalSize up_ten) by reflexivity.
  assert (H4 : 0 < chunkSize up_ten) by reflexivity.
  split; [exact H1|]. split; [exact H2|]. split; [exact H3|]. split; [exact H4|].
  destruct (received_and_missing_partition "u2" w_ten up_ten w_ten H1 H2 H3 H4)
    as (n & missing & Hn & Hm & _ & _ & Hlen & _).
  exists n, missing. auto.
Defined.

(* ===================================================================== *)
(** ** Shutdown and restart                                               *)
(* ===================================================================== *)

Lemma reload_from_snapshot uid w up :
  metaFiles w !! uid = Some (Json (snapshot up)) →
  descriptor_ok up →
  ∃ bs w1,
    getUpload uid (restart w)
    = (Some (mkUpload (id up) (filename up) (totalSize up) (chunkSize up)
                      (createdAt up) (filePath up) (completed up) bs), w1)
    ∧ BitSet.toArray bs = BitSet.toArray (receivedBitset up).
Proof.
  intros Hm [Hlen Hsz].
  destruct (fromArray_toArray _ Hsz) as (b' & Hfrom & _ & Harr & _).
  rewrite Hlen in Hfrom. exists b'.
  unfold getUpload, restart, boot. simpl. rewrite lookup_empty, Hm. simpl.
  rewrite Hfrom. eexists. by split.
Qed.

(** The flush of [shutdown] followed by a restart keeps what the status
    handler reports for an upload with unflushed changes whose snapshot
    write succeeds: the same sizes, the same number of chunks and exactly
    the chunks that were received in memory. *)
Theorem shutdown_then_restart io w uid up :
  uploads w !! uid = Some up →
  descriptor_ok up →
  uid ∈ dirty w →
  io uid = WfOk →
  (getStatus uid (restart (shutdown io w))).1 = (getStatus uid w).1
  ∧ (getStatus uid w).1
    = Status200 (mkStatusBody uid (filename up) (totalSize up) (chunkSize up)
                   (ceil_div (totalSize up) (chunkSize up))
                   (BitSet.toArray (receivedBitset up))
                   (Z.of_nat (Datatypes.length (BitSet.toArray (receivedBitset up))))).
Proof.
  intros Hup Hok Hd Hio.
  pose proof (flushAllMetadata_persists io w uid up Hup Hd Hio) as Hm.
  destruct (reload_from_snapshot uid (shutdown io w) up Hm Hok) as (bs & w1 & Hget & Harr).
  assert (Hbefore : (getStatus uid w).1
    = Status200 (mkStatusBody uid (filename up) (totalSize up) (chunkSize up)
                   (ceil_div (totalSize up) (chunkSize up))
                   (BitSet.toArray (receivedBitset up))
                   (Z.of_nat (Datatypes.length (BitSet.toArray (receivedBitset up)))))).
  { unfold getStatus, getReceivedChunksArray.
    by rewrite !(getUpload_cached _ _ _ Hup). }
  split; [|done]. rewrite Hbefore.
  unfold getStatus. rewrite Hget. unfold getReceivedChunksArray.
  rewrite (getUpload_again _ _ _ _ Hget). simpl. by rewrite Harr.
Qed.

Lemma shutdown_then_restart_witness :
  uploads w_chunk2 !! "u1" = Some up_chunk2
  ∧ descriptor_ok up_chunk2
  ∧ "u1" ∈ dirty w_chunk2
  ∧ (getStatus "u1" (restart (shutdown (λ _, WfOk) w_chunk2))).1
    = (getStatus "u1" w_chunk2).1.
Proof.
  assert (H1 : uploads w_chunk2 !! "u1" = Some up_chunk2) by (vm_compute; reflexivity).
  assert (H2 : descriptor_ok up_chunk2).
  { split; [reflexivity|]. split; [reflexivity|]. vm_compute. discriminate. }
  assert (H3 : "u1" ∈ dirty w_chunk2).
  { apply (has_true "u1" (dirty w_chunk2)). vm_compute. reflexivity. }
  split; [exact H1|]. split; [exact H2|]. split; [exact H3|].
  exact (proj1 (shutdown_then_restart (λ _, WfOk) w_chunk2 "u1" up_chunk2 H1 H2 H3 eq_refl)).
Defined.

(* ===================================================================== *)
(** ** The PUT handler                                                    *)
(* ===================================================================== *)











(** The bound on the total size is needed.  Against a total size of 2^53
    the pair (2^53, 1) passes the check, as the sum 2^53 + 1 is rounded
    to 2^53; with chunks of 2^50 bytes its chunk index 8 is not below the
    number of chunks, which is 8. *)
Lemma range_check_rounds_the_sum :
  invalid_range (Fin (2 ^ 53)) (Fin 1) (2 ^ 53) = false
  ∧ num_add (Fin (2 ^ 53)) (Fin 1) = Fin (2 ^ 53)
  ∧ floor_div (2 ^ 53) (2 ^ 50) = Fin 8
  ∧ ceil_div (2 ^ 53) (2 ^ 50) = Fin 8.
Proof. by vm_compute. Qed.


(** A [writeChunkAt] that does not resolve with a fresh write leaves the
    registry, the lock table, the dirty set, the timer and the snapshot
    files as the lookup of the upload left them. *)
Lemma writeChunkAt_not_written uid offset ev w r w' :
  writeChunkAt uid offset ev w = (r, w') →
  (∀ n, r ≠ Returns (mkWriteResult false n)) →
  uploads w' = uploads (getUpload uid w).2
  ∧ locks w' = locks (getUpload uid w).2
  ∧ dirty w' = dirty w
  ∧ _debounceTimer w' = _debounceTimer w
  ∧ metaFiles w' = metaFiles w.
Proof.
  unfold writeChunkAt. intros Hw Hr.
  destruct (writeChunkAt_begin uid offset w) as [[r0|p] w1] eqn:Hb.
  - injection Hw as <- <-. unfold writeChunkAt_begin in Hb.
    destruct (getUpload uid w) as [[up|] w0] eqn:Hget; simpl.
    + pose proof (getUpload_Some _ _ _ _ Hget) as (_ & _ & _ & _ & _ & Hd & Ht & Hm & _).
      assert (w1 = w0) as ->; [|done].
      destruct (BitSet.has _ _); [by injection Hb|].
      destruct (locks w0 !! uid); [|by injection Hb].
      destruct (JSSet.has _ _); [by injection Hb|done].
    + apply getUpload_None in Hget as [-> _]. by injection Hb as _ <-.
  - apply writeChunkAt_begin_pending in Hb
      as (up & w0 & lockSet & Hget & Hl & Hnin & _ & Hp & ->).
    assert (Hid : p_id p = uid) by (by rewrite Hp).
    pose proof (settle_locks_restored p ev w0 lockSet) as Hrest.
    rewrite Hid in Hrest. specialize (Hrest Hl Hnin). rewrite Hw in Hrest.
    pose proof (getUpload_Some _ _ _ _ Hget) as (_ & _ & _ & _ & _ & Hd & Ht & Hm & _).
    apply writeChunkAt_settle_cases in Hw as [Hmf Hcases]. simpl in *.
    destruct Hcases as [(data & content & _ & _ & _ & -> & _)|(c & _ & _ & Hu & Hdi & Hti)].
    { by specialize (Hr (Z.of_nat (Datatypes.length data))). }
    rewrite Hget. simpl. split_and!; congruence.
Qed.

(** Every answer of the PUT handler other than the 200 of a fresh write
    (404, the three 400, the 200 of an already received chunk, 409, 503,
    507, 500) leaves the registry, the lock table, the dirty set, the
    timer and the snapshot files as the lookup of the upload left them:
    no answer of failure leaves a bit set or an index locked. *)
Theorem putChunk_failure_leaves_no_trace uid h ev w :
  match (putChunk uid h ev w).1 with
  | Put200_written _ => True
  | _ =>
      uploads (putChunk uid h ev w).2 = uploads (getUpload uid w).2
      ∧ locks (putChunk uid h ev w).2 = locks (getUpload uid w).2
      ∧ dirty (putChunk uid h ev w).2 = dirty w
      ∧ _debounceTimer (putChunk uid h ev w).2 = _debounceTimer w
      ∧ metaFiles (putChunk uid h ev w).2 = metaFiles w
  end.
Proof.
  unfold putChunk.
  destruct (getUpload uid w) as [[up|] w1] eqn:Hget.
  2:{ simpl. by apply getUpload_None in Hget as [-> _]. }
  pose proof (getUpload_Some _ _ _ _ Hget) as (_ & _ & _ & _ & _ & Hd & Ht & Hm & _).
  pose proof (getUpload_again _ _ _ _ Hget) as Hget1.
  destruct (range_of_headers h) as [err|[offset length]]; [done|].
  destruct (invalid_range _ _ _); [done|].
  destruct offset as [o| | |]; try done.
  destruct (writeChunkAt uid o ev w1) as [r w2] eqn:Hw.
  pose proof (writeChunkAt_not_written _ _ _ _ _ _ Hw) as Hnw.
  rewrite Hget1 in Hnw. simpl in Hnw.
  destruct r as [[[] n]|e|]; simpl; try done.
  - destruct Hnw as (? & ? & ? & ? & ?); [done|]. split_and!; congruence.
  - assert (uploads w2 = uploads w1 ∧ locks w2 = locks w1 ∧ dirty w2 = dirty w
            ∧ _debounceTimer w2 = _debounceTimer w ∧ metaFiles w2 = metaFiles w) as Hall.
    { destruct Hnw as (? & ? & ? & ? & ?); [done|]. split_and!; congruence. }
    by destruct (put_error e).
  - destruct Hnw as (? & ? & ? & ? & ?); [done|]. split_and!; congruence.
Qed.

(** The status of an answer of failure tells the failure: 503 only for
    a stream error with code [EBADF] or [ERR_STREAM_PREMATURE_CLOSE], 507
    only for a stream error with code [ENOSPC], 409 only when the upload
    resolves and the range was accepted while the chunk was locked. *)
Theorem putChunk_status_sound uid h ev w :
  ((putChunk uid h ev w).1 = Put503 →
     ∃ c data, ev = EvError c data ∧ isBadFd c = true)
  ∧ ((putChunk uid h ev w).1 = Put507 →
     ∃ data, ev = EvError ENOSPC data)
  ∧ ((putChunk uid h ev w).1 = Put409 →
     ∃ up w1 o l,
       getUpload uid w = (Some up, w1)
       ∧ range_of_headers h = inr (Fin o, l)
       ∧ invalid_range (Fin o) l (totalSize up) = false
       ∧ locked uid (floor_div o (chunkSize up)) w1 = true).
Proof.
  unfold putChunk.
  destruct (getUpload uid w) as [[up|] w1] eqn:Hget; [|done].
  pose proof (getUpload_again _ _ _ _ Hget) as Hget1.
  destruct (range_of_headers h) as [err|[offset length]]; [done|].
  destruct (invalid_range _ _ _) eqn:Hinv; [done|].
  destruct offset as [o| | |]; try done.
  unfold writeChunkAt.
  destruct (writeChunkAt_begin uid o w1) as [[r0|p] w2] eqn:Hb.
  - unfold writeChunkAt_begin in Hb. rewrite Hget1 in Hb.
    destruct (BitSet.has _ _).
    { injection Hb as <- <-. done. }
    destruct (locks w1 !! uid) as [lockSet|] eqn:Hl.
    2:{ injection Hb as <- <-. done. }
    destruct (JSSet.has _ lockSet) eqn:Hin; [|done].
    injection Hb as <- <-. simpl. split_and!; try done.
    intros _. exists up, w1, o, length. split_and!; try done.
    unfold locked. by rewrite Hl.
  - destruct (writeChunkAt_settle p ev w2) as [r w3] eqn:Hs.
    apply writeChunkAt_settle_cases in Hs as [_ Hcases].
    destruct Hcases as [(data & content & _ & _ & _ & -> & _)|(c & -> & Hwhy & _)].
    { done. }
    simpl. destruct (isBadFd c) eqn:Hc; simpl.
    + split_and!; try done. intros _.
      destruct Hwhy as [[_ ->]|[(_ & _ & ->)|(data & ->)]]; try done.
      by exists c, data.
    + split_and!.
      * by destruct c.
      * intros H507. assert (c = ENOSPC) as -> by (by destruct c).
        destruct Hwhy as [[_ ?]|[(_ & _ & ?)|(data & ->)]]; try done.
        by exists data.
      * by destruct c.
Qed.

(* ===================================================================== *)
(** ** The initiate and DELETE handlers                                   *)
(* ===================================================================== *)

(** What the answers of the initiate handler mean.  A 200 is given only
    for a non-empty file name and a truthy total size, when every system
    call succeeded; it carries the generated id and the number of the
    chunk size of the request, or 64 MiB when that field is falsy, and
    the upload is then registered with the number of the total size and
    reports no received chunk.  The 400 for a missing field is given
    exactly for an empty file name or a falsy total size; a 400 changes
    nothing.  A 507 or 500 leaves the registry and the lock table as they
    were. *)
Theorem initiate_answers basename uuid now io body w :
  match (initiate basename uuid now io body w).1 with
  | Initiate200 uid cs =>
      uid = uuid
      ∧ io = io_fine
      ∧ (∃ b total up,
           body = Some b
           ∧ b_filename b ≠ ""
           ∧ b_totalSize b = Truthy total
           ∧ cs = match b_chunkSize b with
                  | Truthy chunkSize => chunkSize
                  | Falsy => 64 * 1024 * 1024
                  end
           ∧ uploads (initiate basename uuid now io body w).2 !! uuid = Some up
           ∧ totalSize up = total
           ∧ chunkSize up = cs)
      ∧ getReceivedChunksArray uuid (initiate basename uuid now io body w).2
        = ([], (initiate basename uuid now io body w).2)
  | Initiate400_json =>
      body = None
      ∧ (initiate basename uuid now io body w).2 = w
  | Initiate400_required =>
      (∃ b, body = Some b ∧ (b_filename b = "" ∨ truthy (b_totalSize b) = false))
      ∧ (initiate basename uuid now io body w).2 = w
  | Initiate507 | Initiate500 =>
      (∃ b, body = Some b ∧ b_filename b ≠ "" ∧ truthy (b_totalSize b) = true)
      ∧ uploads (initiate basename uuid now io body w).2 = uploads w
      ∧ locks (initiate basename uuid now io body w).2 = locks w
  end.
Proof.
  unfold initiate. destruct body as [b|]; [|done].
  destruct (b_totalSize b) as [|total] eqn:Htotal.
  { simpl. split; [|done]. exists b. split; [done|]. right. by rewrite Htotal. }
  destruct (String.eqb_spec (b_filename b) "") as [Hname|Hname].
  { simpl. split; [|done]. exists b. split; [done|]. by left. }
  assert (Hb : ∃ b', Some b = Some b' ∧ b_filename b' ≠ "" ∧ truthy (b_totalSize b') = true).
  { exists b. by rewrite Htotal. }
  destruct (createUpload _ _ _ _ _ _ _ _) as [[uid|e|] w1] eqn:Hc.
  - pose proof (createUpload_Returns_io _ _ _ _ _ _ _ _ _ _ Hc) as Hio.
    pose proof (createUpload_Returns _ _ _ _ _ _ _ _ _ _ Hc)
      as (-> & bs & Hnew & Hu & _).
    assert (Hreg : uploads w1 !! uuid
                   = Some (new_upload basename uuid now (b_filename b) total
                             (match b_chunkSize b with
                              | Truthy chunkSize => Some chunkSize
                              | Falsy => None
                              end) bs))
      by (by rewrite Hu, lookup_insert_eq).
    rewrite (getUpload_cached _ _ _ Hreg). simpl.
    split_and!; try done.
    + exists b, total. eexists. split_and!; try done; by destruct (b_chunkSize b).
    + unfold getReceivedChunksArray. rewrite (getUpload_cached _ _ _ Hreg). simpl.
      by rewrite (toArray_new _ _ Hnew).
  - apply createUpload_Throws in Hc as (Hu & Hl & _).
    destruct e as [| | |[]| |]; done.
  - exfalso. revert Hc. unfold createUpload.
    destruct (BitSet.new _); [|done].
    by destruct io as [[|c|c] [c1|] [c2|] [c3|]].
Qed.

(** Truthiness is tested before [Number] is applied.  A total size sent
    as the string ['0'] is truthy: the handler answers 200 and registers
    an upload of zero bytes, while the number [0] is answered 400.  A
    chunk size sent as the string ['0'] reaches [createUpload] as zero:
    no bitmap can be built and the handler answers 500. *)
Lemma initiate_zero_as_string :
  (initiate (λ s, s) "u5" 0 io_fine
     (Some (mkInitiateBody "a.bin" (Truthy 0) Falsy)) (boot ∅ ∅)).1
  = Initiate200 "u5" (64 * 1024 * 1024)
  ∧ totalSize <$> uploads (initiate (λ s, s) "u5" 0 io_fine
                            (Some (mkInitiateBody "a.bin" (Truthy 0) Falsy)) (boot ∅ ∅)).2
                  !! "u5" = Some 0
  ∧ initiate (λ s, s) "u5" 0 io_fine
      (Some (mkInitiateBody "a.bin" Falsy Falsy)) (boot ∅ ∅)
    = (Initiate400_required, boot ∅ ∅)
  ∧ initiate (λ s, s) "u5" 0 io_fine
      (Some (mkInitiateBody "a.bin" (Truthy 150) (Truthy 0))) (boot ∅ ∅)
    = (Initiate500, boot ∅ ∅).
Proof. by vm_compute. Qed.

(** The DELETE handler answers 404 for an upload that does not resolve
    and 200 otherwise, never 500, and its effect is that of
    [abortUpload]. *)
Theorem deleteUpload_answers io uid w :
  deleteUpload io uid w
  = (match (getUpload uid w).1 with
     | Some _ => Delete200
     | None => Delete404
     end, (abortUpload io uid w).2).
Proof.
  unfold deleteUpload.
  destruct (getUpload uid w) as [[up|] w1] eqn:Hget; simpl.
  - pose proof (getUpload_again _ _ _ _ Hget) as Hget1.
    unfold abortUpload. rewrite Hget, Hget1. done.
  - apply getUpload_None in Hget as Hn. destruct Hn as [-> _].
    rewrite abortUpload_unresolved; [done|]. by rewrite Hget.
Qed.

(* ===================================================================== *)
(** ** The client: lanes                                                  *)
(* ===================================================================== *)

Lemma from_to_empty a b : b ≤ a → from_to a b = [].
Proof. intros H. unfold from_to. by replace (Z.to_nat (b - a)) with 0%nat by lia. Qed.

Lemma from_to_app a b c : a ≤ b ≤ c → from_to a b ++ from_to b c = from_to a c.
Proof.
  intros H. unfold from_to.
  replace (Z.to_nat (c - a)) with (Z.to_nat (b - a) + Z.to_nat (c - b))%nat by lia.
  rewrite seq_app, fmap_app. f_equal. simpl.
  replace (seq (Z.to_nat (b - a)) (Z.to_nat (c - b)))
    with (Nat.add (Z.to_nat (b - a)) <$> seq 0 (Z.to_nat (c - b)))
    by (rewrite fmap_add_seq; f_equal; lia).
  rewrite <- list_fmap_compose. apply list_fmap_ext. intros ? k _. simpl. lia.
Qed.

Lemma from_to_upto n : from_to 0 n = BitSet.upto n.
Proof.
  unfold from_to, BitSet.upto. rewrite Z.sub_0_r.
  apply list_fmap_ext. intros ? k _. lia.
Qed.

(** The body of the outer loop of [buildLanes]. *)
Lemma buildLanes_loop total (received : list Z) cpl k :
  0 ≤ total → 0 ≤ cpl →
  let lanes :=
    foldl (λ lanes i,
             let lane := filter (λ c, JSSet.has c received = false)
                                (from_to (i * cpl) (Z.min total ((i + 1) * cpl))) in
             if 0 <? Z.of_nat (Datatypes.length lane) then lanes ++ [lane] else lanes)
          [] (Z.of_nat <$> seq 0 k) in
  concat lanes
  = filter (λ c, JSSet.has c received = false)
           (from_to 0 (Z.min total (Z.of_nat k * cpl)))
  ∧ Forall (λ lane, lane ≠ []) lanes
  ∧ (Datatypes.length lanes ≤ k)%nat.
Proof.
  intros Ht Hc. cbv zeta. induction k as [|k IH].
  { simpl. split; [|split; [constructor|lia]].
    rewrite from_to_empty; [done|lia]. }
  rewrite seq_S, fmap_app, foldl_app. simpl.
  destruct IH as (Hcat & Hne & Hlen).
  set (lanes := foldl _ [] (Z.of_nat <$> seq 0 k)) in *.
  set (lane := filter _ (from_to (Z.of_nat k * cpl) _)).
  assert (Hstep : concat lanes ++ lane
                  = filter (λ c, JSSet.has c received = false)
                           (from_to 0 (Z.min total (Z.of_nat (S k) * cpl)))).
  { rewrite Hcat. unfold lane. rewrite <- filter_app. f_equal.
    destruct (Z_le_dec (Z.of_nat k * cpl) total).
    - rewrite (Z.min_r total (Z.of_nat k * cpl)) by lia.
      replace (Z.of_nat (S k) * cpl) with ((Z.of_nat k + 1) * cpl) by lia.
      apply from_to_app. nia.
    - rewrite (Z.min_l total (Z.of_nat k * cpl)) by lia.
      replace (Z.of_nat (S k) * cpl) with ((Z.of_nat k + 1) * cpl) by lia.
      rewrite (Z.min_l total ((Z.of_nat k + 1) * cpl)) by nia.
      rewrite (from_to_empty (Z.of_nat k * cpl)) by lia. by rewrite app_nil_r. }
  destruct lane as [|c lane'] eqn:Hlane; simpl.
  - rewrite <- Hstep, app_nil_r. split; [done|]. split; [done|lia].
  - rewrite concat_app. simpl. rewrite app_nil_r. split; [done|].
    split; [apply Forall_app; split; [done|by repeat constructor]|].
    rewrite length_app. simpl. lia.
Qed.

Lemma buildLanes_concat total received conc :
  0 ≤ total → 0 < conc →
  concat (buildLanes total received conc)
  = filter (λ c, JSSet.has c received = false) (BitSet.upto total)
  ∧ Forall (λ lane, lane ≠ []) (buildLanes total received conc)
  ∧ Z.of_nat (Datatypes.length (buildLanes total received conc)) ≤ conc.
Proof.
  intros Ht Hc. unfold buildLanes.
  destruct (Z.leb_spec conc 0); [lia|].
  set (cpl := - (- total / conc)).
  assert (Hcpl : 0 ≤ cpl ∧ total ≤ conc * cpl).
  { unfold cpl. pose proof (Z.div_mod (- total) conc ltac:(lia)).
    pose proof (Z.mod_pos_bound (- total) conc Hc). nia. }
  destruct (buildLanes_loop total received cpl (Z.to_nat conc) Ht (proj1 Hcpl))
    as (Hcat & Hne & Hlen).
  change (BitSet.upto conc) with (Z.of_nat <$> seq 0 (Z.to_nat conc)).
  cbv zeta in *.
  split; [|split; [done|lia]].
  rewrite Hcat, Z.min_l by lia. by rewrite from_to_upto.
Qed.



(** The lanes that the client builds from the status of an upload with
    positive sizes are, one after the other, the list that
    [getMissingChunks] returns for it: the client sends exactly the
    chunks whose absence would make the complete handler answer 400. *)
Theorem lanes_are_the_missing_chunks uid w up w1 n conc :
  getUpload uid w = (Some up, w1) →
  descriptor_ok up →
  ceil_div (totalSize up) (chunkSize up) = Fin n →
  0 ≤ n →
  0 < conc →
  getMissingChunks uid w
  = (Returns (concat (buildLanes n (getReceivedChunksArray uid w).1 conc)), w1).
Proof.
  intros Hget Hok Hn Hn0 Hc.
  rewrite (getMissingChunks_complement _ _ _ _ Hget Hok).
  unfold getReceivedChunksArray. rewrite Hget. simpl.
  destruct (buildLanes_concat n (BitSet.toArray (receivedBitset up)) conc Hn0 Hc)
    as (-> & _).
  unfold complement_of_received, chunk_range. rewrite Hn.
  do 2 f_equal. apply filter_ext_elem. intros c _. symmetry. apply has_false.
Qed.

Lemma lanes_are_the_missing_chunks_witness :
  getUpload "u2" w_ten = (Some up_ten, w_ten)
  ∧ descriptor_ok up_ten
  ∧ ceil_div (totalSize up_ten) (chunkSize up_ten) = Fin 10
  ∧ getMissingChunks "u2" w_ten
    = (Returns (concat (buildLanes 10 (getReceivedChunksArray "u2" w_ten).1 4)), w_ten).
Proof.
  assert (H1 : getUpload "u2" w_ten = (Some up_ten, w_ten)) by (vm_compute; reflexivity).
  assert (H2 : descriptor_ok up_ten).
  { split; [reflexivity|]. split; [reflexivity|]. vm_compute. discriminate. }
  assert (H4 : 0 ≤ 10) by lia. assert (H5 : 0 < 4) by lia.
  split; [exact H1|]. split; [exact H2|]. split; [reflexivity|].
  exact (lanes_are_the_missing_chunks "u2" w_ten up_ten w_ten 10 4 H1 H2 eq_refl H4 H5).
Defined.

(* ===================================================================== *)
(** ** The client: byte ranges and retries                                *)
(* ===================================================================== *)



Lemma uploadChunk_retriable r err :
  uploadChunk r = Some err →
  e_transient err || e_isTypeError err || bool_decide (e_status err = Some 409)
  = retriable r.
Proof.
  destruct r as [s|]; simpl; [|by intros [= <-]].
  destruct (Z.eqb_spec s 200); [done|].
  destruct (Z.eqb_spec s 409) as [->|Hne]; intros [= <-]; simpl; [done|].
  rewrite orb_false_r.
  rewrite bool_decide_eq_false_2 by congruence. apply orb_false_r.
Qed.

Lemma uploadChunk_None r : uploadChunk r = None ↔ r = Http 200.
Proof.
  destruct r as [s|]; simpl; [|split; done].
  destruct (Z.eqb_spec s 200) as [->|Hne]; [done|].
  destruct (s =? 409); split; try done; intros [= ?]; done.
Qed.

Lemma retry_loop_spec fetches fuel attempt :
  0 ≤ attempt ≤ 6 →
  (Z.to_nat (7 - attempt) ≤ fuel)%nat →
  ∃ r n,
    retry_loop fuel attempt fetches = Some (r, n)
    ∧ attempt + 1 ≤ n ≤ 7
    ∧ (∀ k, attempt ≤ k < n - 1 → retriable (fetches k) = true)
    ∧ match r with
      | None => fetches (n - 1) = Http 200
      | Some err =>
          uploadChunk (fetches (n - 1)) = Some err
          ∧ (n < 7 → retriable (fetches (n - 1)) = false)
      end.
Proof.
  revert attempt. induction fuel as [|fuel IH]; intros attempt Ha Hf; [lia|].
  simpl. destruct (Z.leb_spec attempt 6); [|lia].
  destruct (uploadChunk (fetches attempt)) as [err|] eqn:Hu.
  - rewrite (uploadChunk_retriable _ _ Hu).
    destruct (retriable (fetches attempt)) eqn:Hr; simpl.
    + destruct (Z.ltb_spec 6 (attempt + 1)).
      * exists (Some err), (attempt + 1). split; [done|]. split; [lia|].
        split; [intros k Hk; lia|].
        replace (attempt + 1 - 1) with attempt by lia. split; [done|lia].
      * destruct (IH (attempt + 1) ltac:(lia) ltac:(lia)) as (r & n & Hl & Hn & Hall & Hlast).
        exists r, n. split; [done|]. split; [lia|]. split; [|done].
        intros k Hk. destruct (Z.eq_dec k attempt) as [->|]; [done|].
        apply Hall. lia.
    + exists (Some err), (attempt + 1). split; [done|]. split; [lia|].
      split; [intros k Hk; lia|].
      replace (attempt + 1 - 1) with attempt by lia. done.
  - exists None, (attempt + 1). split; [done|]. split; [lia|].
    split; [intros k Hk; lia|].
    replace (attempt + 1 - 1) with attempt by lia. by apply uploadChunk_None.
Qed.

(** [uploadWithRetries] always ends, after at least one and at most seven
    requests.  Every request but the last failed in a way that is retried
    (a rejected fetch, a 409 or a 5xx, the 507 of a full disk included).
    It returns exactly when the last request was answered 200, and it
    throws the error of the last request when that one is not retried or
    was the seventh. *)
Theorem uploadWithRetries_bounded fetches :
  ∃ r n,
    uploadWithRetries fetches = Some (r, n)
    ∧ 1 ≤ n ≤ 7
    ∧ (∀ k, 0 ≤ k < n - 1 → retriable (fetches k) = true)
    ∧ match r with
      | None => fetches (n - 1) = Http 200
      | Some err =>
          uploadChunk (fetches (n - 1)) = Some err
          ∧ (n < 7 → retriable (fetches (n - 1)) = false)
      end.
Proof.
  destruct (retry_loop_spec fetches 8 0 ltac:(lia) ltac:(lia)) as (r & n & Hl & Hn & Hall & Hlast).
  exists r, n. split; [done|]. split; [lia|]. done.
Qed.

(* ===================================================================== *)
(** ** From the client to the bitmap                                      *)
(* ===================================================================== *)



(* ===================================================================== *)
(** ** Completion and abort                                               *)
(* ===================================================================== *)

(** Once nothing is missing, the complete handler answers 200, and after
    the flush of [shutdown] (with a successful write) and a restart the
    upload resolves to a descriptor that is completed, at the same path
    and with the same received chunks. *)
Theorem completion_survives_restart io uid w up w1 :
  getUpload uid w = (Some up, w1) →
  descriptor_ok up →
  complement_of_received up = [] →
  io uid = WfOk →
  (completeUpload uid w).1 = Returns (Complete200 (filePath up))
  ∧ ∃ up' w2,
      getUpload uid (restart (shutdown io (completeUpload uid w).2)) = (Some up', w2)
      ∧ completed up' = true
      ∧ filePath up' = filePath up
      ∧ BitSet.toArray (receivedBitset up') = BitSet.toArray (receivedBitset up).
Proof.
  intros Hget Hok Hnone Hio.
  pose proof (getUpload_again _ _ _ _ Hget) as Hget1.
  pose proof (getUpload_Some _ _ _ _ Hget) as (Hu1 & _).
  pose proof (getMissingChunks_complement _ _ _ _ Hget1 Hok) as Hmiss.
  assert (Hc : completeUpload uid w
               = (Returns (Complete200 (filePath up)),
                  _scheduleFlush uid (set_uploads (alter mark_completed uid) w1))).
  { unfold completeUpload. rewrite Hget, Hmiss, Hnone. simpl.
    unfold markCompleted. by rewrite Hget1. }
  rewrite Hc. simpl. split; [done|].
  set (w' := _scheduleFlush uid (set_uploads (alter mark_completed uid) w1)).
  destruct (_scheduleFlush_fields uid (set_uploads (alter mark_completed uid) w1))
    as (Hu & _ & Hd & _).
  assert (Hreg : uploads w' !! uid = Some (mark_completed up)).
  { unfold w'. rewrite Hu. simpl. by rewrite lookup_alter_eq, Hu1. }
  assert (Hdirty : uid ∈ dirty w').
  { unfold w'. rewrite Hd. apply elem_of_add. by left. }
  pose proof (flushAllMetadata_persists io w' uid _ Hreg Hdirty Hio) as Hm.
  assert (Hok' : descriptor_ok (mark_completed up)).
  { eapply descr_le_ok; [apply descr_le_mark_completed|done]. }
  destruct (reload_from_snapshot uid (shutdown io w') _ Hm Hok') as (bs & w2 & Hre & Harr).
  do 2 eexists. split; [exact Hre|]. simpl. done.
Qed.

Lemma completion_survives_restart_witness :
  getUpload "u1" w_full = (Some up_full, w_full)
  ∧ descriptor_ok up_full
  ∧ BitSet.toArray (receivedBitset up_full) = [0; 1; 2]
  ∧ complement_of_received up_full = []
  ∧ (completeUpload "u1" w_full).1 = Returns (Complete200 "f.bin.u1")
  ∧ ∃ up' w2,
      getUpload "u1" (restart (shutdown (λ _, WfOk) (completeUpload "u1" w_full).2))
      = (Some up', w2)
      ∧ completed up' = true
      ∧ filePath up' = "f.bin.u1"
      ∧ BitSet.toArray (receivedBitset up') = [0; 1; 2].
Proof.
  assert (H1 : getUpload "u1" w_full = (Some up_full, w_full)) by (vm_compute; reflexivity).
  assert (H2 : descriptor_ok up_full).
  { split; [reflexivity|]. split; [reflexivity|]. vm_compute. discriminate. }
  assert (H3 : complement_of_received up_full = []) by reflexivity.
  split; [exact H1|]. split; [exact H2|]. split; [reflexivity|]. split; [exact H3|].
  exact (completion_survives_restart (λ _, WfOk) "u1" w_full up_full w_full
           H1 H2 H3 eq_refl).
Defined.

(** [abortUpload] of one id leaves every other upload alone: its
    descriptor, its lock set, its snapshot file and its membership of the
    dirty set are as before. *)
Theorem abortUpload_other io uid w uid' :
  uid' ≠ uid →
  uploads (abortUpload io uid w).2 !! uid' = uploads w !! uid'
  ∧ locks (abortUpload io uid w).2 !! uid' = locks w !! uid'
  ∧ metaFiles (abortUpload io uid w).2 !! uid' = metaFiles w !! uid'
  ∧ (uid' ∈ dirty (abortUpload io uid w).2 ↔ uid' ∈ dirty w).
Proof.
  intros Hne.
  destruct (getUpload uid w) as [[up|] w1] eqn:Hget.
  - pose proof (getUpload_Some _ _ _ _ Hget) as (_ & Hu & Hl & _ & _ & _ & _ & Hm & _).
    unfold abortUpload. rewrite Hget. simpl.
    pose proof (unlink_data_fields (io_unlinkFile io) (filePath up) w1)
      as (D1 & D2 & D3 & D4 & D5 & _).
    pose proof (unlink_meta_fields (io_unlinkMeta io) uid
                  (unlink_data (io_unlinkFile io) (filePath up) w1).2)
      as (M1 & M2 & M3 & M4 & M5 & _).
    simpl in *. rewrite M1, D1, M2, D2, M3, D3.
    rewrite !lookup_delete_ne by done.
    split; [by apply Hu|]. split; [by apply Hl|]. split.
    + unfold unlink_meta. destruct (io_unlinkMeta io); simpl; [by rewrite D5, Hm|].
      destruct (metaFiles _ !! uid); simpl.
      * rewrite lookup_delete_ne by done. by rewrite D5, Hm.
      * by rewrite D5, Hm.
    + rewrite elem_of_delete.
      pose proof (getUpload_Some _ _ _ _ Hget) as (_ & _ & _ & _ & _ & -> & _).
      split; [by intros [_ ?]|done].
  - rewrite abortUpload_unresolved; [done|]. by rewrite Hget.
Qed.

Lemma abortUpload_other_witness :
  "u2" ≠ "u1"
  ∧ uploads w_two !! "u1" = Some up_chunk2
  ∧ uploads (abortUpload (mkAbortIO None None) "u1" w_two).2 !! "u1" = None
  ∧ uploads (abortUpload (mkAbortIO None None) "u1" w_two).2 !! "u2" = Some up_two
  ∧ locks (abortUpload (mkAbortIO None None) "u1" w_two).2 !! "u2" = Some [Fin 0]
  ∧ metaFiles (abortUpload (mkAbortIO None None) "u1" w_two).2 !! "u2"
    = Some (Json (snapshot up_two))
  ∧ "u2" ∈ dirty (abortUpload (mkAbortIO None None) "u1" w_two).2.
Proof.
  assert (H : "u2" ≠ "u1") by discriminate.
  assert (Hu : uploads w_two !! "u2" = Some up_two) by (vm_compute; reflexivity).
  assert (Hl : locks w_two !! "u2" = Some [Fin 0]) by (vm_compute; reflexivity).
  assert (Hm : metaFiles w_two !! "u2" = Some (Json (snapshot up_two)))
    by (vm_compute; reflexivity).
  assert (Hd : "u2" ∈ dirty w_two).
  { apply (proj1 (has_true "u2" (dirty w_two))). vm_compute. reflexivity. }
  destruct (abortUpload_other (mkAbortIO None None) "u1" w_two "u2" H)
    as (Hu' & Hl' & Hm' & Hd').
  split; [exact H|].
  split; [vm_compute; reflexivity|].
  split; [vm_compute; reflexivity|].
  split; [exact (eq_trans Hu' Hu)|].
  split; [exact (eq_trans Hl' Hl)|].
  split; [exact (eq_trans Hm' Hm)|].
  exact (proj2 Hd' Hd).
Defined.

(* ===================================================================== *)
(** ** Zero chunk size and the loop of getMissingChunks                   *)
(* ===================================================================== *)

(** A chunk size of zero with a positive total size makes the number of
    chunks infinite: [createUpload] throws a [RangeError] before any
    system call and changes nothing, and a snapshot with such sizes does
    not resolve (the lookup answers not found and caches nothing). *)
Theorem zero_chunkSize_rejected basename uuid now io fname total w :
  0 < total →
  createUpload basename uuid now io fname total (Some 0) w = (Throws RangeError, w)
  ∧ ∀ uid data,
      uploads w !! uid = None →
      metaFiles w !! uid = Some (Json data) →
      m_chunkSize data = 0 →
      0 < m_totalSize data →
      getUpload uid w = (None, w).
Proof.
  intros Ht. split.
  - unfold createUpload, ceil_div. simpl.
    destruct (Z.ltb_spec 0 total); [done|lia].
  - intros uid data Hu Hm Hc Hpos. unfold getUpload, BitSet.fromArray, ceil_div.
    rewrite Hu, Hm, Hc. simpl.
    destruct (Z.ltb_spec 0 (m_totalSize data)); [done|lia].
Qed.

Lemma zero_chunkSize_rejected_witness :
  0 < 150
  ∧ createUpload (λ s, s) "u9" 0 io_fine "z.bin" 150 (Some 0) (boot ∅ ∅)
    = (Throws RangeError, boot ∅ ∅).
Proof.
  assert (H : 0 < 150) by lia.
  split; [exact H|].
  exact (proj1 (zero_chunkSize_rejected (λ s, s) "u9" 0 io_fine "z.bin" 150 (boot ∅ ∅) H)).
Defined.

(** In every state reached from a start of the process, whatever the
    directory held, the loop of [getMissingChunks] has a finite bound:
    the call returns, and so does the complete handler. *)
Theorem getMissingChunks_returns basename ops metas datas uid :
  (∃ missing, (getMissingChunks uid (run basename ops (boot metas datas))).1
              = Returns missing)
  ∧ (∃ answer, (completeUpload uid (run basename ops (boot metas datas))).1
               = Returns answer).
Proof.
  pose proof (run_registry_ok basename ops _ (boot_registry_ok metas datas)) as Hok.
  set (w := run basename ops (boot metas datas)) in *.
  destruct (getUpload uid w) as [[up|] w1] eqn:Hget.
  - destruct (getUpload_registry_ok _ _ _ _ Hok Hget) as [Hd _].
    pose proof (getUpload_again _ _ _ _ Hget) as Hget1.
    split.
    + rewrite (getMissingChunks_complement _ _ _ _ Hget Hd). by eexists.
    + unfold completeUpload.
      rewrite Hget, (getMissingChunks_complement _ _ _ _ Hget1 Hd).
      destruct (0 <? _); by eexists.
  - split.
    + unfold getMissingChunks. rewrite Hget. by eexists.
    + unfold completeUpload. rewrite Hget. by eexists.
Qed.
